(** * zserge/lex: the scanning engine, embedded in Rocq

    The development follows the latest evolution of the engine, the one
    that reads through its own [bufreader] and keeps a stack of saved
    positions, together with the word/space state machine of the
    test-suite.  The evolution before it, which reads straight from a
    [bufio.Reader] and saves a single position, is embedded next to it
    (module [earlier]) for the places where the two differ.

    Conventions of the embedding
    - Go's [int] is a 64-bit two's complement integer: it is a [Z] and
      every [++] / [--] is written with its wrap-around ([incr], [decr]).
    - A [rune] is a [Z]; a Go [string] is kept as the sequence of code
      points it decodes to, and [string_of_runes] is the conversion
      [string(rs)] of a rune slice (invalid code points become U+FFFD).
    - Methods mutate the receiver: here they are state-passing functions
      in a small monad [M] over the receiver, whose outcomes are normal
      return, a Go run-time panic, or exhausted fuel (for loops).
    - The unbuffered token channel is the ordered list of tokens sent so
      far; the consumer is assumed to drain it.
    - Function values of type [StateFn] are represented by names of a
      state type together with a [call] function (defunctionalisation),
      [None] standing for the nil [StateFn].
    - [fmt.Sprintf] and the values of [interface{}] are parameters
      (class [Env]). *)

From Stdlib Require Import ZArith List String Ascii Bool Lia.
Import ListNotations.
Local Open Scope Z_scope.

(** ** Go primitives *)

Definition int := Z.
Definition rune := Z.
Definition gostring := list rune.

Definition wrap64 (z : Z) : int := (z + 2 ^ 63) mod 2 ^ 64 - 2 ^ 63.
Definition incr (x : int) : int := wrap64 (x + 1).
Definition decr (x : int) : int := wrap64 (x - 1).

Definition len {A : Type} (l : list A) : int := Z.of_nat (List.length l).

(** ASCII literals, for readable inputs and expected texts. *)
Definition runes (s : string) : list rune :=
  map (fun a => Z.of_N (N_of_ascii a)) (list_ascii_of_string s).

Definition RuneError : rune := 65533.

Definition valid_rune (r : rune) : bool :=
  ((0 <=? r) && (r <? 55296)) || ((57344 <=? r) && (r <=? 1114111)).

(** [string(rs)] for [rs []rune]. *)
Definition string_of_runes (rs : list rune) : gostring :=
  map (fun r => if valid_rune r then r else RuneError) rs.

Inductive panic : Type :=
| index_out_of_range
| slice_bounds_out_of_range.

Inductive outcome (A : Type) : Type :=
| Ok (a : A)
| Panic (p : panic)
| OutOfFuel.
Arguments Ok {A} a.
Arguments Panic {A} p.
Arguments OutOfFuel {A}.

(** [s[i]] *)
Definition index {A : Type} (s : list A) (i : int) : outcome A :=
  if i <? 0 then Panic index_out_of_range
  else match nth_error s (Z.to_nat i) with
       | Some x => Ok x
       | None => Panic index_out_of_range
       end.

(** [s[0:hi]] (also written [s[:hi]]) for [hi <= len(s)] *)
Definition slice_to {A : Type} (s : list A) (hi : int) : outcome (list A) :=
  if (hi <? 0) || (len s <? hi) then Panic slice_bounds_out_of_range
  else Ok (firstn (Z.to_nat hi) s).

(** [s[lo:]] *)
Definition slice_from {A : Type} (s : list A) (lo : int) : outcome (list A) :=
  if (lo <? 0) || (len s <? lo) then Panic slice_bounds_out_of_range
  else Ok (skipn (Z.to_nat lo) s).

(** ** Constants and the environment *)

Definition TokenType := int.
Definition EOF : rune := -1.
Definition TokError : TokenType := -1.

(** [error] values.  [io_EOF] is the sentinel the engine compares with;
    any other error carries the text its [Error()] method returns. *)
Inductive error : Type :=
| io_EOF
| other_error (msg : gostring).

Definition Error (e : error) : gostring :=
  match e with
  | io_EOF => runes "EOF"
  | other_error msg => msg
  end.

Definition is_io_EOF (e : error) : bool :=
  match e with io_EOF => true | other_error _ => false end.

(** What the engine takes from outside the repository: the values an
    [interface{}] can hold ([None] is the nil interface) and the standard
    library's [fmt.Sprintf]. *)
Class Env : Type := {
  any : Type;
  Sprintf : gostring -> list (option any) -> gostring
}.

(** An environment for concrete runs: no payload other than nil, and a
    formatter that gives back its format, as [fmt.Sprintf] does when the
    format has no verb and there is no operand. *)
Definition plain_env : Env :=
  {| any := Empty_set; Sprintf := fun s _ => s |}.

(** ** Position tracker *)

Module pos.
Record t : Type := mk { line : int; col : int; pos : int }.

Definition zero : t := mk 0 0 0.

(** [p.CopyTo(&to)] overwrites every field of [to]: the new [to]. *)
Definition CopyTo (p : t) : t := mk (line p) (col p) (pos p).

Definition Advance (p : t) (r : rune) : t :=
  let p := mk (line p) (incr (col p)) (pos p) in
  let p := mk (line p) (col p) (incr (pos p)) in
  if r =? 10 then
    let p := mk (incr (line p)) (col p) (pos p) in
    mk (line p) 0 (pos p)
  else p.
End pos.

(** ** Tokens *)

Module Token.
Section Token.
Context `{Env}.
Record t : Type := mk {
  Type_ : TokenType;
  Value : gostring;
  Line : int;
  Col : int;
  Pos : int;
  Extra : option any
}.
End Token.
Arguments t {_}.
Arguments mk {_} _ _ _ _ _ _.
End Token.

(** ** The character source

  The [bufio.Reader] wrapped around the caller's [io.Reader] is an
  opaque sequential source of decoded runes: it yields the runes of
  [pending] one by one and then fails with [failure] (ordinary
  exhaustion is the failure [io_EOF]).  A failed [ReadRune] of the
  standard library returns the zero rune. *)

Module source.
Record t : Type := mk { pending : list rune; failure : error }.

Definition ReadRune (s : t) : rune * option error * t :=
  match pending s with
  | c :: rest => (c, None, mk rest (failure s))
  | [] => (0, Some (failure s), s)
  end.

Definition of_string (s : list rune) : t := mk s io_EOF.
End source.

(** ** bufreader *)

Module bufreader.
Record t : Type := mk {
  r : source.t;
  buf : list rune;
  pos : int;
  err : option error
}.

Definition newbufreader (rd : source.t) : t := mk rd [] 0 None.

(** The size result is dropped: the engine discards it. *)
Definition ReadRune (br : t) : outcome (rune * option error * t) :=
  match err br with
  | Some e => Ok (0, Some e, br)
  | None =>
    if pos br <? len (buf br) then
      match index (buf br) (pos br) with
      | Ok c => Ok (c, None, mk (r br) (buf br) (incr (pos br)) (err br))
      | Panic p => Panic p
      | OutOfFuel => OutOfFuel
      end
    else
      let '(c, e, rd) := source.ReadRune (r br) in
      match e with
      | Some e' => Ok (c, e, mk rd (buf br) (pos br) (Some e'))
      | None =>
        let buf' := buf br ++ [c] in
        Ok (c, e, mk rd buf' (len buf') (err br))
      end
  end.

Definition out_of_bounds : error :=
  other_error (runes "reader position is out of bounds").

Definition UnreadRune (br : t) : option error * t :=
  let br := mk (r br) (buf br) (decr (pos br)) (err br) in
  if pos br <? 0 then (Some out_of_bounds, br) else (None, br).

Definition Ignore (br : t) : outcome t :=
  let br := mk (r br) (buf br) 0 (err br) in
  if len (buf br) >? 0 then
    match slice_from (buf br) (len (buf br) - 1) with
    | Ok b => Ok (mk (r br) b (pos br) (err br))
    | Panic p => Panic p
    | OutOfFuel => OutOfFuel
    end
  else Ok br.
End bufreader.

(** ** The engine *)

Module lexer.
Section lexer.
Context `{Env}.

Record t : Type := mk {
  r : bufreader.t;
  tokens : list Token.t;
  eof : bool;
  value : list rune;
  pos : pos.t;
  tokenPos : pos.t;
  prevPos : list pos.t
}.

Definition set_r (l : t) (x : bufreader.t) : t :=
  mk x (tokens l) (eof l) (value l) (pos l) (tokenPos l) (prevPos l).
Definition set_tokens (l : t) (x : list Token.t) : t :=
  mk (r l) x (eof l) (value l) (pos l) (tokenPos l) (prevPos l).
Definition set_eof (l : t) (x : bool) : t :=
  mk (r l) (tokens l) x (value l) (pos l) (tokenPos l) (prevPos l).
Definition set_value (l : t) (x : list rune) : t :=
  mk (r l) (tokens l) (eof l) x (pos l) (tokenPos l) (prevPos l).
Definition set_pos (l : t) (x : pos.t) : t :=
  mk (r l) (tokens l) (eof l) (value l) x (tokenPos l) (prevPos l).
Definition set_tokenPos (l : t) (x : pos.t) : t :=
  mk (r l) (tokens l) (eof l) (value l) (pos l) x (prevPos l).
Definition set_prevPos (l : t) (x : list pos.t) : t :=
  mk (r l) (tokens l) (eof l) (value l) (pos l) (tokenPos l) x.

(** The monad of methods on [*lexer]. *)
Definition M (A : Type) : Type := t -> outcome (A * t).

Definition ret {A : Type} (a : A) : M A := fun l => Ok (a, l).

Definition bind {A B : Type} (m : M A) (k : A -> M B) : M B :=
  fun l =>
    match m l with
    | Ok (a, l') => k a l'
    | Panic p => Panic p
    | OutOfFuel => OutOfFuel
    end.

Definition lift {A : Type} (o : outcome A) : M A :=
  fun l =>
    match o with
    | Ok a => Ok (a, l)
    | Panic p => Panic p
    | OutOfFuel => OutOfFuel
    end.

Definition get : M t := fun l => Ok (l, l).
Definition modify (f : t -> t) : M unit := fun l => Ok (tt, f l).

End lexer.
Arguments t {_}.
Arguments mk {_} _ _ _ _ _ _ _.
End lexer.

Declare Scope lex_scope.
Delimit Scope lex_scope with lex.
Notation "x <- m ;; k" := (lexer.bind m (fun x => k))
  (at level 61, m at next level, right associativity) : lex_scope.
Notation "m ;; k" := (lexer.bind m (fun _ => k))
  (at level 61, right associativity) : lex_scope.
Local Open Scope lex_scope.

Section methods.
Context `{Env}.
Import lexer.

Definition NewLexer (rd : source.t) : lexer.t :=
  lexer.mk (bufreader.newbufreader rd) [] false [] pos.zero pos.zero [].

Definition NewLexerString (s : list rune) : lexer.t :=
  NewLexer (source.of_string s).

(** [lex.tokens <- tok] *)
Definition send (tok : Token.t) : M unit :=
  modify (fun l => set_tokens l (tokens l ++ [tok])).

Definition Line : M int := fun l => Ok (pos.line (pos l), l).
Definition Col : M int := fun l => Ok (pos.col (pos l), l).
Definition Pos : M int := fun l => Ok (pos.pos (pos l), l).
Definition Value : M gostring := fun l => Ok (string_of_runes (value l), l).

(** The result is the nil [StateFn], whatever the state type. *)
Definition Errorf {S : Type} (t : TokenType) (s : gostring)
    (args : list (option any)) : M (option S) :=
  let value := Sprintf s args in
  line <- Line ;; col <- Col ;; p <- Pos ;;
  send (Token.mk t value line col p None) ;;
  ret None.

Definition Next : M rune :=
  l <- get ;;
  res <- lift (bufreader.ReadRune (r l)) ;;
  let '(c, err, br) := res in
  modify (fun l => set_r l br) ;;
  match err with
  | Some e =>
    (if negb (is_io_EOF e)
     then (_ <- @Errorf unit TokError (Error e) [] ;; ret tt)
     else ret tt) ;;
    modify (fun l => set_value l (value l ++ [c])) ;;
    modify (fun l => set_eof l true) ;;
    ret EOF
  | None =>
    l <- get ;;
    let prev := pos.CopyTo (pos l) in
    modify (fun l => set_pos l (pos.Advance (pos l) c)) ;;
    modify (fun l => set_prevPos l (prevPos l ++ [prev])) ;;
    modify (fun l => set_value l (value l ++ [c])) ;;
    ret c
  end.

Definition Backup : M unit :=
  l <- get ;;
  modify (fun l => set_r l (snd (bufreader.UnreadRune (r l)))) ;;
  l <- get ;;
  v <- lift (slice_to (value l) (len (value l) - 1)) ;;
  modify (fun l => set_value l v) ;;
  l <- get ;;
  prev <- lift (index (prevPos l) (len (prevPos l) - 1)) ;;
  modify (fun l => set_pos l (pos.CopyTo prev)) ;;
  l <- get ;;
  pp <- lift (slice_to (prevPos l) (len (prevPos l) - 1)) ;;
  modify (fun l => set_prevPos l pp).

Definition Peek : M rune :=
  c <- Next ;;
  Backup ;;
  ret c.

Definition Ignore : M unit :=
  modify (fun l => set_tokenPos l (pos.CopyTo (pos l))) ;;
  modify (fun l => set_value l []) ;;
  l <- get ;;
  br <- lift (bufreader.Ignore (r l)) ;;
  modify (fun l => set_r l br).

Definition EmitExtra (t : TokenType) (extra : option any) : M unit :=
  v <- Value ;;
  l <- get ;;
  send (Token.mk t v (pos.line (tokenPos l)) (pos.col (tokenPos l))
          (pos.pos (tokenPos l)) extra) ;;
  Ignore.

Definition Emit (t : TokenType) : M unit := EmitExtra t None.

(** *** The driver

    [Run] starts the producer goroutine and hands out the channel.  The
    loop is [drive]; [Run] gives what the channel delivers: [Ok toks]
    when it delivered exactly [toks], in this order, and was closed. *)
Section driver.
Context {S : Type} (call : S -> nat -> M (option S)).

Fixpoint drive (fuel : nat) (state : option S) : M unit :=
  fun l =>
    match state with
    | None => Ok (tt, l)
    | Some st =>
      if eof l then Ok (tt, l)
      else match fuel with
           | O => OutOfFuel
           | Datatypes.S fuel' =>
             match call st fuel' l with
             | Ok (next, l') => drive fuel' next l'
             | Panic p => Panic p
             | OutOfFuel => OutOfFuel
             end
           end
    end.

Definition Run (fuel : nat) (start : option S) (l : lexer.t)
    : outcome (list Token.t) :=
  match drive fuel start l with
  | Ok (_, l') => Ok (tokens l')
  | Panic p => Panic p
  | OutOfFuel => OutOfFuel
  end.
End driver.

(** *** The word/space state machine of the test-suite *)

Definition TokWord : TokenType := 0.

Definition isSpace (c : rune) : bool :=
  (c =? 32) || (c =? 9) || (c =? 13) || (c =? 10).

Inductive StateFn : Type := lexWord | lexSkipSpaces.

Fixpoint lexWord_body (fuel : nat) : M (option StateFn) :=
  match fuel with
  | O => fun _ => OutOfFuel
  | Datatypes.S fuel' =>
    c <- Peek ;;
    if isSpace c then
      Emit TokWord ;; ret (Some lexSkipSpaces)
    else if c =? EOF then
      Emit TokWord ;; ret None
    else
      Next ;; lexWord_body fuel'
  end.

Fixpoint lexSkipSpaces_loop (fuel : nat) : M unit :=
  match fuel with
  | O => fun _ => OutOfFuel
  | Datatypes.S fuel' =>
    c <- Next ;;
    if isSpace c then lexSkipSpaces_loop fuel' else ret tt
  end.

Definition lexSkipSpaces_body (fuel : nat) : M (option StateFn) :=
  lexSkipSpaces_loop fuel ;;
  Backup ;;
  Ignore ;;
  ret (Some lexWord).

Definition call (f : StateFn) : nat -> M (option StateFn) :=
  match f with
  | lexWord => lexWord_body
  | lexSkipSpaces => lexSkipSpaces_body
  end.

Definition brokenReader (data : list rune) : source.t :=
  source.mk data (other_error (runes "broken")).

End methods.

(** ** Call sequences

    A state function can reach the engine only through the methods of
    the [Lexer] interface, so a run of any chain of state functions is a
    finite sequence of such calls.  The accessors [Line], [Col], [Pos]
    and [Value] do not change the engine and are left out. *)

Section calls.
Context `{Env}.
Import lexer.

Inductive op : Type :=
| ONext
| OPeek
| OBackup
| OIgnore
| OEmit (t : TokenType)
| OEmitExtra (t : TokenType) (extra : option any)
| OErrorf (t : TokenType) (s : gostring) (args : list (option any)).

(** What a call did, as seen from outside: the rune a read returned and
    whether the source had failed by then, the span an [Ignore] dropped,
    the tokens a call sent on the channel. *)
Inductive event : Type :=
| ev_next (c : rune) (failed : bool) (sent : list Token.t)
| ev_peek (c : rune) (failed : bool) (sent : list Token.t)
| ev_backup
| ev_ignore (span : gostring)
| ev_emit (sent : list Token.t)
| ev_errorf (sent : list Token.t).

Definition failed (l : lexer.t) : bool :=
  match bufreader.err (r l) with Some _ => true | None => false end.

(** The tokens sent between two states of the engine. *)
Definition sent_since (l l' : lexer.t) : list Token.t :=
  skipn (List.length (tokens l)) (tokens l').

Definition exec (o : op) : M event :=
  fun l =>
    match o with
    | ONext =>
      match Next l with
      | Ok (c, l') => Ok (ev_next c (failed l') (sent_since l l'), l')
      | Panic p => Panic p
      | OutOfFuel => OutOfFuel
      end
    | OPeek =>
      match Peek l with
      | Ok (c, l') => Ok (ev_peek c (failed l') (sent_since l l'), l')
      | Panic p => Panic p
      | OutOfFuel => OutOfFuel
      end
    | OBackup =>
      match Backup l with
      | Ok (_, l') => Ok (ev_backup, l')
      | Panic p => Panic p
      | OutOfFuel => OutOfFuel
      end
    | OIgnore =>
      match (v <- Value ;; Ignore ;; ret v) l with
      | Ok (v, l') => Ok (ev_ignore v, l')
      | Panic p => Panic p
      | OutOfFuel => OutOfFuel
      end
    | OEmit t =>
      match Emit t l with
      | Ok (_, l') => Ok (ev_emit (sent_since l l'), l')
      | Panic p => Panic p
      | OutOfFuel => OutOfFuel
      end
    | OEmitExtra t extra =>
      match EmitExtra t extra l with
      | Ok (_, l') => Ok (ev_emit (sent_since l l'), l')
      | Panic p => Panic p
      | OutOfFuel => OutOfFuel
      end
    | OErrorf t s args =>
      match @Errorf _ unit t s args l with
      | Ok (_, l') => Ok (ev_errorf (sent_since l l'), l')
      | Panic p => Panic p
      | OutOfFuel => OutOfFuel
      end
    end.

Fixpoint trace (ops : list op) : M (list event) :=
  match ops with
  | [] => ret []
  | o :: rest =>
    e <- exec o ;;
    es <- trace rest ;;
    ret (e :: es)
  end.

End calls.

(** ** The earlier evolution of the engine

    Before it got its own [bufreader] and a stack of saved positions the
    engine read straight from a [bufio.Reader] and saved one position.
    [Next], [Peek], [Backup], the emission methods and the driver are
    the same text otherwise.  The standard library's reader is modelled
    as documented: [UnreadRune] gives back the last rune only when the
    most recent operation was a [ReadRune] that succeeded, and reports an
    error, which the engine drops, otherwise. *)

Module earlier.
Section earlier.
Context `{Env}.

Record Reader : Type := mk_reader {
  last_rune : option rune;
  pending : list rune;
  failure : error
}.

Definition ReadRune (b : Reader) : rune * option error * Reader :=
  match pending b with
  | c :: rest => (c, None, mk_reader (Some c) rest (failure b))
  | [] => (0, Some (failure b), mk_reader None [] (failure b))
  end.

Definition ErrInvalidUnreadRune : error :=
  other_error (runes "bufio: invalid use of UnreadRune").

Definition UnreadRune (b : Reader) : option error * Reader :=
  match last_rune b with
  | Some c => (None, mk_reader None (c :: pending b) (failure b))
  | None => (Some ErrInvalidUnreadRune, b)
  end.

Record Lexer : Type := mk {
  r : Reader;
  tokens : list Token.t;
  eof : bool;
  value : list rune;
  pos : pos.t;
  prevPos : pos.t;
  tokenPos : pos.t
}.

Definition NewLexer (pending : list rune) (failure : error) : Lexer :=
  mk (mk_reader None pending failure) [] false [] pos.zero pos.zero pos.zero.

Definition Errorf (t : TokenType) (s : gostring) (args : list (option any))
    (lex : Lexer) : Lexer :=
  let value' := Sprintf s args in
  mk (r lex)
     (tokens lex ++ [Token.mk t value' (pos.line (pos lex)) (pos.col (pos lex))
                       (pos.pos (pos lex)) None])
     (eof lex) (value lex) (pos lex) (prevPos lex) (tokenPos lex).

Definition Next (lex : Lexer) : rune * Lexer :=
  let '(c, err, rd) := ReadRune (r lex) in
  let lex := mk rd (tokens lex) (eof lex) (value lex) (pos lex) (prevPos lex)
               (tokenPos lex) in
  match err with
  | Some e =>
    let lex := if negb (is_io_EOF e) then Errorf TokError (Error e) [] lex else lex in
    let lex := mk (r lex) (tokens lex) (eof lex) (value lex ++ [c]) (pos lex)
                 (prevPos lex) (tokenPos lex) in
    let lex := mk (r lex) (tokens lex) true (value lex) (pos lex) (prevPos lex)
                 (tokenPos lex) in
    (EOF, lex)
  | None =>
    let lex := mk (r lex) (tokens lex) (eof lex) (value lex) (pos lex)
                 (pos.CopyTo (pos lex)) (tokenPos lex) in
    let lex := mk (r lex) (tokens lex) (eof lex) (value lex)
                 (pos.Advance (pos lex) c) (prevPos lex) (tokenPos lex) in
    let lex := mk (r lex) (tokens lex) (eof lex) (value lex ++ [c]) (pos lex)
                 (prevPos lex) (tokenPos lex) in
    (c, lex)
  end.

Definition Backup (lex : Lexer) : outcome Lexer :=
  let lex := mk (snd (UnreadRune (r lex))) (tokens lex) (eof lex) (value lex)
               (pos lex) (prevPos lex) (tokenPos lex) in
  match slice_to (value lex) (len (value lex) - 1) with
  | Ok v =>
    let lex := mk (r lex) (tokens lex) (eof lex) v (pos lex) (prevPos lex)
                 (tokenPos lex) in
    Ok (mk (r lex) (tokens lex) (eof lex) (value lex) (pos.CopyTo (prevPos lex))
          (prevPos lex) (tokenPos lex))
  | Panic p => Panic p
  | OutOfFuel => OutOfFuel
  end.

Definition Peek (lex : Lexer) : outcome (rune * Lexer) :=
  let '(c, lex) := Next lex in
  match Backup lex with
  | Ok lex => Ok (c, lex)
  | Panic p => Panic p
  | OutOfFuel => OutOfFuel
  end.

Definition Ignore (lex : Lexer) : Lexer :=
  let lex := mk (r lex) (tokens lex) (eof lex) (value lex) (pos lex) (prevPos lex)
               (pos.CopyTo (pos lex)) in
  mk (r lex) (tokens lex) (eof lex) [] (pos lex) (prevPos lex) (tokenPos lex).

Definition EmitExtra (t : TokenType) (extra : option any) (lex : Lexer) : Lexer :=
  let lex := mk (r lex)
               (tokens lex ++ [Token.mk t (string_of_runes (value lex))
                                 (pos.line (tokenPos lex)) (pos.col (tokenPos lex))
                                 (pos.pos (tokenPos lex)) extra])
               (eof lex) (value lex) (pos lex) (prevPos lex) (tokenPos lex) in
  let lex := mk (r lex) (tokens lex) (eof lex) (value lex) (pos lex) (prevPos lex)
               (pos.CopyTo (pos lex)) in
  mk (r lex) (tokens lex) (eof lex) [] (pos lex) (prevPos lex) (tokenPos lex).

Definition Emit (t : TokenType) (lex : Lexer) : Lexer := EmitExtra t None lex.

(** The word/space machine and the driver, on this engine. *)
Fixpoint lexWord_body (fuel : nat) (lex : Lexer) : outcome (option StateFn * Lexer) :=
  match fuel with
  | O => OutOfFuel
  | S fuel' =>
    match Peek lex with
    | Ok (c, lex) =>
      if isSpace c then Ok (Some lexSkipSpaces, Emit TokWord lex)
      else if c =? EOF then Ok (None, Emit TokWord lex)
      else lexWord_body fuel' (snd (Next lex))
    | Panic p => Panic p
    | OutOfFuel => OutOfFuel
    end
  end.

Fixpoint lexSkipSpaces_loop (fuel : nat) (lex : Lexer) : outcome Lexer :=
  match fuel with
  | O => OutOfFuel
  | S fuel' =>
    let '(c, lex) := Next lex in
    if isSpace c then lexSkipSpaces_loop fuel' lex else Ok lex
  end.

Definition lexSkipSpaces_body (fuel : nat) (lex : Lexer)
    : outcome (option StateFn * Lexer) :=
  match lexSkipSpaces_loop fuel lex with
  | Ok lex =>
    match Backup lex with
    | Ok lex => Ok (Some lexWord, Ignore lex)
    | Panic p => Panic p
    | OutOfFuel => OutOfFuel
    end
  | Panic p => Panic p
  | OutOfFuel => OutOfFuel
  end.

Definition call (f : StateFn) : nat -> Lexer -> outcome (option StateFn * Lexer) :=
  match f with
  | lexWord => lexWord_body
  | lexSkipSpaces => lexSkipSpaces_body
  end.

Fixpoint drive (fuel : nat) (state : option StateFn) (lex : Lexer) : outcome Lexer :=
  match state with
  | None => Ok lex
  | Some st =>
    if eof lex then Ok lex
    else match fuel with
         | O => OutOfFuel
         | S fuel' =>
           match call st fuel' lex with
           | Ok (next, lex') => drive fuel' next lex'
           | Panic p => Panic p
           | OutOfFuel => OutOfFuel
           end
         end
  end.

Definition Run (fuel : nat) (start : option StateFn) (lex : Lexer)
    : outcome (list Token.t) :=
  match drive fuel start lex with
  | Ok lex' => Ok (tokens lex')
  | Panic p => Panic p
  | OutOfFuel => OutOfFuel
  end.

End earlier.
End earlier.

(** * Notions used in the statements *)

Section notions.
Context `{Env}.
Import lexer.

(** ** Tokens and states the methods produce *)

(** The token [Errorf] builds in state [l] for the message [msg]. *)
Definition error_token (l : lexer.t) (t : TokenType) (msg : gostring) : Token.t :=
  Token.mk t msg (pos.line (pos l)) (pos.col (pos l)) (pos.pos (pos l)) None.

(** The token [EmitExtra] builds in state [l]. *)
Definition emitted_token (l : lexer.t) (t : TokenType) (extra : option any) : Token.t :=
  Token.mk t (string_of_runes (value l)) (pos.line (tokenPos l))
    (pos.col (tokenPos l)) (pos.pos (tokenPos l)) extra.

(** [n] calls of [Next] in a row, with the runes they returned. *)
Fixpoint Nexts (n : nat) : M (list rune) :=
  match n with
  | O => ret []
  | Datatypes.S n' => c <- Next ;; cs <- Nexts n' ;; ret (c :: cs)
  end.

(** A fuelled function settles when more fuel does not change an
    outcome other than [OutOfFuel]. *)
Definition settles {A : Type} (f : nat -> M A) : Prop :=
  forall (n m : nat) (l : lexer.t),
    (n <= m)%nat -> f n l <> OutOfFuel -> f m l = f n l.

(** The state after a [Next] whose read succeeded with [c]. *)
Definition after_read (l : lexer.t) (c : rune) (br : bufreader.t) : lexer.t :=
  lexer.mk br (tokens l) (eof l) (value l ++ [c]) (pos.Advance (pos l) c)
    (tokenPos l) (prevPos l ++ [pos l]).

(** The state after a [Next] whose read failed with [e]. *)
Definition after_failure (l : lexer.t) (e : error) (br : bufreader.t) : lexer.t :=
  lexer.mk br
    (if is_io_EOF e then tokens l
     else tokens l ++ [error_token l TokError (Sprintf (Error e) [])])
    true (value l ++ [0]) (pos l) (tokenPos l) (prevPos l).

(** ** The scenarios of the test-suite *)

(** A word token as the tests expect it. *)
Definition word (text : string) (line col p : int) : Token.t :=
  Token.mk TokWord (runes text) line col p None.

(** The input of [TestWordReader]; 10 is the newline. *)
Definition words_input : list rune :=
  runes "  foo bar" ++ [10] ++ runes "    baz    ".

(** The error token of [TestBrokenReader]. *)
Definition broken_error_token : Token.t :=
  Token.mk TokError (Sprintf (runes "broken") []) 0 7 7 None.

(** The second scenario as the specification words it: the stream is
    the word, one error token at offset 7, and nothing more. *)
Definition broken_scenario_as_stated : Prop :=
  exists (fuel : nat) (e : Token.t),
    Run call fuel (Some lexSkipSpaces) (NewLexer (brokenReader (runes "foo bar")))
    = Ok [word "foo" 0 0 0; e]
    /\ Token.Type_ e = TokError /\ Token.Pos e = 7.

(** ** Undoing *)

(** The reading of C8 on call sequences: a character is pending when a
    [Next] read one and no [Backup] (alone or inside [Peek]) came after. *)
Definition pending_undo (evs : list event) : bool :=
  fold_left
    (fun (b : bool) (e : event) =>
       match e with
       | ev_next _ false _ => true
       | ev_backup | ev_peek _ _ _ => false
       | _ => b
       end)
    evs false.

(** C8 as it is stated. *)
Definition Backup_fails_as_stated : Prop :=
  forall (src : source.t) (ops : list op) (evs : list event) (l : lexer.t),
    trace ops (NewLexer src) = Ok (evs, l) ->
    pending_undo evs = false ->
    exists p, Backup l = Panic p.

(** ** Offsets *)

(** The call returned the end-of-source sentinel. *)
Definition returned_EOF (e : event) : bool :=
  match e with
  | ev_next c _ _ | ev_peek c _ _ => c =? EOF
  | _ => false
  end.

(** The saved positions are the offsets 0, 1, 2, ... in this order, and
    the current offset is their number. *)
Definition saved_ok (l : lexer.t) : Prop :=
  pos.pos (pos l) = len (prevPos l)
  /\ forall st p rest, prevPos l = st ++ p :: rest -> pos.pos p = len st.

(** The invariant behind C10. *)
Definition offsets_ok (l : lexer.t) : Prop :=
  saved_ok l
  /\ 0 <= pos.pos (tokenPos l)
  /\ pos.pos (pos l) - pos.pos (tokenPos l) = len (value l).

(** ** Spans *)

(** The calls that close a span. *)
Definition is_flush (o : op) : bool :=
  match o with
  | OIgnore | OEmit _ | OEmitExtra _ _ => true
  | _ => false
  end.

(** A span starts at the beginning of scanning or right after an
    [Ignore], [Emit] or [EmitExtra]. *)
Definition span_start (pre : list op) : Prop :=
  pre = [] \/ exists pre' o, pre = pre' ++ [o] /\ is_flush o = true.

(** The calls made inside one span. *)
Definition in_span (span : list op) : Prop :=
  Forall (fun o => is_flush o = false) span.

(** The scan buffer as the calls of a span build it: a [Next] appends
    the character it read, or U+0000 when its read failed; a [Backup]
    removes the last element; a [Peek] leaves it as it was. *)
Definition buffer_step (acc : list rune) (e : event) : list rune :=
  match e with
  | ev_next c failed _ => acc ++ [if failed then 0 else c]
  | ev_backup => removelast acc
  | ev_ignore _ | ev_emit _ => []
  | ev_peek _ _ _ | ev_errorf _ => acc
  end.

(** The scan buffer at the end of a span with the events [evs]. *)
Definition buffered (evs : list event) : list rune :=
  fold_left buffer_step evs [].

(** The same with C3's words: only characters that were read count. *)
Definition consumed_step (acc : list rune) (e : event) : list rune :=
  match e with
  | ev_next c failed _ => if failed then acc else acc ++ [c]
  | ev_backup => removelast acc
  | ev_ignore _ | ev_emit _ => []
  | ev_peek _ _ _ | ev_errorf _ => acc
  end.

(** The characters consumed in a span and not undone. *)
Definition consumed_in_span (evs : list event) : list rune :=
  fold_left consumed_step evs [].

(** C3 as it is stated. *)
Definition Emit_packages_consumed_as_stated : Prop :=
  forall (src : source.t) (pre span : list op) (evs1 evs2 : list event)
         (l1 l2 : lexer.t) (t : TokenType) (extra : option any),
    span_start pre -> in_span span ->
    trace pre (NewLexer src) = Ok (evs1, l1) ->
    trace span l1 = Ok (evs2, l2) ->
    exists l3,
      EmitExtra t extra l2 = Ok (tt, l3)
      /\ tokens l3
         = tokens l2
           ++ [Token.mk t (string_of_runes (consumed_in_span evs2))
                 (pos.line (pos l1)) (pos.col (pos l1)) (pos.pos (pos l1)) extra]
      /\ value l3 = [] /\ tokenPos l3 = pos l3.

(** ** Positions *)

Definition is_newline (c : rune) : bool := c =? 10.

(** The number of newlines of a text. *)
Definition newlines (p : list rune) : Z := len (filter is_newline p).

(** The characters after the last newline of a text (all of it when it
    has none). *)
Fixpoint last_line (p : list rune) : list rune :=
  match p with
  | [] => []
  | c :: p' =>
    if existsb is_newline p' then last_line p'
    else if is_newline c then p' else c :: p'
  end.

(** The number of characters after the last newline. *)
Definition column (p : list rune) : Z := len (last_line p).

(** The position C5 gives to an engine that has consumed [p]. *)
Definition position_of (p : list rune) : pos.t :=
  pos.mk (newlines p) (column p) (len p).

(** The characters read and not given back, over a whole run. *)
Definition net_step (acc : list rune) (e : event) : list rune :=
  match e with
  | ev_next c _ _ => acc ++ [c]
  | ev_backup => removelast acc
  | _ => acc
  end.

(** The text read and not given back in a run with the events [evs]. *)
Definition net_consumed (evs : list event) : list rune :=
  fold_left net_step evs [].

(** The engine is at the position of [cs], and its saved positions are
    those of the proper prefixes of [cs], shortest first. *)
Definition tracks (cs : list rune) (l : lexer.t) : Prop :=
  pos l = position_of cs
  /\ List.length (prevPos l) = List.length cs
  /\ forall st p rest, prevPos l = st ++ p :: rest ->
                       p = position_of (firstn (List.length st) cs).

(** ** Where the characters go *)

(** The text a call takes out of the scan buffer for good: the text of
    the token sent by [Emit] or [EmitExtra], the span dropped by
    [Ignore].  Error tokens carry a message, not text of the input. *)
Definition piece (e : event) : gostring :=
  match e with
  | ev_emit sent => flat_map Token.Value sent
  | ev_ignore span => span
  | _ => []
  end.

(** Token texts and discarded spans of a run, in the order of the calls. *)
Definition pieces (evs : list event) : gostring := flat_map piece evs.

(** C2 on call sequences, with completion read as: the end of the source
    has been seen and the scan buffer is empty. *)
Definition nothing_lost_as_stated : Prop :=
  forall (s : list rune) (ops : list op) (evs : list event) (l : lexer.t),
    forallb valid_rune s = true ->
    trace ops (NewLexerString s) = Ok (evs, l) ->
    eof l = true -> value l = [] ->
    pieces evs = s.

(** ** Scanning with one character of lookahead

    The discipline of the word/space machine: [Next] is called when a
    character is there to be read, the end of the source being found
    with [Peek]; [Backup] is called while the source has not failed;
    [Ignore], [Emit] and [EmitExtra] are called when the reader holds
    exactly one character that was read and given back (the lookahead),
    or holds nothing, or has failed. *)

(** A character is there to be read. *)
Definition available (l : lexer.t) : bool :=
  match bufreader.ReadRune (r l) with
  | Ok (_, None, _) => true
  | _ => false
  end.

(** The reader holds exactly one character read and given back, or
    nothing, or has failed. *)
Definition one_unread (l : lexer.t) : bool :=
  failed l
  || (len (bufreader.buf (r l)) =? 0)
  || (bufreader.pos (r l) =? len (bufreader.buf (r l)) - 1).

(** The calls the discipline allows in state [l]. *)
Definition allowed (o : op) (l : lexer.t) : bool :=
  match o with
  | ONext => available l
  | OBackup => negb (failed l)
  | OIgnore | OEmit _ | OEmitExtra _ _ => one_unread l
  | OPeek | OErrorf _ _ _ => true
  end.

(** A sequence of calls keeps to the discipline from state [l] on. *)
Fixpoint lookahead_protocol (ops : list op) (l : lexer.t) : bool :=
  match ops with
  | [] => true
  | o :: rest =>
    allowed o l
    && match exec o l with
       | Ok (_, l') => lookahead_protocol rest l'
       | _ => true
       end
  end.

(** The input the reader still has to give. *)
Definition unread (l : lexer.t) : list rune :=
  if failed l then []
  else skipn (Z.to_nat (bufreader.pos (r l))) (bufreader.buf (r l))
       ++ source.pending (bufreader.r (r l)).

(** Every character of [s] is accounted for: [gone] has left the scan
    buffer, and the rest is in the reader's buffer, whose part before the
    reader's position is the scan buffer, or still in the source. *)
Definition accounted (s gone : list rune) (l : lexer.t) : Prop :=
  (eof l = true -> failed l = true)
  /\ if failed l then gone ++ value l = s
     else 0 <= bufreader.pos (r l) <= len (bufreader.buf (r l))
          /\ value l = firstn (Z.to_nat (bufreader.pos (r l))) (bufreader.buf (r l))
          /\ gone ++ bufreader.buf (r l) ++ source.pending (bufreader.r (r l)) = s.

End notions.

(** ** Runs on which statements are decided *)

(** The run [Next], [Next], [Backup] on the source [ab]. *)
Definition ab_read_read_undone `{Env} : outcome (list event * lexer.t) :=
  Eval vm_compute in
    trace [ONext; ONext; OBackup] (NewLexer (source.of_string (runes "ab"))).

(** The run [Next], [Next] on the source [a]: the second read fails. *)
Definition a_read_to_the_end `{Env} : outcome (list event * lexer.t) :=
  Eval vm_compute in
    trace [ONext; ONext] (NewLexer (source.of_string (runes "a"))).

(** The run [Next], [Next], [Emit] on the source [a]. *)
Definition a_read_to_the_end_emitted `{Env} : outcome (list event * lexer.t) :=
  Eval vm_compute in
    trace [ONext; ONext; OEmit 0] (NewLexerString (runes "a")).

(** ** Sample runs *)

Section samples.
#[local] Existing Instance plain_env.
Import lexer.

Definition sample_ops : list op :=
  [ONext; OPeek; OEmit 0; ONext; ONext; OBackup].

Definition sample_run : outcome (list event * lexer.t) :=
  Eval vm_compute in trace sample_ops (NewLexer (source.of_string (runes "ab c"))).

Definition skip_ops : list op := [ONext; OPeek; OIgnore].

Definition word_ops : list op := [ONext; ONext; OPeek].

Definition skip_run : outcome (list event * lexer.t) :=
  Eval vm_compute in trace skip_ops (NewLexer (source.of_string (runes " ab c"))).

Definition word_run : outcome (list event * lexer.t) :=
  Eval vm_compute in
    match skip_run with
    | Ok (_, l1) => trace word_ops l1
    | Panic p => Panic p
    | OutOfFuel => OutOfFuel
    end.

(** The calls the word/space machine makes on [ ab c], the failing
    [Next] at the end being the one inside [Peek]. *)
Definition words_ops : list op :=
  [ONext; ONext; OBackup; OIgnore;
   OPeek; ONext; OPeek; ONext; OPeek; OEmit TokWord;
   ONext; ONext; OBackup; OIgnore;
   OPeek; ONext; OPeek; OEmit TokWord].

Definition words_run : outcome (list event * lexer.t) :=
  Eval vm_compute in trace words_ops (NewLexerString (runes " ab c")).

End samples.

(** * Further notions: repeated calls, the reader on its own *)

(** [n] calls of [ReadRune] in a row, with what each one returned. *)
Fixpoint ReadRunes (n : nat) (br : bufreader.t)
    : outcome (list (rune * option error) * bufreader.t) :=
  match n with
  | O => Ok ([], br)
  | S n' =>
    match bufreader.ReadRune br with
    | Ok (c, e, br') =>
      match ReadRunes n' br' with
      | Ok (rs, br'') => Ok ((c, e) :: rs, br'')
      | Panic p => Panic p
      | OutOfFuel => OutOfFuel
      end
    | Panic p => Panic p
    | OutOfFuel => OutOfFuel
    end
  end.

(** A reader that has not failed, whose position is inside its buffer,
    the buffer being short enough for the position not to wrap. *)
Definition reader_ok (br : bufreader.t) : Prop :=
  bufreader.err br = None
  /\ 0 <= bufreader.pos br <= len (bufreader.buf br)
  /\ len (bufreader.buf br) < 2 ^ 63 - 1.

Section further_notions.
Context `{Env}.
Import lexer.

(** [n] calls of [Backup] in a row. *)
Fixpoint Backups (n : nat) : M unit :=
  match n with
  | O => ret tt
  | Datatypes.S n' => Backups n' ;; Backup
  end.

(** [n] calls of [Peek] in a row, with the runes they returned. *)
Fixpoint Peeks (n : nat) : M (list rune) :=
  match n with
  | O => ret []
  | Datatypes.S n' => c <- Peek ;; cs <- Peeks n' ;; ret (c :: cs)
  end.

(** The tokens a call sent on the channel. *)
Definition sent (e : event) : list Token.t :=
  match e with
  | ev_next _ _ s | ev_peek _ _ s | ev_emit s | ev_errorf s => s
  | ev_backup | ev_ignore _ => []
  end.

(** How many tokens a call can send: [Emit], [EmitExtra] and [Errorf]
    one, a read at most one and none when it read a character, [Backup]
    and [Ignore] none. *)
Definition sends_as_expected (e : event) : Prop :=
  match e with
  | ev_emit s | ev_errorf s => List.length s = 1%nat
  | ev_next _ f s | ev_peek _ f s =>
    (List.length s <= 1)%nat /\ (f = false -> s = [])
  | ev_backup | ev_ignore _ => True
  end.

(** The reader's position stays between the length of the scan buffer
    and the length of the reader's buffer, which has at most [n]
    elements, until the reader fails; the end-of-source flag is the
    reader's failure. *)
Definition in_step (n : Z) (l : lexer.t) : Prop :=
  eof l = failed l
  /\ (failed l = true
      \/ (len (value l) <= bufreader.pos (r l)
          /\ bufreader.pos (r l) <= len (bufreader.buf (r l))
          /\ len (bufreader.buf (r l)) <= n)).

(** ** The word/space machine on any input *)

(** The token of the word [w] that follows the text [done]. *)
Definition word_token (done w : list rune) : Token.t :=
  Token.mk TokWord w (newlines done) (column done) (len done) None.

(** The words of [todo], maximal runs of characters that are not
    spaces, as tokens: [done] is the text before the word being read,
    [w] the characters of that word read so far.  The tokens [last] come
    when the end of the text is found, before the word being read
    then, if there is one. *)
Fixpoint words_from (last : list Token.t) (done w todo : list rune)
    : list Token.t :=
  match todo with
  | [] => last ++ match w with [] => [] | _ => [word_token done w] end
  | c :: todo' =>
    if isSpace c then
      match w with [] => [] | _ => [word_token done w] end
      ++ words_from last (done ++ w ++ [c]) [] todo'
    else words_from last done (w ++ [c]) todo'
  end.

(** The words of a text. *)
Definition words_of (s : list rune) : list Token.t := words_from [] [] [] s.

(** What [Next] sends when the source fails with [e] after the text
    [s]: nothing at the end of the stream, else one error token with the
    message of [e], at the position of the end of [s]. *)
Definition failure_tokens (e : error) (s : list rune) : list Token.t :=
  if is_io_EOF e then []
  else [Token.mk TokError (Sprintf (Error e) [])
          (newlines s) (column s) (len s) None].

(** The token stream of the word/space machine on a source that gives
    the text [s] and then fails with [e]. *)
Definition words_then_failure (e : error) (s : list rune) : list Token.t :=
  words_from (failure_tokens e s) [] [] s.

(** The engine in the middle of the text [s], from a source that fails
    with [e] after it: [done] has left the scan buffer, the position is
    that of the text consumed, the token starts after [done], and the
    reader holds at most one character that was read and given back. *)
Definition scanning (s : list rune) (e : error) (done : list rune)
    (l : lexer.t) : Prop :=
  failed l = false /\ eof l = false
  /\ source.failure (bufreader.r (r l)) = e
  /\ accounted s done l
  /\ tracks (done ++ value l) l
  /\ tokenPos l = position_of done
  /\ len (bufreader.buf (r l)) - bufreader.pos (r l) <= 1.

(** What the driver does once the running state function [m] returns. *)
Definition drive_after (fuel : nat) (m : M (option StateFn)) : M unit :=
  next <- m ;; drive call fuel next.

End further_notions.

(** * Properties *)

(** ** Go primitives *)

Lemma wrap64_small (z : Z) : - 2 ^ 63 <= z < 2 ^ 63 -> wrap64 z = z.
Proof.
  intros Hz. unfold wrap64.
  rewrite Z.mod_small; lia.
Qed.

Lemma len_app {A : Type} (l1 l2 : list A) : len (l1 ++ l2) = len l1 + len l2.
Proof. unfold len. rewrite length_app. lia. Qed.

Lemma len_nonneg {A : Type} (l : list A) : 0 <= len l.
Proof. unfold len. lia. Qed.

Lemma index_last {A : Type} (s : list A) (x : A) :
  index (s ++ [x]) (len (s ++ [x]) - 1) = Ok x.
Proof.
  unfold index. rewrite len_app. change (len [x]) with 1.
  pose proof (len_nonneg s) as Hs.
  destruct (len s + 1 - 1 <? 0) eqn:E; [apply Z.ltb_lt in E; lia|].
  replace (Z.to_nat (len s + 1 - 1)) with (List.length s) by (unfold len; lia).
  rewrite nth_error_app2 by lia. rewrite Nat.sub_diag. reflexivity.
Qed.

Lemma slice_to_last {A : Type} (s : list A) (x : A) :
  slice_to (s ++ [x]) (len (s ++ [x]) - 1) = Ok s.
Proof.
  unfold slice_to. rewrite len_app. change (len [x]) with 1.
  pose proof (len_nonneg s) as Hs.
  destruct (len s + 1 - 1 <? 0) eqn:E1; [apply Z.ltb_lt in E1; lia|].
  destruct (len s + 1 <? len s + 1 - 1) eqn:E2; [apply Z.ltb_lt in E2; lia|].
  simpl. replace (Z.to_nat (len s + 1 - 1)) with (List.length s) by (unfold len; lia).
  rewrite firstn_app, Nat.sub_diag, firstn_all. simpl. now rewrite app_nil_r.
Qed.

Lemma snoc_cases {A : Type} (l : list A) : l = [] \/ exists l' x, l = l' ++ [x].
Proof.
  destruct l as [|a l]; [now left|right].
  destruct (exists_last (l := a :: l)) as (l' & x & E); [discriminate|].
  now exists l', x.
Qed.

Lemma pos_CopyTo_id (p : pos.t) : pos.CopyTo p = p.
Proof. now destruct p. Qed.

(** ** The reader *)

Lemma ReadRune_failure_zero (br br' : bufreader.t) (c : rune) (e : error) :
  bufreader.ReadRune br = Ok (c, Some e, br') ->
  c = 0 /\ bufreader.err br' = Some e.
Proof.
  unfold bufreader.ReadRune.
  destruct (bufreader.err br) as [e0|] eqn:Ee.
  - intros E. injection E as <- <- <-. auto.
  - destruct (bufreader.pos br <? len (bufreader.buf br)).
    + destruct (index _ _); intros E; inversion E.
    + unfold source.ReadRune.
      destruct (source.pending (bufreader.r br)); simpl; intros E; inversion E.
      subst. auto.
Qed.

Lemma ReadRune_failed_again (br : bufreader.t) (e : error) :
  bufreader.err br = Some e -> bufreader.ReadRune br = Ok (0, Some e, br).
Proof. intros E. unfold bufreader.ReadRune. now rewrite E. Qed.

Lemma bufreader_Ignore_ok (br : bufreader.t) :
  exists b, bufreader.Ignore br
            = Ok (bufreader.mk (bufreader.r br) b 0 (bufreader.err br))
         /\ (bufreader.buf br = [] -> b = [])
         /\ (forall pre x, bufreader.buf br = pre ++ [x] -> b = [x]).
Proof.
  unfold bufreader.Ignore. simpl.
  destruct (snoc_cases (bufreader.buf br)) as [E|(pre & x & E)]; rewrite E.
  - exists []. simpl. repeat split; auto.
    intros pre x E'. destruct pre; discriminate.
  - exists [x]. rewrite len_app. change (len [x]) with 1.
    pose proof (len_nonneg pre) as Hp.
    destruct (len pre + 1 >? 0) eqn:E1; [|rewrite Z.gtb_ltb in E1; apply Z.ltb_ge in E1; lia].
    unfold slice_from. rewrite len_app. change (len [x]) with 1.
    destruct (len pre + 1 - 1 <? 0) eqn:E2; [apply Z.ltb_lt in E2; lia|].
    destruct (len pre + 1 <? len pre + 1 - 1) eqn:E3; [apply Z.ltb_lt in E3; lia|].
    simpl. replace (Z.to_nat (len pre + 1 - 1)) with (List.length pre) by (unfold len; lia).
    rewrite skipn_app, Nat.sub_diag, skipn_all. simpl.
    repeat split; auto.
    + intros E'. destruct pre; discriminate.
    + intros pre' x' E'. apply app_inj_tail in E'. now destruct E' as [_ ->].
Qed.

Lemma ReadRune_read_inv (br br' : bufreader.t) (c : rune) :
  bufreader.ReadRune br = Ok (c, None, br') ->
  bufreader.err br = None
  /\ ((bufreader.pos br < len (bufreader.buf br)
       /\ index (bufreader.buf br) (bufreader.pos br) = Ok c
       /\ br' = bufreader.mk (bufreader.r br) (bufreader.buf br)
                  (incr (bufreader.pos br)) None)
      \/ (len (bufreader.buf br) <= bufreader.pos br
          /\ exists rest,
               source.pending (bufreader.r br) = c :: rest
               /\ br' = bufreader.mk
                          (source.mk rest (source.failure (bufreader.r br)))
                          (bufreader.buf br ++ [c])
                          (len (bufreader.buf br ++ [c])) None)).
Proof.
  unfold bufreader.ReadRune.
  destruct (bufreader.err br) as [e0|] eqn:Ee; [discriminate|].
  intros E. split; [reflexivity|].
  destruct (bufreader.pos br <? len (bufreader.buf br)) eqn:El.
  - apply Z.ltb_lt in El. left.
    destruct (index _ _) as [c'| |] eqn:Ei; try discriminate.
    injection E as <- <-. auto.
  - apply Z.ltb_ge in El. right. split; [exact El|].
    unfold source.ReadRune in E.
    destruct (source.pending (bufreader.r br)) as [|c' rest]; simpl in E;
      [discriminate|].
    injection E as <- <-. now exists rest.
Qed.

Lemma ReadRune_failure_inv (br br' : bufreader.t) (c : rune) (e : error) :
  bufreader.ReadRune br = Ok (c, Some e, br') ->
  (bufreader.err br = Some e /\ br' = br)
  \/ (bufreader.err br = None
      /\ len (bufreader.buf br) <= bufreader.pos br
      /\ source.pending (bufreader.r br) = []
      /\ br' = bufreader.mk (bufreader.r br) (bufreader.buf br)
                 (bufreader.pos br) (Some e)).
Proof.
  unfold bufreader.ReadRune.
  destruct (bufreader.err br) as [e0|] eqn:Ee.
  - intros E. injection E as _ <- <-. now left.
  - destruct (bufreader.pos br <? len (bufreader.buf br)) eqn:El.
    + destruct (index _ _); discriminate.
    + apply Z.ltb_ge in El. intros E. right.
      unfold source.ReadRune in E.
      destruct (source.pending (bufreader.r br)) as [|c' rest] eqn:Ep;
        simpl in E; [|discriminate].
      injection E as _ <- <-. auto.
Qed.

(** ** The methods, as equations *)

Section method_equations.
Context `{Env}.
Import lexer.

Lemma Errorf_eq (S : Type) (t : TokenType) (s : gostring)
    (args : list (option any)) (l : lexer.t) :
  @Errorf _ S t s args l
  = Ok (None, set_tokens l (tokens l ++ [error_token l t (Sprintf s args)])).
Proof. reflexivity. Qed.

Lemma Next_read (l : lexer.t) (c : rune) (br : bufreader.t) :
  bufreader.ReadRune (r l) = Ok (c, None, br) ->
  Next l = Ok (c, lexer.mk br (tokens l) (eof l) (value l ++ [c])
                    (pos.Advance (pos l) c) (tokenPos l)
                    (prevPos l ++ [pos l])).
Proof.
  intros E. unfold Next, bind, get, lift. rewrite E. simpl.
  now rewrite pos_CopyTo_id.
Qed.

Lemma Next_failed (l : lexer.t) (c : rune) (e : error) (br : bufreader.t) :
  bufreader.ReadRune (r l) = Ok (c, Some e, br) ->
  Next l = Ok (EOF, lexer.mk br
                      (if is_io_EOF e then tokens l
                       else tokens l ++ [error_token l TokError (Sprintf (Error e) [])])
                      true (value l ++ [0]) (pos l) (tokenPos l) (prevPos l)).
Proof.
  intros E. destruct (ReadRune_failure_zero _ _ _ _ E) as [-> _].
  unfold Next, bind, get, lift. rewrite E. simpl.
  destruct e; reflexivity.
Qed.

Lemma Next_panic (l : lexer.t) (p : panic) :
  bufreader.ReadRune (r l) = Panic p -> Next l = Panic p.
Proof. intros E. unfold Next, bind, get, lift. now rewrite E. Qed.

Lemma Backup_undo (l : lexer.t) (v : list rune) (x : rune)
    (st : list pos.t) (p : pos.t) :
  value l = v ++ [x] -> prevPos l = st ++ [p] ->
  Backup l = Ok (tt, lexer.mk (snd (bufreader.UnreadRune (r l))) (tokens l)
                       (eof l) v p (tokenPos l) st).
Proof.
  intros Ev Ep. unfold Backup, bind, get, lift, modify. simpl.
  rewrite Ev, slice_to_last. simpl.
  rewrite Ep, index_last. simpl.
  rewrite Ep, slice_to_last. simpl.
  now rewrite pos_CopyTo_id.
Qed.

Lemma Backup_empty_value (l : lexer.t) :
  value l = [] -> Backup l = Panic slice_bounds_out_of_range.
Proof.
  intros Ev. unfold Backup, bind, get, lift, modify. simpl. now rewrite Ev.
Qed.

Lemma Backup_empty_prevPos (l : lexer.t) :
  value l <> [] -> prevPos l = [] -> Backup l = Panic index_out_of_range.
Proof.
  intros Ev Ep. destruct (snoc_cases (value l)) as [E|(v & x & E)]; [contradiction|].
  unfold Backup, bind, get, lift, modify. simpl.
  rewrite E, slice_to_last. simpl. now rewrite Ep.
Qed.

Lemma Ignore_eq (l : lexer.t) :
  exists b, Ignore l
            = Ok (tt, lexer.mk (bufreader.mk (bufreader.r (r l)) b 0 (bufreader.err (r l)))
                        (tokens l) (eof l) [] (pos l) (pos l) (prevPos l))
         /\ (bufreader.buf (r l) = [] -> b = [])
         /\ (forall pre x, bufreader.buf (r l) = pre ++ [x] -> b = [x]).
Proof.
  destruct (bufreader_Ignore_ok (r l)) as (b & E & H1 & H2).
  exists b. split; [|auto].
  unfold Ignore, bind, get, lift, modify. simpl. rewrite E. simpl.
  now rewrite pos_CopyTo_id.
Qed.

End method_equations.

Section emission.
Context `{Env}.
Import lexer.

Lemma EmitExtra_eq (t : TokenType) (extra : option any) (l : lexer.t) :
  exists b, EmitExtra t extra l
            = Ok (tt, lexer.mk (bufreader.mk (bufreader.r (r l)) b 0 (bufreader.err (r l)))
                        (tokens l ++ [emitted_token l t extra]) (eof l) []
                        (pos l) (pos l) (prevPos l))
         /\ (bufreader.buf (r l) = [] -> b = [])
         /\ (forall pre x, bufreader.buf (r l) = pre ++ [x] -> b = [x]).
Proof.
  unfold EmitExtra, bind, Value, get, send, modify.
  destruct (Ignore_eq (set_tokens l (tokens l ++ [emitted_token l t extra])))
    as (b & E & H1 & H2).
  exists b. split; [|auto].
  exact E.
Qed.

Lemma string_of_runes_app (a b : list rune) :
  string_of_runes (a ++ b) = string_of_runes a ++ string_of_runes b.
Proof. apply map_app. Qed.

Lemma string_of_runes_NUL (n : nat) : string_of_runes (repeat 0 n) = repeat 0 n.
Proof. induction n; simpl; [reflexivity|]. now f_equal. Qed.

Lemma Nexts_after_failure (n : nat) :
  forall l e, bufreader.err (r l) = Some e ->
  exists l', Nexts n l = Ok (repeat EOF n, l')
          /\ value l' = value l ++ repeat 0 n
          /\ pos l' = pos l
          /\ tokenPos l' = tokenPos l
          /\ bufreader.err (r l') = Some e.
Proof.
  induction n as [|n IH]; intros l e He.
  - exists l. simpl. rewrite app_nil_r. auto.
  - pose proof (Next_failed l _ _ _ (ReadRune_failed_again _ _ He)) as EN.
    match type of EN with _ = Ok (_, ?l1) => set (l1' := l1) in * end.
    destruct (IH l1' e He) as (l' & E & Hv & Hp & Ht & Herr).
    exists l'. simpl. unfold bind at 1. rewrite EN.
    unfold bind at 1. rewrite E. unfold ret.
    repeat split; auto.
    rewrite Hv. simpl. rewrite <- app_assoc. reflexivity.
Qed.

End emission.

(** ** Error signalling and the end of the source *)

Section errors.
Context `{Env}.
Import lexer.

Lemma drive_nil (S : Type) (call : S -> nat -> M (option S)) (fuel : nat)
    (l : lexer.t) :
  drive call fuel None l = Ok (tt, l).
Proof. destruct fuel; reflexivity. Qed.

Lemma drive_eof (S : Type) (call : S -> nat -> M (option S)) (fuel : nat)
    (state : option S) (l : lexer.t) :
  eof l = true -> drive call fuel state l = Ok (tt, l).
Proof. intros E. destruct fuel, state; simpl; now rewrite ?E. Qed.

Lemma drive_step (S : Type) (call : S -> nat -> M (option S)) (fuel : nat)
    (st : S) (next : option S) (l l' : lexer.t) :
  eof l = false -> call st fuel l = Ok (next, l') ->
  drive call (Datatypes.S fuel) (Some st) l = drive call fuel next l'.
Proof. intros E Ec. simpl. now rewrite E, Ec. Qed.

(** C7.  [Errorf] returns normally; it sends exactly one token, whose
    text is the formatted message and whose position is the current
    position of the engine (not the start of the buffered span); every
    other part of the engine, the scan buffer included, is unchanged.
    Its result is the nil state function, on which the driver stops at
    once: a state function that hands this result back is the last one
    to run and the error token is the last one delivered. *)
Theorem Errorf_publishes_and_halts (S : Type) (call : S -> nat -> M (option S))
    (st : S) (fuel : nat) (t : TokenType) (s : gostring)
    (args : list (option any)) (l : lexer.t) :
  eof l = false ->
  call st fuel l = Errorf t s args l ->
  let tok := Token.mk t (Sprintf s args) (pos.line (pos l)) (pos.col (pos l))
               (pos.pos (pos l)) None in
  let l' := lexer.mk (r l) (tokens l ++ [tok]) (eof l) (value l) (pos l)
              (tokenPos l) (prevPos l) in
  @Errorf _ S t s args l = Ok (None, l')
  /\ (forall fuel', drive call fuel' None l' = Ok (tt, l'))
  /\ Run call (Datatypes.S fuel) (Some st) l = Ok (tokens l ++ [tok]).
Proof.
  intros Heof Hcall tok l'.
  split; [reflexivity|]. split; [intros; apply drive_nil|].
  unfold Run. rewrite (drive_step _ _ _ _ None l l' Heof).
  - now rewrite drive_nil.
  - rewrite Hcall. reflexivity.
Qed.

(** C9.  A [Next] whose read fails, at the ordinary end of the source
    as well as on a read error, returns [EOF], appends U+0000 to the scan
    buffer and leaves the position alone.  From then on each further
    [Next] does the same, so [n] more calls leave [n + 1] NULs at the end
    of the buffer and of [Value()]; an [EmitExtra] at that point sends them as part of the
    token text, a [Backup] that returns takes the last one away, and
    [Ignore] clears the buffer. *)
Theorem Next_failure_appends_NUL (l : lexer.t) (c : rune) (e : error)
    (br : bufreader.t) :
  bufreader.ReadRune (r l) = Ok (c, Some e, br) ->
  exists l1,
    Next l = Ok (EOF, l1)
    /\ value l1 = value l ++ [0] /\ pos l1 = pos l /\ eof l1 = true
    /\ (forall n, exists ln,
          Nexts n l1 = Ok (repeat EOF n, ln)
          /\ value ln = value l ++ repeat 0 (Datatypes.S n)
          /\ Value ln = Ok (string_of_runes (value l) ++ repeat 0 (Datatypes.S n), ln)
          /\ pos ln = pos l
          /\ (forall t extra, exists l2,
                EmitExtra t extra ln = Ok (tt, l2)
                /\ tokens l2
                   = tokens ln
                     ++ [Token.mk t (string_of_runes (value l) ++ repeat 0 (Datatypes.S n))
                           (pos.line (tokenPos l)) (pos.col (tokenPos l))
                           (pos.pos (tokenPos l)) extra]))
    /\ (forall lb, Backup l1 = Ok (tt, lb) -> value lb = value l)
    /\ (exists li, Ignore l1 = Ok (tt, li) /\ value li = []).
Proof.
  intros E. pose proof (Next_failed l c e br E) as EN.
  destruct (ReadRune_failure_zero _ _ _ _ E) as [_ Herr].
  match type of EN with _ = Ok (_, ?x) => set (l1 := x) in * end.
  exists l1. split; [exact EN|].
  split; [reflexivity|]. split; [reflexivity|]. split; [reflexivity|].
  split; [|split].
  - intros n.
    destruct (Nexts_after_failure n l1 e Herr) as (ln & En & Hv & Hp & Ht & _).
    exists ln. split; [exact En|].
    assert (Hvn : value ln = value l ++ repeat 0 (Datatypes.S n)).
    { rewrite Hv. simpl. now rewrite <- app_assoc. }
    split; [exact Hvn|].
    split; [unfold Value;
            now rewrite Hvn, string_of_runes_app, string_of_runes_NUL|].
    split; [now rewrite Hp|].
    intros t extra.
    destruct (EmitExtra_eq t extra ln) as (b & Ee & _).
    eexists. split; [exact Ee|]. simpl. unfold emitted_token.
    rewrite Hvn, string_of_runes_app, string_of_runes_NUL, Ht. reflexivity.
  - intros lb Eb.
    destruct (snoc_cases (prevPos l1)) as [Ep|(st & p & Ep)].
    + rewrite Backup_empty_prevPos in Eb; [discriminate| |exact Ep].
      simpl. now destruct (value l).
    + rewrite (Backup_undo l1 (value l) 0 st p eq_refl Ep) in Eb.
      injection Eb as <-. reflexivity.
  - destruct (Ignore_eq l1) as (b & Ei & _).
    eexists. split; [exact Ei|]. reflexivity.
Qed.

End errors.

(** ** Fuel

    Fuel only bounds the loops of the model: once a run has an outcome
    other than [OutOfFuel], more fuel gives the same outcome. *)

Section fuel.
Context `{Env}.
Import lexer.

Lemma bind_unfold {A B : Type} (m : M A) (k : A -> M B) (l : lexer.t) :
  bind m k l = match m l with
               | Ok (a, l') => k a l'
               | Panic p => Panic p
               | OutOfFuel => OutOfFuel
               end.
Proof. reflexivity. Qed.

Lemma bind_settles {A B : Type} (f : nat -> M A) (k : A -> M B) :
  settles f -> settles (fun n => bind (f n) k).
Proof.
  intros Hf n m l Hnm Hne. unfold bind in *.
  destruct (f n l) as [[a l']| |] eqn:E; try contradiction.
  - rewrite (Hf n m l Hnm) by (rewrite E; discriminate). now rewrite E.
  - rewrite (Hf n m l Hnm) by (rewrite E; discriminate). now rewrite E.
Qed.

Lemma lexSkipSpaces_loop_settles : settles lexSkipSpaces_loop.
Proof.
  intros n. induction n as [|n IH]; intros m l Hnm Hne; [now contradiction Hne|].
  destruct m as [|m]; [lia|]. simpl in *. unfold bind in *.
  destruct (Next l) as [[c l']| |]; try reflexivity.
  destruct (isSpace c); [|reflexivity].
  apply IH; [lia|exact Hne].
Qed.

Lemma lexWord_body_settles : settles lexWord_body.
Proof.
  intros n. induction n as [|n IH]; intros m l Hnm Hne; [now contradiction Hne|].
  destruct m as [|m]; [lia|].
  cbn [lexWord_body] in *. rewrite !bind_unfold in *.
  destruct (Peek l) as [[c l']| |]; try reflexivity.
  destruct (isSpace c); [reflexivity|].
  destruct (c =? EOF); [reflexivity|].
  rewrite !bind_unfold in *.
  destruct (Next l') as [[c' l'']| |]; try reflexivity.
  apply IH; [lia|exact Hne].
Qed.

Lemma call_settles (f : StateFn) : settles (call f).
Proof.
  destruct f; simpl.
  - apply lexWord_body_settles.
  - unfold lexSkipSpaces_body. apply bind_settles, lexSkipSpaces_loop_settles.
Qed.

Lemma drive_settles (S : Type) (call : S -> nat -> M (option S)) :
  (forall st, settles (call st)) ->
  forall state, settles (fun fuel => drive call fuel state).
Proof.
  intros Hc state n. revert state.
  induction n as [|n IH]; intros state m l Hnm Hne.
  - destruct state as [st|]; [|now rewrite !drive_nil].
    destruct (eof l) eqn:E; [now rewrite !drive_eof|].
    simpl in Hne. rewrite E in Hne. now contradiction Hne.
  - destruct m as [|m]; [lia|].
    destruct state as [st|]; [|reflexivity].
    simpl in *. destruct (eof l); [reflexivity|].
    destruct (call st n l) as [[next l']| |] eqn:Ec; try contradiction.
    + rewrite (Hc st n m l) by (rewrite ?Ec; (lia || discriminate)).
      rewrite Ec. apply IH; [lia|exact Hne].
    + rewrite (Hc st n m l) by (rewrite ?Ec; (lia || discriminate)).
      now rewrite Ec.
Qed.

Lemma Run_settles (S : Type) (call : S -> nat -> M (option S))
    (start : option S) (l : lexer.t) (n m : nat) (toks : list Token.t) :
  (forall st, settles (call st)) -> (n <= m)%nat ->
  Run call n start l = Ok toks -> Run call m start l = Ok toks.
Proof.
  intros Hc Hnm. unfold Run. intros E.
  rewrite (drive_settles S call Hc start n m l Hnm); [exact E|].
  intros E'. rewrite E' in E. discriminate.
Qed.

End fuel.

(** ** Inversion of the methods *)

Section inversion.
Context `{Env}.
Import lexer.

Lemma Next_inv (l l' : lexer.t) (c : rune) :
  Next l = Ok (c, l') ->
  (exists br, bufreader.ReadRune (r l) = Ok (c, None, br)
              /\ l' = after_read l c br)
  \/ (exists c0 e br, bufreader.ReadRune (r l) = Ok (c0, Some e, br)
                      /\ c = EOF /\ l' = after_failure l e br).
Proof.
  intros E.
  destruct (bufreader.ReadRune (r l)) as [[[c0 [e|]] br]|p|] eqn:ER.
  - rewrite (Next_failed l c0 e br ER) in E. injection E as <- <-.
    right. exists c0, e, br. auto.
  - rewrite (Next_read l c0 br ER) in E. injection E as <- <-.
    left. exists br. auto.
  - rewrite (Next_panic l p ER) in E. discriminate.
  - unfold Next, bind, get, lift in E. rewrite ER in E. discriminate.
Qed.

Lemma Backup_inv (l l' : lexer.t) :
  Backup l = Ok (tt, l') ->
  exists v x st p,
    value l = v ++ [x] /\ prevPos l = st ++ [p]
    /\ l' = lexer.mk (snd (bufreader.UnreadRune (r l))) (tokens l) (eof l) v p
              (tokenPos l) st.
Proof.
  intros E.
  destruct (snoc_cases (value l)) as [Ev|(v & x & Ev)].
  { rewrite (Backup_empty_value l Ev) in E. discriminate. }
  destruct (snoc_cases (prevPos l)) as [Ep|(st & p & Ep)].
  { rewrite (Backup_empty_prevPos l) in E; [discriminate| |exact Ep].
    rewrite Ev. now destruct v. }
  rewrite (Backup_undo l v x st p Ev Ep) in E. injection E as <-.
  now exists v, x, st, p.
Qed.

Lemma Peek_inv (l l' : lexer.t) (c : rune) :
  Peek l = Ok (c, l') ->
  exists l1, Next l = Ok (c, l1) /\ Backup l1 = Ok (tt, l').
Proof.
  unfold Peek. rewrite bind_unfold.
  destruct (Next l) as [[c1 l1]| |]; try discriminate.
  rewrite bind_unfold.
  destruct (Backup l1) as [[[] l2]| |] eqn:EB; try discriminate.
  unfold ret. intros E. injection E as <- <-. now exists l1.
Qed.

(** No method clears the end-of-source flag. *)
Lemma exec_keeps_eof (o : op) (l l' : lexer.t) (e : event) :
  exec o l = Ok (e, l') -> eof l = true -> eof l' = true.
Proof.
  destruct o as [| | | |ty|ty extra|ty s args]; cbn [exec].
  - destruct (Next l) as [[c l1]| |] eqn:E; try discriminate.
    intros E' Heof. injection E' as _ <-.
    destruct (Next_inv _ _ _ E) as [(br & _ & ->)|(c0 & e0 & br & _ & _ & ->)];
      [exact Heof|reflexivity].
  - destruct (Peek l) as [[c l1]| |] eqn:E; try discriminate.
    intros E' Heof. injection E' as _ <-.
    destruct (Peek_inv _ _ _ E) as (l2 & EN & EB).
    destruct (Backup_inv _ _ EB) as (v & x & st & p & _ & _ & ->). simpl.
    destruct (Next_inv _ _ _ EN) as [(br & _ & ->)|(c0 & e0 & br & _ & _ & ->)];
      [exact Heof|reflexivity].
  - destruct (Backup l) as [[[] l1]| |] eqn:E; try discriminate.
    intros E' Heof. injection E' as _ <-.
    destruct (Backup_inv _ _ E) as (v & x & st & p & _ & _ & ->). exact Heof.
  - rewrite bind_unfold. unfold Value. rewrite bind_unfold.
    destruct (Ignore_eq l) as (b & -> & _). unfold ret.
    intros E' Heof. injection E' as _ <-. exact Heof.
  - unfold Emit. destruct (EmitExtra_eq ty None l) as (b & -> & _).
    intros E' Heof. injection E' as _ <-. exact Heof.
  - destruct (EmitExtra_eq ty extra l) as (b & -> & _).
    intros E' Heof. injection E' as _ <-. exact Heof.
  - rewrite Errorf_eq. intros E' Heof. injection E' as _ <-. exact Heof.
Qed.

Lemma trace_cons (o : op) (ops : list op) (l : lexer.t) :
  trace (o :: ops) l
  = match exec o l with
    | Ok (e, l1) =>
      match trace ops l1 with
      | Ok (es, l2) => Ok (e :: es, l2)
      | Panic p => Panic p
      | OutOfFuel => OutOfFuel
      end
    | Panic p => Panic p
    | OutOfFuel => OutOfFuel
    end.
Proof.
  cbn [trace]. rewrite bind_unfold.
  destruct (exec o l) as [[e l1]| |]; reflexivity.
Qed.

Lemma trace_cons_inv (o : op) (ops : list op) (l l' : lexer.t)
    (evs : list event) :
  trace (o :: ops) l = Ok (evs, l') ->
  exists e es l1, exec o l = Ok (e, l1) /\ trace ops l1 = Ok (es, l')
                  /\ evs = e :: es.
Proof.
  rewrite trace_cons.
  destruct (exec o l) as [[e l1]| |]; try discriminate.
  destruct (trace ops l1) as [[es l2]| |] eqn:E2; try discriminate.
  intros E. injection E as <- <-. now exists e, es, l1.
Qed.

Lemma trace_keeps_eof (ops : list op) :
  forall (l l' : lexer.t) (evs : list event),
    trace ops l = Ok (evs, l') -> eof l = true -> eof l' = true.
Proof.
  induction ops as [|o ops IH]; intros l l' evs E Heof.
  - injection E as _ <-. exact Heof.
  - destruct (trace_cons_inv _ _ _ _ _ E) as (e & es & l1 & E1 & E2 & _).
    eapply IH; [exact E2|]. eapply exec_keeps_eof; eauto.
Qed.

End inversion.

(** ** The end-to-end scenarios of the test-suite *)

Section scenarios.
Context `{Env}.
Import lexer.

Lemma scenario_words_run :
  Run call 100 (Some lexSkipSpaces) (NewLexerString words_input)
  = Ok [word "foo" 0 2 2; word "bar" 0 6 6; word "baz" 1 4 14].
Proof. vm_compute. reflexivity. Qed.

(** C6.  On the input of [TestWordReader] the word/space machine,
    started in [lexSkipSpaces], delivers the three words with the
    positions of their first characters, and the channel is then closed:
    nothing else is delivered.  Any amount of fuel from 100 on gives this
    run. *)
Theorem scenario_words (k : nat) :
  Run call (100 + k) (Some lexSkipSpaces) (NewLexerString words_input)
  = Ok [word "foo" 0 2 2; word "bar" 0 6 6; word "baz" 1 4 14].
Proof.
  apply (Run_settles StateFn call (Some lexSkipSpaces)
           (NewLexerString words_input) 100%nat (100 + k)%nat _ call_settles);
    [lia|exact scenario_words_run].
Qed.

Lemma scenario_broken_run_100 :
  Run call 100 (Some lexSkipSpaces) (NewLexer (brokenReader (runes "foo bar")))
  = Ok [word "foo" 0 0 0; broken_error_token; word "bar" 0 4 4].
Proof. vm_compute. reflexivity. Qed.

Lemma scenario_broken_run (k : nat) :
  Run call (100 + k) (Some lexSkipSpaces) (NewLexer (brokenReader (runes "foo bar")))
  = Ok [word "foo" 0 0 0; broken_error_token; word "bar" 0 4 4].
Proof.
  apply (Run_settles StateFn call (Some lexSkipSpaces)
           (NewLexer (brokenReader (runes "foo bar"))) 100%nat (100 + k)%nat _
           call_settles);
    [lia|exact scenario_broken_run_100].
Qed.

(** C1, as the code has it.  When [Next] meets a read failure other
    than the end of the stream it sends the error token itself and sets
    the end-of-source flag; whatever calls the running state function
    still makes, the flag stays set, so the driver starts no further
    state function once that one returns.  The running state function is
    not interrupted, though, and what it emits afterwards is delivered:
    with the word/space machine on a source that yields [foo bar] and
    then breaks, the stream is the word [foo] at (0,0,0), the error token
    at (0,7,7), then the word [bar] at (0,4,4), and then it is closed.
    When a state function calls [Errorf] and hands its result back, the
    error token is the last one delivered. *)
Theorem error_token_and_what_follows (l : lexer.t) (c : rune) (e : error)
    (br : bufreader.t) :
  bufreader.ReadRune (r l) = Ok (c, Some e, br) ->
  is_io_EOF e = false ->
  (exists l1,
      Next l = Ok (EOF, l1)
      /\ tokens l1 = tokens l ++ [error_token l TokError (Sprintf (Error e) [])]
      /\ eof l1 = true
      /\ forall ops evs l2,
           trace ops l1 = Ok (evs, l2) ->
           forall (S : Type) (call : S -> nat -> M (option S)) fuel state,
             drive call fuel state l2 = Ok (tt, l2))
  /\ (forall (S : Type) (call : S -> nat -> M (option S)) st fuel t s args l0,
         eof l0 = false ->
         call st fuel l0 = Errorf t s args l0 ->
         Run call (Datatypes.S fuel) (Some st) l0
         = Ok (tokens l0 ++ [error_token l0 t (Sprintf s args)]))
  /\ (forall k,
         Run call (100 + k) (Some lexSkipSpaces)
           (NewLexer (brokenReader (runes "foo bar")))
         = Ok [word "foo" 0 0 0; broken_error_token; word "bar" 0 4 4]).
Proof.
  intros ER He. split; [|split].
  - exists (after_failure l e br). split; [|split; [|split]].
    + exact (Next_failed l c e br ER).
    + simpl. now rewrite He.
    + reflexivity.
    + intros ops evs l2 Et S0 call0 fuel state.
      apply drive_eof. eapply trace_keeps_eof; [exact Et|reflexivity].
  - intros S0 call0 st fuel t s args l0 Heof Hcall.
    unfold Run. rewrite (drive_step _ _ _ _ None l0
      (set_tokens l0 (tokens l0 ++ [error_token l0 t (Sprintf s args)])) Heof).
    + now rewrite drive_nil.
    + rewrite Hcall. apply Errorf_eq.
  - exact scenario_broken_run.
Qed.

End scenarios.

(** C1 fails as stated: whatever the environment, the stream of the
    broken-reader scenario is not closed after the error token; the
    buffered word [bar] is still delivered. *)
Lemma broken_scenario_delivers_more :
  ~ (exists E : Env, @broken_scenario_as_stated E).
Proof.
  intros (E & fuel & e & HR & _).
  pose proof (@scenario_broken_run E fuel) as H100.
  pose proof (Run_settles StateFn call (Some lexSkipSpaces)
                (NewLexer (brokenReader (runes "foo bar"))) fuel (100 + fuel)%nat _
                call_settles (Nat.le_add_l fuel 100) HR) as HR'.
  rewrite H100 in HR'. discriminate HR'.
Qed.

(** ** Backup *)

Section backup.
Context `{Env}.
Import lexer.

(** [Backup] right after a [Next] that read a character puts position,
    scan buffer and saved positions back. *)
Lemma Next_Backup_read (l : lexer.t) (c : rune) (br : bufreader.t) :
  bufreader.ReadRune (r l) = Ok (c, None, br) ->
  exists l1 l2,
    Next l = Ok (c, l1) /\ Backup l1 = Ok (tt, l2)
    /\ pos l2 = pos l /\ value l2 = value l /\ prevPos l2 = prevPos l
    /\ tokenPos l2 = tokenPos l /\ tokens l2 = tokens l /\ eof l2 = eof l.
Proof.
  intros ER. exists (after_read l c br). eexists.
  split; [exact (Next_read l c br ER)|].
  split; [apply (Backup_undo (after_read l c br) (value l) c (prevPos l) (pos l));
          reflexivity|].
  repeat split.
Qed.

(** X6.  [Backup] right after a [Next] whose read failed: the NUL
    leaves the scan buffer, but the position becomes the one saved by
    the last [Next] that did read a character, and that saved position
    is gone; with no saved position the call panics. *)
Lemma Next_Backup_failed (l : lexer.t) (c : rune) (e : error) (br : bufreader.t) :
  bufreader.ReadRune (r l) = Ok (c, Some e, br) ->
  exists l1,
    Next l = Ok (EOF, l1)
    /\ (prevPos l = [] -> Backup l1 = Panic index_out_of_range)
    /\ (forall st p, prevPos l = st ++ [p] ->
          exists l2, Backup l1 = Ok (tt, l2)
                     /\ value l2 = value l /\ pos l2 = p /\ prevPos l2 = st).
Proof.
  intros ER. exists (after_failure l e br).
  split; [exact (Next_failed l c e br ER)|]. split.
  - intros Ep. apply Backup_empty_prevPos; [|exact Ep].
    simpl. now destruct (value l).
  - intros st p Ep. eexists.
    split; [apply (Backup_undo (after_failure l e br) (value l) 0 st p);
            [reflexivity|exact Ep]|].
    repeat split.
Qed.

(** C4, at the input where the code departs from it.  On the source
    [a], after one [Next] the position is (0,1,1) and the buffer is [a].
    The next [Next] returns [EOF]; the [Backup] that follows restores the
    buffer but leaves the position at (0,0,0).  On the empty source the
    same [Next], [Backup] pair panics. *)
Theorem Backup_after_EOF_moves_position :
  exists l0 l1 l2,
    Next (NewLexerString (runes "a")) = Ok (97, l0)
    /\ pos l0 = pos.mk 0 1 1 /\ value l0 = runes "a"
    /\ Next l0 = Ok (EOF, l1)
    /\ Backup l1 = Ok (tt, l2)
    /\ value l2 = runes "a"
    /\ pos l2 = pos.mk 0 0 0
    /\ pos l2 <> pos l0
    /\ (Next ;; Backup) (NewLexerString []) = Panic index_out_of_range.
Proof.
  do 3 eexists.
  split; [vm_compute; reflexivity|].
  split; [reflexivity|]. split; [reflexivity|].
  split; [vm_compute; reflexivity|].
  split; [vm_compute; reflexivity|].
  split; [reflexivity|]. split; [reflexivity|].
  split; [discriminate|]. vm_compute. reflexivity.
Qed.

(** What [Backup] does in every state. *)
Lemma Backup_eq (l : lexer.t) :
  Backup l
  = match value l, prevPos l with
    | [], _ => Panic slice_bounds_out_of_range
    | _ :: _, [] => Panic index_out_of_range
    | _ :: _, _ :: _ =>
      Ok (tt, lexer.mk (snd (bufreader.UnreadRune (r l))) (tokens l) (eof l)
                (removelast (value l)) (last (prevPos l) pos.zero)
                (tokenPos l) (removelast (prevPos l)))
    end.
Proof.
  destruct (snoc_cases (value l)) as [Ev|(v & x & Ev)].
  { rewrite (Backup_empty_value l Ev), Ev. reflexivity. }
  destruct (snoc_cases (prevPos l)) as [Ep|(st & p & Ep)].
  { rewrite (Backup_empty_prevPos l); [|rewrite Ev; now destruct v|exact Ep].
    rewrite Ev, Ep. now destruct v. }
  rewrite (Backup_undo l v x st p Ev Ep), Ev, Ep.
  rewrite !removelast_last, last_last.
  destruct v, st; reflexivity.
Qed.

(** C8, as the code has it.  [Backup] fails, with a run-time panic,
    exactly when the scan buffer is empty (slice bounds out of range) or,
    the buffer not being empty, no saved position is left (index out of
    range): so at the start of scanning and directly after [Ignore],
    [Emit] and [EmitExtra].  In every other state it returns normally and
    takes one more character out of the scan buffer, together with its
    saved position. *)
Theorem Backup_fails_when_nothing_buffered (l : lexer.t) :
  Backup l
  = match value l, prevPos l with
    | [], _ => Panic slice_bounds_out_of_range
    | _ :: _, [] => Panic index_out_of_range
    | _ :: _, _ :: _ =>
      Ok (tt, lexer.mk (snd (bufreader.UnreadRune (r l))) (tokens l) (eof l)
                (removelast (value l)) (last (prevPos l) pos.zero)
                (tokenPos l) (removelast (prevPos l)))
    end
  /\ (forall src, Backup (NewLexer src) = Panic slice_bounds_out_of_range)
  /\ (exists l', Ignore l = Ok (tt, l')
                 /\ Backup l' = Panic slice_bounds_out_of_range)
  /\ (forall t extra, exists l',
        EmitExtra t extra l = Ok (tt, l')
        /\ Backup l' = Panic slice_bounds_out_of_range)
  /\ (forall t, exists l',
        Emit t l = Ok (tt, l')
        /\ Backup l' = Panic slice_bounds_out_of_range).
Proof.
  split; [apply Backup_eq|]. split; [reflexivity|]. split; [|split].
  - destruct (Ignore_eq l) as (b & E & _). eexists. split; [exact E|reflexivity].
  - intros t extra. destruct (EmitExtra_eq t extra l) as (b & E & _).
    eexists. split; [exact E|reflexivity].
  - intros t. destruct (EmitExtra_eq t None l) as (b & E & _).
    eexists. split; [exact E|reflexivity].
Qed.

End backup.

Lemma ab_read_read_undone_eq `{Env} :
  trace [ONext; ONext; OBackup] (NewLexer (source.of_string (runes "ab")))
  = ab_read_read_undone.
Proof. vm_compute. reflexivity. Qed.

(** C8 fails as stated: after [Next], [Next], [Backup] on the source
    [ab] no character read since the last [Backup] is pending, and yet a
    second [Backup] returns normally (it undoes the first [Next]). *)
Lemma second_Backup_returns :
  ~ (exists E : Env, @Backup_fails_as_stated E).
Proof.
  intros (E & HC).
  pose proof (@ab_read_read_undone_eq E) as Ht. unfold ab_read_read_undone in Ht.
  destruct (HC _ _ _ _ Ht eq_refl) as (p & Hp).
  rewrite Backup_eq in Hp. discriminate Hp.
Qed.

(** ** Offsets before the end of the source *)

Section offsets.
Context `{Env}.
Import lexer.

Lemma Advance_pos (p : pos.t) (c : rune) :
  pos.pos (pos.Advance p c) = incr (pos.pos p).
Proof. unfold pos.Advance. now destruct (c =? 10). Qed.

Lemma incr_small (x : int) : 0 <= x < 2 ^ 63 - 1 -> incr x = x + 1.
Proof. intros Hx. unfold incr. apply wrap64_small. lia. Qed.

Lemma offsets_ok_init (src : source.t) : offsets_ok (NewLexer src).
Proof.
  repeat split; simpl; try lia.
  intros st p rest E. destruct st; discriminate.
Qed.

Lemma offsets_ok_read (l : lexer.t) (c : rune) (br : bufreader.t) :
  offsets_ok l -> pos.pos (pos l) < 2 ^ 63 - 1 ->
  offsets_ok (after_read l c br)
  /\ pos.pos (pos (after_read l c br)) = pos.pos (pos l) + 1.
Proof.
  intros ((Hp & Hst) & Ht & Hv) Hb.
  pose proof (len_nonneg (prevPos l)) as Hn.
  assert (Ei : pos.pos (pos (after_read l c br)) = pos.pos (pos l) + 1).
  { simpl. rewrite Advance_pos. apply incr_small. lia. }
  split; [|exact Ei]. split; [split|split].
  - rewrite Ei. simpl. rewrite len_app. change (len [pos l]) with 1. lia.
  - simpl. intros st p rest E.
    destruct (snoc_cases rest) as [->|(rest' & q & ->)].
    + apply app_inj_tail in E. destruct E as [<- <-]. exact Hp.
    + rewrite app_comm_cons, app_assoc in E. apply app_inj_tail in E.
      destruct E as [E _]. now apply (Hst st p rest').
  - exact Ht.
  - rewrite Ei. simpl. rewrite len_app. change (len [c]) with 1. lia.
Qed.

Lemma offsets_ok_undo (l l' : lexer.t) :
  offsets_ok l -> Backup l = Ok (tt, l') ->
  offsets_ok l' /\ pos.pos (pos l') = pos.pos (pos l) - 1.
Proof.
  intros ((Hp & Hst) & Ht & Hv) EB.
  destruct (Backup_inv _ _ EB) as (v & x & st & p & Ev & Ep & ->). simpl.
  assert (Epp : pos.pos p = len st).
  { apply (Hst st p []). exact Ep. }
  rewrite Ep, len_app in Hp. change (len [p]) with 1 in Hp.
  rewrite Ev, len_app in Hv. change (len [x]) with 1 in Hv.
  split; [|lia]. split; [split|split]; simpl.
  - exact Epp.
  - intros st' q rest E. apply (Hst st' q (rest ++ [p])).
    rewrite Ep, E, <- app_assoc. reflexivity.
  - exact Ht.
  - lia.
Qed.

Lemma offsets_ok_flush (l : lexer.t) (b : list rune) (toks : list Token.t) :
  offsets_ok l ->
  offsets_ok (lexer.mk (bufreader.mk (bufreader.r (r l)) b 0 (bufreader.err (r l)))
                toks (eof l) [] (pos l) (pos l) (prevPos l)).
Proof.
  intros ((Hp & Hst) & Ht & Hv).
  pose proof (len_nonneg (value l)) as Hn.
  split; [split|split]; simpl; try assumption; try lia.
  change (len (@nil rune)) with 0. lia.
Qed.

Lemma exec_offsets_ok (o : op) (l l' : lexer.t) (e : event) :
  offsets_ok l -> pos.pos (pos l) < 2 ^ 63 - 1 ->
  exec o l = Ok (e, l') -> returned_EOF e = false ->
  offsets_ok l' /\ pos.pos (pos l') <= pos.pos (pos l) + 1.
Proof.
  intros Hok Hb.
  destruct o as [| | | |ty|ty extra|ty s args]; cbn [exec].
  - destruct (Next l) as [[c l1]| |] eqn:E; try discriminate.
    intros E' Hr. injection E' as <- <-. simpl in Hr.
    destruct (Next_inv _ _ _ E) as [(br & _ & ->)|(c0 & e0 & br & _ & -> & _)];
      [|discriminate].
    destruct (offsets_ok_read l c br Hok Hb) as [H1 H2]. split; [exact H1|lia].
  - destruct (Peek l) as [[c l1]| |] eqn:E; try discriminate.
    intros E' Hr. injection E' as <- <-. simpl in Hr.
    destruct (Peek_inv _ _ _ E) as (l2 & EN & EB).
    destruct (Next_inv _ _ _ EN) as [(br & _ & ->)|(c0 & e0 & br & _ & -> & _)];
      [|discriminate].
    destruct (offsets_ok_read l c br Hok Hb) as [H1 H2].
    destruct (offsets_ok_undo _ _ H1 EB) as [H3 H4]. split; [exact H3|lia].
  - destruct (Backup l) as [[[] l1]| |] eqn:E; try discriminate.
    intros E' _. injection E' as _ <-.
    destruct (offsets_ok_undo _ _ Hok E) as [H3 H4]. split; [exact H3|lia].
  - rewrite bind_unfold. unfold Value. rewrite bind_unfold.
    destruct (Ignore_eq l) as (b & -> & _). unfold ret.
    intros E' _. injection E' as _ <-.
    split; [now apply offsets_ok_flush|simpl; lia].
  - unfold Emit. destruct (EmitExtra_eq ty None l) as (b & -> & _).
    intros E' _. injection E' as _ <-.
    split; [now apply offsets_ok_flush|simpl; lia].
  - destruct (EmitExtra_eq ty extra l) as (b & -> & _).
    intros E' _. injection E' as _ <-.
    split; [now apply offsets_ok_flush|simpl; lia].
  - rewrite Errorf_eq. intros E' _. injection E' as _ <-.
    split; [exact Hok|simpl; lia].
Qed.

Lemma trace_offsets_ok (ops : list op) :
  forall (l l' : lexer.t) (evs : list event),
    offsets_ok l -> 0 <= pos.pos (pos l) ->
    pos.pos (pos l) + len ops < 2 ^ 63 ->
    trace ops l = Ok (evs, l') ->
    Forall (fun e => returned_EOF e = false) evs ->
    offsets_ok l'.
Proof.
  induction ops as [|o ops IH]; intros l l' evs Hok H0 Hb E Hev.
  - injection E as _ <-. exact Hok.
  - destruct (trace_cons_inv _ _ _ _ _ E) as (e & es & l1 & E1 & E2 & ->).
    inversion Hev as [|? ? He Hes]; subst.
    change (o :: ops) with ([o] ++ ops) in Hb. rewrite len_app in Hb.
    change (len [o]) with 1 in Hb. pose proof (len_nonneg ops) as Hn.
    destruct (exec_offsets_ok o l l1 e Hok ltac:(lia) E1 He) as [Hok1 Hle].
    apply (IH l1 l' es Hok1); try assumption.
    + destruct Hok1 as ((Hp & _) & _). rewrite Hp. apply len_nonneg.
    + lia.
Qed.

(** C10.  In a run of fewer than 2^63 calls from a fresh engine in
    which no [Next] or [Peek] has returned [EOF] yet, after every call
    the current offset minus the offset of the token start is the length
    of the scan buffer. *)
Theorem offset_equation (src : source.t) (ops : list op) (evs : list event)
    (l : lexer.t) :
  len ops < 2 ^ 63 ->
  trace ops (NewLexer src) = Ok (evs, l) ->
  Forall (fun e => returned_EOF e = false) evs ->
  pos.pos (pos l) - pos.pos (tokenPos l) = len (value l).
Proof.
  intros Hb E Hev.
  apply (trace_offsets_ok ops (NewLexer src) l evs) in E; try assumption.
  - now destruct E as (_ & _ & Hv).
  - apply offsets_ok_init.
  - simpl. lia.
Qed.

End offsets.

(** ** What [Emit] packages *)

Section spans.
Context `{Env}.
Import lexer.

Lemma trace_app (ops1 : list op) :
  forall (ops2 : list op) (l : lexer.t),
    trace (ops1 ++ ops2) l
    = match trace ops1 l with
      | Ok (es1, l1) =>
        match trace ops2 l1 with
        | Ok (es2, l2) => Ok (es1 ++ es2, l2)
        | Panic p => Panic p
        | OutOfFuel => OutOfFuel
        end
      | Panic p => Panic p
      | OutOfFuel => OutOfFuel
      end.
Proof.
  induction ops1 as [|o ops1 IH]; intros ops2 l.
  - simpl. unfold ret. destruct (trace ops2 l) as [[es2 l2]| |]; reflexivity.
  - rewrite <- app_comm_cons, !trace_cons.
    destruct (exec o l) as [[e l1]| |]; try reflexivity.
    rewrite IH. destruct (trace ops1 l1) as [[es1 l1']| |]; try reflexivity.
    destruct (trace ops2 l1') as [[es2 l2]| |]; reflexivity.
Qed.

Lemma exec_flush (o : op) (l l' : lexer.t) (e : event) :
  is_flush o = true -> exec o l = Ok (e, l') ->
  value l' = [] /\ tokenPos l' = pos l'.
Proof.
  destruct o as [| | | |ty|ty extra|ty s args]; try discriminate; intros _;
    cbn [exec].
  - rewrite bind_unfold. unfold Value. rewrite bind_unfold.
    destruct (Ignore_eq l) as (b & -> & _). unfold ret.
    intros E. injection E as _ <-. auto.
  - unfold Emit. destruct (EmitExtra_eq ty None l) as (b & -> & _).
    intros E. injection E as _ <-. auto.
  - destruct (EmitExtra_eq ty extra l) as (b & -> & _).
    intros E. injection E as _ <-. auto.
Qed.

Lemma span_start_state (src : source.t) (pre : list op) (evs : list event)
    (l : lexer.t) :
  span_start pre -> trace pre (NewLexer src) = Ok (evs, l) ->
  value l = [] /\ tokenPos l = pos l.
Proof.
  intros [->|(pre' & o & -> & Hf)] E.
  - injection E as _ <-. auto.
  - rewrite trace_app in E.
    destruct (trace pre' (NewLexer src)) as [[es1 l1]| |]; try discriminate.
    rewrite trace_cons in E.
    destruct (exec o l1) as [[e l2]| |] eqn:Ee; try discriminate.
    simpl in E. unfold ret in E. injection E as _ <-.
    exact (exec_flush o l1 l2 e Hf Ee).
Qed.

Lemma removelast_snoc {A : Type} (l : list A) (x : A) : removelast (l ++ [x]) = l.
Proof. apply removelast_last. Qed.

Lemma exec_in_span (o : op) (l l' : lexer.t) (e : event) :
  is_flush o = false -> exec o l = Ok (e, l') ->
  value l' = buffer_step (value l) e /\ tokenPos l' = tokenPos l.
Proof.
  destruct o as [| | | |ty|ty extra|ty s args]; try discriminate; intros _;
    cbn [exec].
  - destruct (Next l) as [[c l1]| |] eqn:E; try discriminate.
    intros E'. injection E' as <- <-.
    destruct (Next_inv _ _ _ E) as [(br & ER & ->)|(c0 & e0 & br & ER & -> & ->)].
    + assert (Hf : failed (after_read l c br) = false).
      { unfold failed. simpl.
        destruct (ReadRune_read_inv _ _ _ ER)
          as (_ & [(_ & _ & ->)|(_ & rest & _ & ->)]); reflexivity. }
      rewrite Hf. auto.
    + destruct (ReadRune_failure_zero _ _ _ _ ER) as [_ Herr].
      unfold failed. simpl. rewrite Herr. auto.
  - destruct (Peek l) as [[c l1]| |] eqn:E; try discriminate.
    intros E'. injection E' as <- <-. simpl.
    destruct (Peek_inv _ _ _ E) as (l2 & EN & EB).
    destruct (Backup_inv _ _ EB) as (v & x & st & p & Ev & _ & ->). simpl.
    destruct (Next_inv _ _ _ EN) as [(br & _ & ->)|(c0 & e0 & br & _ & _ & ->)];
      simpl in Ev; apply app_inj_tail in Ev; destruct Ev as [<- _]; auto.
  - destruct (Backup l) as [[[] l1]| |] eqn:E; try discriminate.
    intros E'. injection E' as <- <-.
    destruct (Backup_inv _ _ E) as (v & x & st & p & Ev & _ & ->). simpl.
    rewrite Ev, removelast_snoc. auto.
  - rewrite Errorf_eq. intros E'. injection E' as <- <-. auto.
Qed.

Lemma trace_in_span (span : list op) :
  forall (l l' : lexer.t) (evs : list event),
    in_span span -> trace span l = Ok (evs, l') ->
    value l' = fold_left buffer_step evs (value l) /\ tokenPos l' = tokenPos l.
Proof.
  induction span as [|o span IH]; intros l l' evs Hs E.
  - injection E as <- <-. auto.
  - destruct (trace_cons_inv _ _ _ _ _ E) as (e & es & l1 & E1 & E2 & ->).
    inversion Hs as [|? ? Ho Hsp]; subst.
    destruct (exec_in_span o l l1 e Ho E1) as [Hv Ht].
    destruct (IH l1 l' es Hsp E2) as [Hv' Ht'].
    simpl. rewrite Hv', Hv, Ht', Ht. auto.
Qed.

(** C3, as the code has it.  [EmitExtra t extra] (and [Emit t], which
    is [EmitExtra t nil]) always returns; it sends one token whose text
    is the scan buffer, that is, in the order of the calls made since the
    span started, the character each [Next] read, a U+0000 for each
    [Next] whose read failed, less what [Backup] removed; the token's
    position is the position the engine had when the span started (the
    start of scanning, or the return of the previous [Ignore] or [Emit]).
    Afterwards the scan buffer is empty and the token start is the
    current position. *)
Theorem Emit_packages_span (src : source.t) (pre span : list op)
    (evs1 evs2 : list event) (l1 l2 : lexer.t) (t : TokenType)
    (extra : option any) :
  span_start pre -> in_span span ->
  trace pre (NewLexer src) = Ok (evs1, l1) ->
  trace span l1 = Ok (evs2, l2) ->
  exists l3,
    EmitExtra t extra l2 = Ok (tt, l3)
    /\ tokens l3
       = tokens l2
         ++ [Token.mk t (string_of_runes (buffered evs2))
               (pos.line (pos l1)) (pos.col (pos l1)) (pos.pos (pos l1)) extra]
    /\ Value l2 = Ok (string_of_runes (buffered evs2), l2)
    /\ value l3 = [] /\ tokenPos l3 = pos l3 /\ pos l3 = pos l2
    /\ Emit t l2 = EmitExtra t None l2.
Proof.
  intros Hpre Hspan E1 E2.
  destruct (span_start_state src pre evs1 l1 Hpre E1) as [Hv1 Ht1].
  destruct (trace_in_span span l1 l2 evs2 Hspan E2) as [Hv2 Ht2].
  rewrite Hv1 in Hv2. fold (buffered evs2) in Hv2.
  destruct (EmitExtra_eq t extra l2) as (b & E & _).
  eexists. split; [exact E|]. simpl. unfold emitted_token, Value.
  rewrite Hv2, Ht2, Ht1. repeat split.
Qed.

End spans.

Lemma a_read_to_the_end_eq `{Env} :
  trace [ONext; ONext] (NewLexer (source.of_string (runes "a")))
  = a_read_to_the_end.
Proof. vm_compute. reflexivity. Qed.

(** C3 fails as stated: on the source [a], after two calls of [Next]
    (the second one returns [EOF]) the token sent by [Emit] has the text
    [a] followed by U+0000, not the one character that was consumed. *)
Lemma Emit_sends_NUL :
  ~ (exists E : Env, @Emit_packages_consumed_as_stated E).
Proof.
  intros (E & HC).
  pose proof (@a_read_to_the_end_eq E) as Ht. unfold a_read_to_the_end in Ht.
  assert (Hs : in_span [ONext; ONext]) by (repeat constructor).
  assert (Hp : span_start []) by (now left).
  destruct (HC _ [] _ [] _ _ _ 0 None Hp Hs eq_refl Ht) as (l3 & E3 & Htok & _).
  match type of E3 with
  | EmitExtra _ _ ?l = _ => destruct (EmitExtra_eq 0 None l) as (b & E3' & _)
  end.
  rewrite E3 in E3'. injection E3' as ->.
  simpl in Htok. discriminate Htok.
Qed.

(** ** Line, column and offset *)

Section positions.
Context `{Env}.
Import lexer.

Lemma newlines_snoc (p : list rune) (c : rune) :
  newlines (p ++ [c]) = newlines p + (if is_newline c then 1 else 0).
Proof.
  unfold newlines. rewrite filter_app, len_app. simpl.
  destruct (is_newline c); reflexivity.
Qed.

Lemma last_line_snoc (p : list rune) (c : rune) :
  last_line (p ++ [c]) = if is_newline c then [] else last_line p ++ [c].
Proof.
  induction p as [|a p IH]; simpl.
  - destruct (is_newline c); reflexivity.
  - rewrite existsb_app. simpl. rewrite orb_false_r.
    destruct (is_newline c) eqn:Ec.
    + rewrite orb_true_r. exact IH.
    + rewrite orb_false_r. destruct (existsb is_newline p); [exact IH|].
      destruct (is_newline a); reflexivity.
Qed.

Lemma column_snoc (p : list rune) (c : rune) :
  column (p ++ [c]) = if is_newline c then 0 else column p + 1.
Proof.
  unfold column. rewrite last_line_snoc.
  destruct (is_newline c); [reflexivity|]. now rewrite len_app.
Qed.

Lemma newlines_bounds (p : list rune) : 0 <= newlines p <= len p.
Proof.
  unfold newlines, len. pose proof (filter_length_le is_newline p). lia.
Qed.

Lemma last_line_length (p : list rune) :
  (List.length (last_line p) <= List.length p)%nat.
Proof.
  induction p as [|a p IH]; simpl; [lia|].
  destruct (existsb is_newline p); [lia|].
  destruct (is_newline a); simpl; lia.
Qed.

Lemma column_bounds (p : list rune) : 0 <= column p <= len p.
Proof. unfold column, len. pose proof (last_line_length p). lia. Qed.

(** [Advance] is the step of [position_of]. *)
Lemma Advance_position_of (p : list rune) (c : rune) :
  len p < 2 ^ 63 - 1 ->
  pos.Advance (position_of p) c = position_of (p ++ [c]).
Proof.
  intros Hb. pose proof (newlines_bounds p). pose proof (column_bounds p).
  pose proof (len_nonneg p).
  unfold pos.Advance, position_of. simpl.
  rewrite newlines_snoc, column_snoc, len_app. change (len [c]) with 1.
  fold (is_newline c). destruct (is_newline c); simpl;
    rewrite ?incr_small by lia; f_equal; lia.
Qed.

Lemma tracks_init (src : source.t) : tracks [] (NewLexer src).
Proof.
  split; [reflexivity|]. split; [reflexivity|].
  intros st p rest E. destruct st; discriminate.
Qed.

Lemma tracks_read (cs : list rune) (l : lexer.t) (c : rune) (br : bufreader.t) :
  tracks cs l -> len cs < 2 ^ 63 - 1 -> tracks (cs ++ [c]) (after_read l c br).
Proof.
  intros (Hp & Hn & Hst) Hb. split; [|split]; simpl.
  - rewrite Hp. now apply Advance_position_of.
  - rewrite !length_app, Hn. reflexivity.
  - intros st p rest E.
    destruct (snoc_cases rest) as [->|(rest' & q & ->)].
    + apply app_inj_tail in E. destruct E as [<- <-].
      rewrite Hn, firstn_app, Nat.sub_diag, firstn_all. simpl.
      now rewrite app_nil_r.
    + rewrite app_comm_cons, app_assoc in E. apply app_inj_tail in E.
      destruct E as [E _]. rewrite (Hst st p rest' E).
      rewrite firstn_app.
      assert (Hl : (List.length st < List.length cs)%nat).
      { rewrite <- Hn, E, length_app. simpl. lia. }
      replace (List.length st - List.length cs)%nat with 0%nat by lia.
      simpl. now rewrite app_nil_r.
Qed.

Lemma tracks_undo (cs : list rune) (l l' : lexer.t) :
  tracks cs l -> Backup l = Ok (tt, l') -> tracks (removelast cs) l'.
Proof.
  intros (Hp & Hn & Hst) EB.
  destruct (Backup_inv _ _ EB) as (v & x & st & p & _ & Ep & ->).
  destruct (snoc_cases cs) as [->|(cs' & y & ->)].
  { rewrite Ep, length_app in Hn. simpl in Hn. lia. }
  rewrite removelast_last.
  assert (Hl : List.length st = List.length cs').
  { rewrite Ep, !length_app in Hn. simpl in Hn. lia. }
  split; [|split]; simpl.
  - rewrite (Hst st p [] Ep), Hl, firstn_app, Nat.sub_diag, firstn_all.
    simpl. now rewrite app_nil_r.
  - exact Hl.
  - intros st' q rest E.
    rewrite (Hst st' q (rest ++ [p])) by (rewrite Ep, E, <- app_assoc; reflexivity).
    rewrite firstn_app.
    assert (Hl' : (List.length st' < List.length cs')%nat).
    { rewrite <- Hl, E, length_app. simpl. lia. }
    replace (List.length st' - List.length cs')%nat with 0%nat by lia.
    simpl. now rewrite app_nil_r.
Qed.

Lemma tracks_frame (cs : list rune) (l l' : lexer.t) :
  pos l' = pos l -> prevPos l' = prevPos l -> tracks cs l -> tracks cs l'.
Proof. unfold tracks. now intros -> ->. Qed.

Lemma exec_tracks (o : op) (cs : list rune) (l l' : lexer.t) (e : event) :
  tracks cs l -> len cs < 2 ^ 63 - 1 ->
  exec o l = Ok (e, l') -> returned_EOF e = false ->
  tracks (net_step cs e) l' /\ len (net_step cs e) <= len cs + 1.
Proof.
  intros Ht Hb.
  destruct o as [| | | |ty|ty extra|ty s args]; cbn [exec].
  - destruct (Next l) as [[c l1]| |] eqn:E; try discriminate.
    intros E' Hr. injection E' as <- <-. simpl in Hr.
    destruct (Next_inv _ _ _ E) as [(br & _ & ->)|(c0 & e0 & br & _ & -> & _)];
      [|discriminate].
    simpl. split; [now apply tracks_read|]. rewrite len_app. change (len [c]) with 1. lia.
  - destruct (Peek l) as [[c l1]| |] eqn:E; try discriminate.
    intros E' Hr. injection E' as <- <-. simpl in Hr.
    destruct (Peek_inv _ _ _ E) as (l2 & EN & EB).
    destruct (Next_inv _ _ _ EN) as [(br & _ & ->)|(c0 & e0 & br & _ & -> & _)];
      [|discriminate].
    simpl. split; [|lia].
    pose proof (tracks_undo _ _ _ (tracks_read cs l c br Ht Hb) EB) as Hu.
    now rewrite removelast_last in Hu.
  - destruct (Backup l) as [[[] l1]| |] eqn:E; try discriminate.
    intros E' _. injection E' as <- <-. simpl.
    split; [now apply (tracks_undo cs l)|].
    destruct (snoc_cases cs) as [->|(cs' & y & ->)]; [unfold len; simpl; lia|].
    rewrite removelast_last, len_app. change (len [y]) with 1. lia.
  - rewrite bind_unfold. unfold Value. rewrite bind_unfold.
    destruct (Ignore_eq l) as (b & -> & _). unfold ret.
    intros E' _. injection E' as <- <-. simpl.
    split; [|lia]. now apply (tracks_frame cs l).
  - unfold Emit. destruct (EmitExtra_eq ty None l) as (b & -> & _).
    intros E' _. injection E' as <- <-. simpl.
    split; [|lia]. now apply (tracks_frame cs l).
  - destruct (EmitExtra_eq ty extra l) as (b & -> & _).
    intros E' _. injection E' as <- <-. simpl.
    split; [|lia]. now apply (tracks_frame cs l).
  - rewrite Errorf_eq. intros E' _. injection E' as <- <-. simpl.
    split; [|lia]. now apply (tracks_frame cs l).
Qed.

Lemma trace_tracks (ops : list op) :
  forall (cs : list rune) (l l' : lexer.t) (evs : list event),
    tracks cs l -> len cs + len ops < 2 ^ 63 ->
    trace ops l = Ok (evs, l') ->
    Forall (fun e => returned_EOF e = false) evs ->
    tracks (fold_left net_step evs cs) l'.
Proof.
  induction ops as [|o ops IH]; intros cs l l' evs Ht Hb E Hev.
  - injection E as <- <-. exact Ht.
  - destruct (trace_cons_inv _ _ _ _ _ E) as (e & es & l1 & E1 & E2 & ->).
    inversion Hev as [|? ? He Hes]; subst.
    change (o :: ops) with ([o] ++ ops) in Hb. rewrite len_app in Hb.
    change (len [o]) with 1 in Hb. pose proof (len_nonneg ops) as Hn.
    destruct (exec_tracks o cs l l1 e Ht ltac:(lia) E1 He) as [Ht1 Hle].
    simpl. apply (IH _ l1 l' es Ht1); [lia|exact E2|exact Hes].
Qed.

(** X7.  Up to the first [EOF], the position invariant of C5 holds:
    in a run of fewer than 2^63 calls from a fresh engine in which no
    [Next] or [Peek] has returned [EOF], [Line], [Col] and [Pos] are the
    number of newlines, the number of characters after the last newline,
    and the length of the text read and not given back. *)
Lemma position_before_EOF (src : source.t) (ops : list op) (evs : list event)
    (l : lexer.t) :
  len ops < 2 ^ 63 ->
  trace ops (NewLexer src) = Ok (evs, l) ->
  Forall (fun e => returned_EOF e = false) evs ->
  Line l = Ok (newlines (net_consumed evs), l)
  /\ Col l = Ok (column (net_consumed evs), l)
  /\ Pos l = Ok (len (net_consumed evs), l).
Proof.
  intros Hb E Hev.
  destruct (trace_tracks ops [] (NewLexer src) l evs (tracks_init src) Hb E Hev)
    as (Hp & _).
  unfold Line, Col, Pos. fold (net_consumed evs) in Hp. rewrite Hp. auto.
Qed.

(** C5, at the input where the code departs from it.  On the source
    made of [a] and a newline, two calls of [Next] consume the whole
    text and the position is (1,0,2).  A [Peek] then returns [EOF], and
    afterwards [Line], [Col] and [Pos] give (0,1,1), although the text
    consumed still is [a], newline: one newline, no character after it,
    two characters. *)
Theorem position_after_Peek_at_end :
  exists l2 l3,
    trace [ONext; ONext] (NewLexerString (runes "a" ++ [10]))
    = Ok ([ev_next 97 false []; ev_next 10 false []], l2)
    /\ pos l2 = pos.mk 1 0 2
    /\ exec OPeek l2 = Ok (ev_peek EOF true [], l3)
    /\ Line l3 = Ok (0, l3) /\ Col l3 = Ok (1, l3) /\ Pos l3 = Ok (1, l3)
    /\ newlines (runes "a" ++ [10]) = 1
    /\ column (runes "a" ++ [10]) = 0
    /\ len (runes "a" ++ [10]) = 2.
Proof.
  do 2 eexists.
  split; [vm_compute; reflexivity|].
  split; [reflexivity|].
  split; [vm_compute; reflexivity|].
  repeat split.
Qed.

End positions.

(** ** Where the characters go *)

Lemma firstn_succ_nth_error {A : Type} (l : list A) :
  forall (n : nat) (c : A),
    nth_error l n = Some c -> firstn (Datatypes.S n) l = firstn n l ++ [c].
Proof.
  induction l as [|a l IH]; intros [|n] c E; try discriminate.
  - injection E as ->. reflexivity.
  - simpl in E. rewrite !firstn_cons, (IH n c E). reflexivity.
Qed.

Lemma firstn_index_snoc {A : Type} (l : list A) (i : int) (c : A) :
  index l i = Ok c ->
  0 <= i /\ firstn (Z.to_nat (i + 1)) l = firstn (Z.to_nat i) l ++ [c].
Proof.
  unfold index. destruct (i <? 0) eqn:Ei; [discriminate|].
  apply Z.ltb_ge in Ei.
  destruct (nth_error l (Z.to_nat i)) as [x|] eqn:En; [|discriminate].
  intros E. injection E as ->. split; [exact Ei|].
  replace (Z.to_nat (i + 1)) with (Datatypes.S (Z.to_nat i)) by lia.
  now apply firstn_succ_nth_error.
Qed.

Lemma firstn_len {A : Type} (l : list A) : firstn (Z.to_nat (len l)) l = l.
Proof. unfold len. rewrite Nat2Z.id. apply firstn_all. Qed.

Lemma firstn_pred_snoc {A : Type} (l v : list A) (x : A) (n : nat) :
  (n <= List.length l)%nat -> firstn n l = v ++ [x] ->
  (1 <= n)%nat /\ firstn (n - 1) l = v.
Proof.
  intros Hn E.
  assert (Hl : n = Datatypes.S (List.length v)).
  { apply (f_equal (@List.length A)) in E.
    rewrite length_firstn, length_app in E. simpl in E. lia. }
  split; [lia|].
  replace (firstn (n - 1) l) with (firstn (n - 1) (firstn n l))
    by (rewrite firstn_firstn; f_equal; lia).
  rewrite E, Hl. simpl. rewrite Nat.sub_0_r, firstn_app, Nat.sub_diag, firstn_all.
  simpl. apply app_nil_r.
Qed.

Lemma skipn_length_app {A : Type} (a b : list A) :
  skipn (List.length a) (a ++ b) = b.
Proof. rewrite skipn_app, skipn_all, Nat.sub_diag. reflexivity. Qed.

Lemma string_of_runes_valid (s : list rune) :
  forallb valid_rune s = true -> string_of_runes s = s.
Proof.
  induction s as [|c s IH]; simpl; [reflexivity|].
  intros E. apply andb_prop in E. destruct E as [Ec Es].
  rewrite Ec, (IH Es). reflexivity.
Qed.

Section accounting.
Context `{Env}.
Import lexer.

Lemma accounted_init (s : list rune) : accounted s [] (NewLexerString s).
Proof.
  split; [discriminate|]. simpl. repeat split; reflexivity || discriminate.
Qed.

Lemma accounted_all (s gone : list rune) (l : lexer.t) :
  accounted s gone l -> gone ++ value l ++ unread l = s.
Proof.
  intros [_ Ha]. unfold unread. destruct (failed l).
  - now rewrite app_nil_r.
  - destruct Ha as (_ & -> & <-). f_equal.
    rewrite app_assoc. now rewrite firstn_skipn.
Qed.

Lemma accounted_frame (s gone : list rune) (l l' : lexer.t) :
  r l' = r l -> value l' = value l -> eof l' = eof l ->
  accounted s gone l -> accounted s gone l'.
Proof. unfold accounted, failed. now intros -> -> ->. Qed.

Lemma accounted_buf_len (s gone : list rune) (l : lexer.t) :
  accounted s gone l -> failed l = false -> len (bufreader.buf (r l)) <= len s.
Proof.
  intros [_ Ha] Hf. rewrite Hf in Ha. destruct Ha as (_ & _ & <-).
  rewrite !len_app. pose proof (len_nonneg gone).
  pose proof (len_nonneg (source.pending (bufreader.r (r l)))). lia.
Qed.

Lemma accounted_read (s gone : list rune) (l : lexer.t) (c : rune)
    (br : bufreader.t) :
  len s < 2 ^ 63 ->
  accounted s gone l ->
  bufreader.ReadRune (r l) = Ok (c, None, br) ->
  accounted s gone (after_read l c br) /\ failed (after_read l c br) = false.
Proof.
  intros Hb Ha ER.
  destruct (ReadRune_read_inv _ _ _ ER) as (Ee & Hcase).
  assert (Hf : failed l = false) by (unfold failed; now rewrite Ee).
  pose proof (accounted_buf_len s gone l Ha Hf) as Hlen.
  destruct Ha as [Heof Ha]. rewrite Hf in Ha. destruct Ha as (Hp & Hv & Hs).
  destruct Hcase as [(Hlt & Ei & ->)|(Hge & rest & Ep & ->)].
  - destruct (firstn_index_snoc _ _ _ Ei) as [_ Ef].
    assert (Hi : incr (bufreader.pos (r l)) = bufreader.pos (r l) + 1)
      by (apply incr_small; lia).
    split; [|reflexivity]. split.
    + simpl. intros E. rewrite (Heof E) in Hf. discriminate.
    + unfold failed. simpl. rewrite Hi. repeat split; try lia.
      * now rewrite Ef, Hv.
      * exact Hs.
  - assert (Hpos : bufreader.pos (r l) = len (bufreader.buf (r l))) by lia.
    rewrite Hpos, firstn_len in Hv.
    split; [|reflexivity]. split.
    + simpl. intros E. rewrite (Heof E) in Hf. discriminate.
    + unfold failed. simpl. repeat split.
      * apply len_nonneg.
      * lia.
      * now rewrite firstn_len, Hv.
      * rewrite <- Hs, Ep, <- !app_assoc. reflexivity.
Qed.

Lemma accounted_undo (s gone : list rune) (l l' : lexer.t) :
  len s < 2 ^ 63 ->
  accounted s gone l -> failed l = false ->
  Backup l = Ok (tt, l') ->
  accounted s gone l'.
Proof.
  intros Hb Ha Hf EB.
  pose proof (accounted_buf_len s gone l Ha Hf) as Hlen.
  destruct Ha as [Heof Ha]. rewrite Hf in Ha. destruct Ha as (Hp & Hv & Hs).
  destruct (Backup_inv _ _ EB) as (v & x & st & p & Ev & _ & ->).
  rewrite Ev in Hv. symmetry in Hv.
  apply firstn_pred_snoc in Hv; [|unfold len in Hp; lia].
  destruct Hv as [H1 Hv].
  assert (Hd : decr (bufreader.pos (r l)) = bufreader.pos (r l) - 1).
  { unfold decr. apply wrap64_small. lia. }
  assert (Ee : bufreader.err (r l) = None).
  { unfold failed in Hf. now destruct (bufreader.err (r l)). }
  split.
  - simpl. intros E. rewrite (Heof E) in Hf. discriminate.
  - unfold failed, bufreader.UnreadRune. simpl.
    destruct (decr (bufreader.pos (r l)) <? 0); simpl; rewrite Ee, Hd;
      (split; [lia|split; [|exact Hs]]);
      replace (Z.to_nat (bufreader.pos (r l) - 1))
        with (Z.to_nat (bufreader.pos (r l)) - 1)%nat by lia;
      now rewrite Hv.
Qed.

(** A read that fails, undone: what [Peek] does at the end. *)
Lemma accounted_failure_undone (s gone : list rune) (l l' : lexer.t) (c : rune)
    (e : error) (br : bufreader.t) :
  accounted s gone l ->
  bufreader.ReadRune (r l) = Ok (c, Some e, br) ->
  Backup (after_failure l e br) = Ok (tt, l') ->
  accounted s gone l'.
Proof.
  intros [Heof Ha] ER EB.
  destruct (ReadRune_failure_zero _ _ _ _ ER) as [_ Herr].
  destruct (Backup_inv _ _ EB) as (v & x & st & p & Ev & _ & ->).
  simpl in Ev. apply app_inj_tail in Ev. destruct Ev as [<- _].
  assert (Hf' : bufreader.err (snd (bufreader.UnreadRune br)) = Some e).
  { unfold bufreader.UnreadRune. simpl.
    destruct (decr (bufreader.pos br) <? 0); exact Herr. }
  split; unfold failed; simpl; rewrite Hf'; [reflexivity|].
  destruct (ReadRune_failure_inv _ _ _ _ ER) as [(Ee & _)|(Ee & Hge & Ep & _)];
    unfold failed in Ha; rewrite Ee in Ha; [exact Ha|].
  destruct Ha as (Hp & Hv & Hs).
  assert (Hpos : bufreader.pos (r l) = len (bufreader.buf (r l))) by lia.
  rewrite Hpos, firstn_len in Hv. rewrite Ep, app_nil_r in Hs. now rewrite Hv.
Qed.

Lemma accounted_flush (s gone : list rune) (l : lexer.t) (b : list rune)
    (toks : list Token.t) :
  accounted s gone l -> one_unread l = true ->
  (bufreader.buf (r l) = [] -> b = []) ->
  (forall pre x, bufreader.buf (r l) = pre ++ [x] -> b = [x]) ->
  accounted s (gone ++ value l)
    (lexer.mk (bufreader.mk (bufreader.r (r l)) b 0 (bufreader.err (r l)))
       toks (eof l) [] (pos l) (pos l) (prevPos l)).
Proof.
  intros [Heof Ha] Hone Hb0 Hb1. unfold one_unread in Hone.
  split; [exact Heof|]. unfold failed in *. simpl.
  destruct (bufreader.err (r l)) as [e|].
  - now rewrite app_nil_r.
  - simpl in Hone. destruct Ha as (Hp & Hv & Hs).
    destruct (snoc_cases (bufreader.buf (r l))) as [Eb|(pre & x & Eb)].
    + rewrite (Hb0 Eb). rewrite Eb in *. change (len (@nil rune)) with 0 in Hp.
      replace (bufreader.pos (r l)) with 0 in Hv by lia. simpl in Hv.
      rewrite Hv, app_nil_r. repeat split; try reflexivity; try discriminate.
      exact Hs.
    + rewrite (Hb1 pre x Eb). rewrite Eb in *.
      rewrite len_app in Hone, Hp. change (len [x]) with 1 in Hone, Hp.
      pose proof (len_nonneg pre) as Hn.
      apply orb_prop in Hone. destruct Hone as [Hone|Hone];
        [apply Z.eqb_eq in Hone; lia|apply Z.eqb_eq in Hone].
      replace (bufreader.pos (r l)) with (len pre) in Hv by lia.
      unfold len in Hv. rewrite Nat2Z.id, firstn_app, Nat.sub_diag, firstn_all in Hv.
      simpl in Hv. rewrite app_nil_r in Hv. rewrite Hv.
      repeat split; try reflexivity; try discriminate.
      rewrite <- Hs, <- !app_assoc. reflexivity.
Qed.

Lemma sent_since_one (l : lexer.t) (tok : Token.t) (l' : lexer.t) :
  tokens l' = tokens l ++ [tok] -> sent_since l l' = [tok].
Proof. intros E. unfold sent_since. rewrite E. apply skipn_length_app. Qed.

Lemma exec_accounted (s gone : list rune) (o : op) (l l' : lexer.t) (e : event) :
  len s < 2 ^ 63 ->
  accounted s gone l -> allowed o l = true ->
  exec o l = Ok (e, l') ->
  exists g, piece e = string_of_runes g /\ accounted s (gone ++ g) l'.
Proof.
  intros Hb Ha.
  destruct o as [| | | |ty|ty extra|ty fmt args]; cbn [exec allowed]; intros Hal.
  - destruct (Next l) as [[c l1]| |] eqn:E; try discriminate.
    intros E'. injection E' as <- <-. exists []. rewrite app_nil_r.
    split; [reflexivity|].
    unfold available in Hal.
    destruct (bufreader.ReadRune (r l)) as [[[c0 [e0|]] br]| |] eqn:ER;
      try discriminate.
    rewrite (Next_read l c0 br ER) in E. injection E as <- <-.
    now apply accounted_read.
  - destruct (Peek l) as [[c l1]| |] eqn:E; try discriminate.
    intros E'. injection E' as <- <-. exists []. rewrite app_nil_r.
    split; [reflexivity|].
    destruct (Peek_inv _ _ _ E) as (l2 & EN & EB).
    destruct (Next_inv _ _ _ EN) as [(br & ER & ->)|(c0 & e0 & br & ER & _ & ->)].
    + destruct (accounted_read s gone l c br Hb Ha ER) as [Ha1 Hf1].
      exact (accounted_undo s gone _ _ Hb Ha1 Hf1 EB).
    + exact (accounted_failure_undone s gone l l1 c0 e0 br Ha ER EB).
  - destruct (Backup l) as [[[] l1]| |] eqn:E; try discriminate.
    intros E'. injection E' as <- <-. exists []. rewrite app_nil_r.
    split; [reflexivity|].
    apply negb_true_iff in Hal.
    exact (accounted_undo s gone _ _ Hb Ha Hal E).
  - rewrite bind_unfold. unfold Value. rewrite bind_unfold.
    destruct (Ignore_eq l) as (b & -> & Hb0 & Hb1). unfold ret.
    intros E'. injection E' as <- <-. exists (value l).
    split; [reflexivity|]. now apply accounted_flush.
  - unfold Emit. destruct (EmitExtra_eq ty None l) as (b & E & Hb0 & Hb1).
    rewrite E. intros E'. injection E' as <- <-. exists (value l).
    split; [|now apply accounted_flush].
    cbn [piece]. rewrite (sent_since_one l (emitted_token l ty None)) by reflexivity.
    simpl. apply app_nil_r.
  - destruct (EmitExtra_eq ty extra l) as (b & E & Hb0 & Hb1).
    rewrite E. intros E'. injection E' as <- <-. exists (value l).
    split; [|now apply accounted_flush].
    cbn [piece]. rewrite (sent_since_one l (emitted_token l ty extra)) by reflexivity.
    simpl. apply app_nil_r.
  - rewrite Errorf_eq. intros E'. injection E' as <- <-. exists [].
    rewrite app_nil_r. split; [reflexivity|].
    now apply (accounted_frame s gone l).
Qed.

Lemma trace_accounted (s : list rune) (ops : list op) :
  len s < 2 ^ 63 ->
  forall (gone : list rune) (l l' : lexer.t) (evs : list event),
    accounted s gone l -> lookahead_protocol ops l = true ->
    trace ops l = Ok (evs, l') ->
    exists g, pieces evs = string_of_runes g /\ accounted s (gone ++ g) l'.
Proof.
  intros Hb. induction ops as [|o ops IH]; intros gone l l' evs Ha Hp E.
  - injection E as <- <-. exists []. rewrite app_nil_r. now split.
  - destruct (trace_cons_inv _ _ _ _ _ E) as (e & es & l1 & E1 & E2 & ->).
    cbn [lookahead_protocol] in Hp. rewrite E1 in Hp.
    apply andb_prop in Hp. destruct Hp as [Hal Hp].
    destruct (exec_accounted s gone o l l1 e Hb Ha Hal E1) as (g1 & Hg1 & Ha1).
    destruct (IH (gone ++ g1) l1 l' es Ha1 Hp E2) as (g2 & Hg2 & Ha2).
    exists (g1 ++ g2). split.
    + unfold pieces in *. simpl. now rewrite Hg1, Hg2, string_of_runes_app.
    + now rewrite app_assoc.
Qed.

(** Outside the discipline: an [Emit] right after a [Next] leaves the
    character just read in the reader as if it had been given back, and
    the next [Next] returns it a second time. *)
Lemma Emit_after_Next_reads_again :
  exists l,
    trace [ONext; OEmit TokWord; ONext] (NewLexerString (runes "ab"))
    = Ok ([ev_next 97 false []; ev_emit [word "a" 0 0 0]; ev_next 97 false []], l)
    /\ lookahead_protocol [ONext; OEmit TokWord; ONext] (NewLexerString (runes "ab"))
       = false.
Proof. eexists. split; vm_compute; reflexivity. Qed.

(** C2, as the code has it.  Take a text [s] of fewer than 2^63
    characters and any sequence of calls that returns normally and keeps
    to scanning with one character of lookahead.  Then the texts of the
    emitted tokens and the discarded spans, in the order of the calls,
    followed by the scan buffer and by the input not yet read, are [s]
    (as a string); when the end of the source has been seen and the scan
    buffer is empty, the token texts and discarded spans alone are [s].
    For a text of valid code points the string is the text itself. *)
Theorem nothing_lost_with_lookahead (s : list rune) (ops : list op)
    (evs : list event) (l : lexer.t) :
  len s < 2 ^ 63 ->
  trace ops (NewLexerString s) = Ok (evs, l) ->
  lookahead_protocol ops (NewLexerString s) = true ->
  pieces evs ++ string_of_runes (value l ++ unread l) = string_of_runes s
  /\ (eof l = true -> value l = [] -> pieces evs = string_of_runes s)
  /\ (forallb valid_rune s = true -> string_of_runes s = s).
Proof.
  intros Hb E Hp.
  destruct (trace_accounted s ops Hb [] _ _ _ (accounted_init s) Hp E)
    as (g & Hg & Ha).
  simpl in Ha. pose proof (accounted_all s g l Ha) as Hall.
  split; [|split].
  - now rewrite Hg, <- string_of_runes_app, Hall.
  - intros Heof Hv. destruct Ha as [Hf Ha]. rewrite (Hf Heof) in Ha.
    rewrite Hv, app_nil_r in Ha. now rewrite Hg, Ha.
  - apply string_of_runes_valid.
Qed.

End accounting.

Lemma a_read_to_the_end_emitted_eq `{Env} :
  trace [ONext; ONext; OEmit 0] (NewLexerString (runes "a"))
  = a_read_to_the_end_emitted.
Proof. vm_compute. reflexivity. Qed.

(** C2 fails as stated: a state function that reads the source [a] with
    [Next] until [EOF] comes back and then emits has seen the end of the
    source and left the scan buffer empty, but the one token it sent has
    the text [a] followed by U+0000: a character that is not in the
    input. *)
Lemma token_text_with_NUL :
  ~ (exists E : Env, @nothing_lost_as_stated E).
Proof.
  intros (E & HC).
  pose proof (@a_read_to_the_end_emitted_eq E) as Ht.
  unfold a_read_to_the_end_emitted in Ht.
  specialize (HC (runes "a") _ _ _ eq_refl Ht eq_refl eq_refl).
  discriminate HC.
Qed.

(** ** The earlier evolution of the engine *)

Section earlier_engine.
Context `{Env}.
Import earlier.

(** X17.  The earlier engine: a [Backup] right after a [Next] that
    read a character puts the position and the scan buffer back and
    gives the character back to the reader. *)
Lemma Next_Backup_read_earlier (lex : Lexer) (c : rune) (rest : list rune) :
  pending (r lex) = c :: rest ->
  exists lex1 lex2,
    Next lex = (c, lex1) /\ Backup lex1 = Ok lex2
    /\ pos lex2 = pos lex /\ value lex2 = value lex
    /\ pending (r lex2) = pending (r lex).
Proof.
  intros Ep. unfold Next, ReadRune. rewrite Ep. simpl.
  do 2 eexists. split; [reflexivity|].
  unfold Backup. simpl. rewrite slice_to_last. simpl.
  rewrite !pos_CopyTo_id. split; [reflexivity|]. simpl.
  repeat split.
Qed.

(** X18.  The earlier engine: a [Next] whose read fails appends U+0000,
    keeps the position and sets the end-of-source flag; the [Backup]
    after it takes the U+0000 away and sets the position to the one
    saved by the last [Next] that did read. *)
Lemma Next_Backup_failed_earlier (lex : Lexer) :
  pending (r lex) = [] ->
  exists lex1 lex2,
    Next lex = (EOF, lex1)
    /\ value lex1 = value lex ++ [0] /\ pos lex1 = pos lex /\ eof lex1 = true
    /\ Backup lex1 = Ok lex2
    /\ value lex2 = value lex /\ pos lex2 = prevPos lex.
Proof.
  intros Ep. unfold Next, ReadRune. rewrite Ep. simpl.
  destruct (is_io_EOF (failure (r lex))); simpl;
    do 2 eexists; (split; [reflexivity|]); simpl;
    (do 3 (split; [reflexivity|]));
    unfold Backup; simpl; rewrite slice_to_last; simpl;
    rewrite !pos_CopyTo_id; (split; [reflexivity|]); split; reflexivity.
Qed.

Lemma scenario_words_run_earlier :
  Run 100 (Some lexSkipSpaces) (NewLexer words_input io_EOF)
  = Ok [word "foo" 0 2 2; word "bar" 0 6 6; word "baz" 1 4 14].
Proof. vm_compute. reflexivity. Qed.

Lemma scenario_broken_run_earlier :
  Run 100 (Some lexSkipSpaces)
    (NewLexer (runes "foo bar") (other_error (runes "broken")))
  = Ok [word "foo" 0 0 0; broken_error_token; word "bar" 0 4 4].
Proof. vm_compute. reflexivity. Qed.

(** On the source [a]: [Next], then [Next] returning [EOF], then
    [Backup] leave the position at (0,0,0) with [a] in the buffer. *)
Lemma Backup_after_EOF_earlier :
  let lex0 := snd (Next (NewLexer (runes "a") io_EOF)) in
  let lex1 := snd (Next lex0) in
  pos lex0 = pos.mk 0 1 1
  /\ exists lex2, Backup lex1 = Ok lex2
                  /\ value lex2 = runes "a" /\ pos lex2 = pos.mk 0 0 0.
Proof.
  split; [reflexivity|]. eexists. split; [vm_compute; reflexivity|].
  split; reflexivity.
Qed.

End earlier_engine.

(** ** The statements at concrete inputs *)

Section witnesses_errors.
#[local] Existing Instance plain_env.
Import lexer.

Lemma Errorf_publishes_and_halts_witness :
  let l := NewLexerString (runes "x") in
  let call := fun (_ : unit) (_ : nat) => @Errorf _ unit 7 (runes "bad") [] in
  eof l = false
  /\ call tt 0%nat l = Errorf 7 (runes "bad") [] l
  /\ Run call 1 (Some tt) l = Ok [Token.mk 7 (runes "bad") 0 0 0 None].
Proof.
  intros l call. split; [reflexivity|]. split; [reflexivity|].
  exact (proj2 (proj2 (Errorf_publishes_and_halts unit call tt 0%nat 7 (runes "bad")
                         [] l eq_refl eq_refl))).
Defined.

Lemma Next_failure_appends_NUL_witness :
  let l := NewLexerString [] in
  bufreader.ReadRune (r l)
  = Ok (0, Some io_EOF, bufreader.mk (source.of_string []) [] 0 (Some io_EOF))
  /\ exists l1, Next l = Ok (EOF, l1) /\ value l1 = [0] /\ pos l1 = pos.zero.
Proof.
  intros l. split; [reflexivity|].
  destruct (Next_failure_appends_NUL l 0 io_EOF _ eq_refl)
    as (l1 & E & Hv & Hp & _).
  exists l1. auto.
Defined.

Lemma error_token_and_what_follows_witness :
  let l := NewLexer (brokenReader []) in
  bufreader.ReadRune (r l)
  = Ok (0, Some (other_error (runes "broken")),
        bufreader.mk (brokenReader []) [] 0 (Some (other_error (runes "broken"))))
  /\ is_io_EOF (other_error (runes "broken")) = false
  /\ exists l1, Next l = Ok (EOF, l1)
                 /\ tokens l1 = [Token.mk TokError (runes "broken") 0 0 0 None]
                 /\ eof l1 = true.
Proof.
  intros l. split; [reflexivity|]. split; [reflexivity|].
  destruct (error_token_and_what_follows l 0 (other_error (runes "broken")) _
              eq_refl eq_refl) as ((l1 & E & Ht & He & _) & _).
  exists l1. auto.
Defined.

End witnesses_errors.

Section witnesses_runs.
#[local] Existing Instance plain_env.
Import lexer.

Lemma sample_run_eq :
  trace sample_ops (NewLexer (source.of_string (runes "ab c"))) = sample_run.
Proof. vm_compute. reflexivity. Qed.

Lemma offset_equation_witness :
  exists evs l,
    len sample_ops < 2 ^ 63
    /\ trace sample_ops (NewLexer (source.of_string (runes "ab c"))) = Ok (evs, l)
    /\ Forall (fun e => returned_EOF e = false) evs
    /\ pos.pos (pos l) - pos.pos (tokenPos l) = len (value l).
Proof.
  pose proof sample_run_eq as Ht. unfold sample_run in Ht.
  assert (Hb : len sample_ops < 2 ^ 63) by reflexivity.
  do 2 eexists. split; [exact Hb|]. split; [exact Ht|].
  split; [repeat constructor|].
  apply (offset_equation _ _ _ _ Hb Ht). repeat constructor.
Defined.

Lemma skip_run_eq :
  trace skip_ops (NewLexer (source.of_string (runes " ab c"))) = skip_run.
Proof. vm_compute. reflexivity. Qed.

Lemma Emit_packages_span_witness :
  exists evs1 evs2 l1 l2 l3,
    span_start skip_ops /\ in_span word_ops
    /\ trace skip_ops (NewLexer (source.of_string (runes " ab c"))) = Ok (evs1, l1)
    /\ trace word_ops l1 = Ok (evs2, l2)
    /\ EmitExtra 0 None l2 = Ok (tt, l3)
    /\ tokens l3 = [Token.mk 0 (runes "ab") 0 1 1 None].
Proof.
  pose proof skip_run_eq as Ht1. unfold skip_run in Ht1.
  assert (Hs : span_start skip_ops).
  { right. exists [ONext; OPeek], OIgnore. split; reflexivity. }
  assert (Hw : in_span word_ops) by (repeat constructor).
  match type of Ht1 with
  | _ = Ok (_, ?l1) =>
    assert (Ht2 : trace word_ops l1 = word_run) by (vm_compute; reflexivity)
  end.
  unfold word_run in Ht2.
  destruct (Emit_packages_span _ _ _ _ _ _ _ 0 None Hs Hw Ht1 Ht2)
    as (l3 & E3 & Htok & _).
  do 4 eexists. exists l3.
  split; [exact Hs|]. split; [exact Hw|]. split; [exact Ht1|].
  split; [exact Ht2|]. split; [exact E3|]. exact Htok.
Defined.

End witnesses_runs.

Section witnesses_accounting.
#[local] Existing Instance plain_env.
Import lexer.

Lemma words_run_eq :
  trace words_ops (NewLexerString (runes " ab c")) = words_run.
Proof. vm_compute. reflexivity. Qed.

Lemma words_protocol :
  lookahead_protocol words_ops (NewLexerString (runes " ab c")) = true.
Proof. vm_compute. reflexivity. Qed.

Lemma nothing_lost_with_lookahead_witness :
  exists evs l,
    len (runes " ab c") < 2 ^ 63
    /\ trace words_ops (NewLexerString (runes " ab c")) = Ok (evs, l)
    /\ lookahead_protocol words_ops (NewLexerString (runes " ab c")) = true
    /\ eof l = true /\ value l = []
    /\ pieces evs = runes " ab c".
Proof.
  pose proof words_run_eq as Ht. unfold words_run in Ht.
  assert (Hb : len (runes " ab c") < 2 ^ 63) by reflexivity.
  do 2 eexists. split; [exact Hb|]. split; [exact Ht|].
  split; [exact words_protocol|]. split; [reflexivity|]. split; [reflexivity|].
  destruct (nothing_lost_with_lookahead _ _ _ _ Hb Ht words_protocol)
    as (_ & Hdone & Hvalid).
  rewrite (Hdone eq_refl eq_refl). apply Hvalid. reflexivity.
Defined.

End witnesses_accounting.

(** * Further properties *)

(** ** The reader on its own *)

Lemma index_snoc_last {A : Type} (s : list A) (x : A) :
  index (s ++ [x]) (len s) = Ok x.
Proof.
  pose proof (index_last s x) as E. rewrite len_app in E.
  change (len [x]) with 1 in E.
  now replace (len s + 1 - 1) with (len s) in E by lia.
Qed.

Lemma decr_small (x : int) : 0 < x <= 2 ^ 63 - 1 -> decr x = x - 1.
Proof. intros Hx. unfold decr. apply wrap64_small. lia. Qed.

Lemma ReadRunes_failed (k : nat) (br : bufreader.t) (e : error) :
  bufreader.err br = Some e ->
  ReadRunes k br = Ok (repeat (0, Some e) k, br).
Proof.
  intros He. induction k as [|k IH]; [reflexivity|].
  simpl. rewrite (ReadRune_failed_again br e He), IH. reflexivity.
Qed.

Lemma ReadRunes_from_source (s : list rune) :
  forall (k : nat) (rd : source.t) (buf : list rune),
    source.pending rd = s ->
    exists br,
      ReadRunes (List.length s + k) (bufreader.mk rd buf (len buf) None)
      = Ok (map (fun c => (c, None)) s ++ repeat (0, Some (source.failure rd)) k, br)
      /\ bufreader.buf br = buf ++ s
      /\ source.pending (bufreader.r br) = []
      /\ (k <> 0%nat -> bufreader.err br = Some (source.failure rd)).
Proof.
  induction s as [|c s IH]; intros k rd buf Es.
  - destruct k as [|k].
    + eexists. split; [reflexivity|]. simpl. rewrite app_nil_r.
      repeat split; auto. congruence.
    + eexists. split.
      * cbn [ReadRunes Nat.add List.length].
        unfold bufreader.ReadRune. cbn [bufreader.err bufreader.pos bufreader.buf].
        rewrite Z.ltb_irrefl. unfold source.ReadRune. cbn [bufreader.r].
        rewrite Es. rewrite ReadRunes_failed with (e := source.failure rd);
          reflexivity.
      * simpl. rewrite app_nil_r. repeat split; auto.
  - destruct (IH k (source.mk s (source.failure rd)) (buf ++ [c]) eq_refl)
      as (br & E & Hb & Hp & He).
    exists br. split; [|rewrite Hb, <- app_assoc; repeat split; auto].
    cbn [ReadRunes Nat.add List.length].
    unfold bufreader.ReadRune. cbn [bufreader.err bufreader.pos bufreader.buf].
    rewrite Z.ltb_irrefl. unfold source.ReadRune. cbn [bufreader.r].
    rewrite Es. cbn [bufreader.err]. rewrite E. reflexivity.
Qed.

(** X1.  The reader is transparent: read after read, a fresh
    [bufreader] hands out the runes of its source in their order, and
    once the source is exhausted every further read returns the zero rune
    with the failure of the source; by then the reader's buffer holds the
    whole text. *)
Theorem reader_delivers_source (s : list rune) (e : error) (k : nat) :
  exists br,
    ReadRunes (List.length s + k) (bufreader.newbufreader (source.mk s e))
    = Ok (map (fun c => (c, None)) s ++ repeat (0, Some e) k, br)
    /\ bufreader.buf br = s.
Proof.
  destruct (ReadRunes_from_source s k (source.mk s e) [] eq_refl)
    as (br & E & Hb & _).
  exists br. split; [exact E|exact Hb].
Qed.

(** A rune read and given back is read again, and the reader is then
    as it was after the first read. *)
Lemma ReadRune_unread_read (br br1 : bufreader.t) (c : rune) :
  reader_ok br ->
  bufreader.ReadRune br = Ok (c, None, br1) ->
  exists br2,
    bufreader.UnreadRune br1 = (None, br2)
    /\ bufreader.ReadRune br2 = Ok (c, None, br1)
    /\ bufreader.r br2 = bufreader.r br1
    /\ bufreader.buf br2 = bufreader.buf br1
    /\ bufreader.pos br2 = bufreader.pos br.
Proof.
  intros (He & Hp & Hl) ER.
  destruct (ReadRune_read_inv _ _ _ ER) as (_ & [(Hlt & Ei & ->)|(Hge & rest & Ep & ->)]).
  - assert (Hi : incr (bufreader.pos br) = bufreader.pos br + 1)
      by (apply incr_small; lia).
    assert (Hd : decr (bufreader.pos br + 1) = bufreader.pos br).
    { rewrite decr_small by lia. lia. }
    eexists. split.
    + unfold bufreader.UnreadRune. cbn [bufreader.r bufreader.buf bufreader.pos bufreader.err].
      rewrite Hi, Hd.
      destruct (bufreader.pos br <? 0) eqn:E0; [apply Z.ltb_lt in E0; lia|].
      reflexivity.
    + cbn [bufreader.r bufreader.pos bufreader.buf]. split; [|repeat split].
      unfold bufreader.ReadRune. cbn [bufreader.r bufreader.buf bufreader.pos bufreader.err].
      destruct (bufreader.pos br <? len (bufreader.buf br)) eqn:E1;
        [|apply Z.ltb_ge in E1; lia].
      rewrite Ei, Hi. reflexivity.
  - assert (Hpos : bufreader.pos br = len (bufreader.buf br)) by lia.
    pose proof (len_nonneg (bufreader.buf br)) as Hn.
    assert (Hd : decr (len (bufreader.buf br ++ [c])) = len (bufreader.buf br)).
    { rewrite len_app. change (len [c]) with 1. rewrite decr_small by lia. lia. }
    eexists. split.
    + unfold bufreader.UnreadRune. cbn [bufreader.r bufreader.buf bufreader.pos bufreader.err].
      rewrite Hd.
      destruct (len (bufreader.buf br) <? 0) eqn:E0; [apply Z.ltb_lt in E0; lia|].
      reflexivity.
    + cbn [bufreader.r bufreader.pos bufreader.buf].
      split; [|split; [reflexivity|split; [reflexivity|lia]]].
      unfold bufreader.ReadRune.
      cbn [bufreader.r bufreader.buf bufreader.pos bufreader.err].
      rewrite len_app. change (len [c]) with 1.
      destruct (len (bufreader.buf br) <? len (bufreader.buf br) + 1) eqn:E1;
        [|apply Z.ltb_ge in E1; lia].
      rewrite index_snoc_last. rewrite incr_small by lia. reflexivity.
Qed.

(** X2.  [ReadRune], [UnreadRune], [ReadRune]: on a reader in order, a
    rune that was read and given back is the rune the next read returns,
    without another look at the source, and the reader is then exactly
    as it was after the first read; [UnreadRune] reports no error. *)
Theorem reader_rereads_what_was_unread (br br1 : bufreader.t) (c : rune) :
  reader_ok br ->
  bufreader.ReadRune br = Ok (c, None, br1) ->
  exists br2,
    bufreader.UnreadRune br1 = (None, br2)
    /\ bufreader.ReadRune br2 = Ok (c, None, br1)
    /\ bufreader.r br2 = bufreader.r br1.
Proof.
  intros Hok ER.
  destruct (ReadRune_unread_read br br1 c Hok ER) as (br2 & E1 & E2 & E3 & _).
  now exists br2.
Qed.

(** X3.  [UnreadRune] with nothing read: on a reader at position 0 that
    has not failed (a fresh one, or one just trimmed by [Ignore]) it
    reports the out-of-bounds error, but it has moved the position to -1
    all the same, and the next [ReadRune] panics on the index instead of
    reading. *)
Theorem reader_unread_at_start (br : bufreader.t) :
  bufreader.pos br = 0 -> bufreader.err br = None ->
  exists br',
    bufreader.UnreadRune br = (Some bufreader.out_of_bounds, br')
    /\ bufreader.pos br' = -1
    /\ bufreader.buf br' = bufreader.buf br
    /\ bufreader.ReadRune br' = Panic index_out_of_range.
Proof.
  intros Hp He. eexists. split.
  - unfold bufreader.UnreadRune. rewrite Hp. reflexivity.
  - cbn [bufreader.pos bufreader.buf]. split; [reflexivity|]. split; [reflexivity|].
    unfold bufreader.ReadRune. cbn [bufreader.r bufreader.buf bufreader.pos bufreader.err].
    rewrite He. pose proof (len_nonneg (bufreader.buf br)) as Hn.
    change (decr 0) with (-1).
    destruct (-1 <? len (bufreader.buf br)) eqn:E; [|apply Z.ltb_ge in E; lia].
    reflexivity.
Qed.

(** X4.  [Ignore] on a reader with a non-empty buffer keeps the last
    buffered rune, whether or not it had been given back, and puts the
    position before it: the next [ReadRune] returns that rune.  A second
    [Ignore] changes nothing. *)
Theorem reader_Ignore_keeps_last (br : bufreader.t) (pre : list rune) (x : rune) :
  bufreader.buf br = pre ++ [x] -> bufreader.err br = None ->
  let br1 := bufreader.mk (bufreader.r br) [x] 0 None in
  bufreader.Ignore br = Ok br1
  /\ bufreader.Ignore br1 = Ok br1
  /\ bufreader.ReadRune br1 = Ok (x, None, bufreader.mk (bufreader.r br) [x] 1 None).
Proof.
  intros Eb He br1.
  destruct (bufreader_Ignore_ok br) as (b & E & _ & Hb).
  rewrite (Hb pre x Eb), He in E. split; [exact E|].
  split; reflexivity.
Qed.

(** ** The position tracker *)

(** X5.  Fed the characters of a text of fewer than 2^63 characters one
    after the other, [Advance] takes the zero position to: the number of
    newlines of the text, the number of characters after its last
    newline, and its length. *)
Theorem Advance_over_text (s : list rune) :
  len s < 2 ^ 63 ->
  fold_left pos.Advance s pos.zero = position_of s.
Proof.
  induction s as [|c s IH] using rev_ind; intros Hb; [reflexivity|].
  rewrite len_app in Hb. change (len [c]) with 1 in Hb.
  rewrite fold_left_app. simpl. rewrite IH by lia.
  apply Advance_position_of. lia.
Qed.

(** ** Reading, looking ahead and undoing *)

Section further_engine.
Context `{Env}.
Import lexer.

Lemma UnreadRune_err (br : bufreader.t) :
  bufreader.err (snd (bufreader.UnreadRune br)) = bufreader.err br.
Proof.
  unfold bufreader.UnreadRune. simpl.
  now destruct (decr (bufreader.pos br) <? 0).
Qed.

Lemma read_not_failed (br br' : bufreader.t) (c : rune) :
  bufreader.ReadRune br = Ok (c, None, br') -> bufreader.err br' = None.
Proof.
  intros ER.
  destruct (ReadRune_read_inv _ _ _ ER) as (_ & [(_ & _ & ->)|(_ & rest & _ & ->)]);
    reflexivity.
Qed.

Lemma Next_succeeded (l l1 : lexer.t) (c : rune) :
  Next l = Ok (c, l1) -> failed l1 = false ->
  exists br, bufreader.ReadRune (r l) = Ok (c, None, br) /\ l1 = after_read l c br.
Proof.
  intros EN Hf.
  destruct (Next_inv _ _ _ EN) as [(br & ER & ->)|(c0 & e0 & br & ER & _ & ->)].
  - now exists br.
  - destruct (ReadRune_failure_zero _ _ _ _ ER) as [_ Herr].
    unfold failed in Hf. simpl in Hf. rewrite Herr in Hf. discriminate.
Qed.

Lemma Nexts_keep_failed (n : nat) (l l' : lexer.t) (cs : list rune) :
  failed l = true -> Nexts n l = Ok (cs, l') -> failed l' = true.
Proof.
  unfold failed at 1. destruct (bufreader.err (r l)) as [e|] eqn:He; [|discriminate].
  intros _ E. destruct (Nexts_after_failure n l e He) as (l2 & E2 & _ & _ & _ & He2).
  rewrite E2 in E. injection E as _ <-. unfold failed. now rewrite He2.
Qed.

(** X9.  Undoing several characters: when [n] calls of [Next] have all
    read a character, [n] calls of [Backup] return normally and put the
    position, the scan buffer and the saved positions back to what they
    were before the first [Next]; tokens, token start and end-of-source
    flag are untouched. *)
Theorem Backups_undo_Nexts (n : nat) :
  forall (l l1 : lexer.t) (cs : list rune),
    Nexts n l = Ok (cs, l1) -> failed l1 = false ->
    exists l2,
      Backups n l1 = Ok (tt, l2)
      /\ pos l2 = pos l /\ value l2 = value l /\ prevPos l2 = prevPos l
      /\ tokenPos l2 = tokenPos l /\ tokens l2 = tokens l /\ eof l2 = eof l.
Proof.
  induction n as [|n IH]; intros l l1 cs E Hf.
  - injection E as _ <-. exists l. repeat split.
  - cbn [Nexts] in E. rewrite bind_unfold in E.
    destruct (Next l) as [[c la]| |] eqn:EN; try discriminate.
    rewrite bind_unfold in E.
    destruct (Nexts n la) as [[cs' lb]| |] eqn:ENs; try discriminate.
    unfold ret in E. injection E as _ ->.
    assert (Hfa : failed la = false).
    { destruct (failed la) eqn:Hfa; [|reflexivity].
      rewrite (Nexts_keep_failed n la l1 cs' Hfa ENs) in Hf. discriminate. }
    destruct (Next_succeeded l la c EN Hfa) as (br & _ & ->).
    destruct (IH _ _ _ ENs Hf) as (l2 & EB & Hp & Hv & Hpp & Ht & Hto & He).
    eexists. split.
    + cbn [Backups]. rewrite bind_unfold, EB.
      apply (Backup_undo l2 (value l) c (prevPos l) (pos l)); assumption.
    + simpl. repeat split; assumption.
Qed.

(** X10.  [Peek] looks without consuming: on an engine whose reader is
    in order, when a character is there to be read [Peek] returns it and
    leaves position, scan buffer, saved positions, tokens, token start
    and end-of-source flag as they were; a [Next] after the [Peek]
    returns the same character and leads to exactly the state a [Next]
    without the [Peek] leads to, and a second [Peek] repeats the first. *)
Theorem Peek_then_Next (l l1 : lexer.t) (c : rune) :
  reader_ok (r l) ->
  Next l = Ok (c, l1) -> failed l1 = false ->
  exists l2,
    Peek l = Ok (c, l2)
    /\ pos l2 = pos l /\ value l2 = value l /\ prevPos l2 = prevPos l
    /\ tokenPos l2 = tokenPos l /\ tokens l2 = tokens l /\ eof l2 = eof l
    /\ Next l2 = Ok (c, l1)
    /\ Peek l2 = Ok (c, l2).
Proof.
  intros Hok EN Hf.
  destruct (Next_succeeded l l1 c EN Hf) as (br & ER & ->).
  destruct (ReadRune_unread_read (r l) br c Hok ER) as (br2 & EU & ER2 & _).
  assert (EB : Backup (after_read l c br)
               = Ok (tt, lexer.mk br2 (tokens l) (eof l) (value l) (pos l)
                           (tokenPos l) (prevPos l))).
  { rewrite (Backup_undo (after_read l c br) (value l) c (prevPos l) (pos l))
      by reflexivity.
    simpl. now rewrite EU. }
  set (l2 := lexer.mk br2 (tokens l) (eof l) (value l) (pos l) (tokenPos l)
               (prevPos l)) in *.
  assert (EN2 : Next l2 = Ok (c, after_read l c br)).
  { now rewrite (Next_read l2 c br ER2). }
  exists l2. split.
  - unfold Peek. now rewrite bind_unfold, EN, bind_unfold, EB.
  - repeat split; try reflexivity; [exact EN2|].
    unfold Peek. now rewrite bind_unfold, EN2, bind_unfold, EB.
Qed.

(** X11.  [Peek] at the end of the source is not repeatable for ever:
    once the reader has failed, each [Peek] returns [EOF] and leaves the
    scan buffer alone but uses up one saved position; with [n] saved
    positions, [n] calls return and the next one panics (index out of
    range). *)
Theorem Peek_at_end_runs_out (n : nat) :
  forall (l : lexer.t) (e : error),
    bufreader.err (r l) = Some e ->
    List.length (prevPos l) = n ->
    exists l',
      Peeks n l = Ok (repeat EOF n, l')
      /\ prevPos l' = [] /\ value l' = value l
      /\ Peek l' = Panic index_out_of_range.
Proof.
  induction n as [|n IH]; intros l e He Hn.
  - exists l. split; [reflexivity|].
    assert (Hp : prevPos l = []) by (now destruct (prevPos l)).
    split; [exact Hp|]. split; [reflexivity|].
    unfold Peek.
    rewrite bind_unfold, (Next_failed l 0 e (r l) (ReadRune_failed_again _ _ He)).
    rewrite bind_unfold, Backup_empty_prevPos; [reflexivity| |exact Hp].
    simpl. now destruct (value l).
  - destruct (snoc_cases (prevPos l)) as [Ep|(st & p & Ep)];
      [rewrite Ep in Hn; discriminate|].
    pose proof (Next_failed l 0 e (r l) (ReadRune_failed_again _ _ He)) as EN.
    match type of EN with _ = Ok (_, ?x) => set (la := x) in * end.
    pose proof (Backup_undo la (value l) 0 st p eq_refl Ep) as EB.
    match type of EB with _ = Ok (_, ?x) => set (lb := x) in * end.
    assert (Heb : bufreader.err (r lb) = Some e).
    { simpl. now rewrite UnreadRune_err. }
    assert (Hnb : List.length (prevPos lb) = n).
    { simpl. rewrite Ep, length_app in Hn. simpl in Hn. lia. }
    destruct (IH lb e Heb Hnb) as (l' & EP & Hp & Hv & Hpanic).
    exists l'. split.
    + cbn [Peeks]. rewrite bind_unfold. unfold Peek at 1.
      rewrite bind_unfold, EN, bind_unfold, EB. unfold ret at 1.
      rewrite bind_unfold, EP. reflexivity.
    + repeat split; assumption.
Qed.

(** X12.  A failure other than the end of the stream is reported again
    and again: once the reader has recorded such an error, each further
    [Next] returns [EOF] and sends one more error token, with the same
    message and the same position. *)
Theorem Nexts_after_error_report_again (n : nat) :
  forall (l : lexer.t) (e : error),
    bufreader.err (r l) = Some e -> is_io_EOF e = false ->
    exists l',
      Nexts n l = Ok (repeat EOF n, l')
      /\ tokens l'
         = tokens l ++ repeat (error_token l TokError (Sprintf (Error e) [])) n
      /\ pos l' = pos l.
Proof.
  induction n as [|n IH]; intros l e He Hne.
  - exists l. simpl. rewrite app_nil_r. auto.
  - pose proof (Next_failed l 0 e (r l) (ReadRune_failed_again _ _ He)) as EN.
    rewrite Hne in EN.
    match type of EN with _ = Ok (_, ?x) => set (la := x) in * end.
    destruct (IH la e He Hne) as (l' & E & Ht & Hp).
    exists l'. split.
    + cbn [Nexts]. rewrite bind_unfold, EN, bind_unfold, E. reflexivity.
    + rewrite Ht, Hp. simpl. rewrite <- app_assoc. split; reflexivity.
Qed.

End further_engine.

(** ** Runs of calls *)

Section further_runs.
Context `{Env}.
Import lexer.

Lemma sent_since_app (l l' : lexer.t) (ts : list Token.t) :
  tokens l' = tokens l ++ ts -> sent_since l l' = ts.
Proof. intros E. unfold sent_since. rewrite E. apply skipn_length_app. Qed.

Lemma Next_tokens (l l' : lexer.t) (c : rune) :
  Next l = Ok (c, l') ->
  exists ts, tokens l' = tokens l ++ ts /\ (List.length ts <= 1)%nat
             /\ (failed l' = false -> ts = []).
Proof.
  intros E.
  destruct (Next_inv _ _ _ E) as [(br & _ & ->)|(c0 & e0 & br & ER & _ & ->)].
  - exists []. simpl. rewrite app_nil_r. auto.
  - destruct (ReadRune_failure_zero _ _ _ _ ER) as [_ Herr].
    unfold failed. simpl. rewrite Herr.
    destruct (is_io_EOF e0).
    + exists []. rewrite app_nil_r. simpl. repeat split; auto; discriminate.
    + eexists [_]. simpl. repeat split; auto; discriminate.
Qed.

Lemma Backup_failed (l l' : lexer.t) :
  Backup l = Ok (tt, l') -> failed l' = failed l /\ tokens l' = tokens l.
Proof.
  intros E. destruct (Backup_inv _ _ E) as (v & x & st & p & _ & _ & ->).
  unfold failed. simpl. now rewrite UnreadRune_err.
Qed.

Lemma exec_sends (o : op) (l l' : lexer.t) (e : event) :
  exec o l = Ok (e, l') ->
  tokens l' = tokens l ++ sent e /\ sends_as_expected e.
Proof.
  destruct o as [| | | |ty|ty extra|ty s args]; cbn [exec].
  - destruct (Next l) as [[c l1]| |] eqn:E; try discriminate.
    intros E'. injection E' as <- <-.
    destruct (Next_tokens _ _ _ E) as (ts & Ht & Hl & Hf).
    cbn [sent sends_as_expected]. rewrite (sent_since_app _ _ _ Ht). auto.
  - destruct (Peek l) as [[c l1]| |] eqn:E; try discriminate.
    intros E'. injection E' as <- <-.
    destruct (Peek_inv _ _ _ E) as (l2 & EN & EB).
    destruct (Next_tokens _ _ _ EN) as (ts & Ht & Hl & Hf).
    destruct (Backup_failed _ _ EB) as [Hfl Htk].
    rewrite <- Htk in Ht. rewrite <- Hfl in Hf.
    cbn [sent sends_as_expected]. rewrite (sent_since_app _ _ _ Ht). auto.
  - destruct (Backup l) as [[[] l1]| |] eqn:E; try discriminate.
    intros E'. injection E' as <- <-.
    destruct (Backup_failed _ _ E) as [_ Htk].
    cbn [sent sends_as_expected]. rewrite app_nil_r. auto.
  - rewrite bind_unfold. unfold Value. rewrite bind_unfold.
    destruct (Ignore_eq l) as (b & -> & _). unfold ret.
    intros E'. injection E' as <- <-.
    cbn [sent sends_as_expected]. simpl. rewrite app_nil_r. auto.
  - unfold Emit. destruct (EmitExtra_eq ty None l) as (b & -> & _).
    intros E'. injection E' as <- <-.
    cbn [sent sends_as_expected].
    rewrite (sent_since_one l (emitted_token l ty None)) by reflexivity. auto.
  - destruct (EmitExtra_eq ty extra l) as (b & -> & _).
    intros E'. injection E' as <- <-.
    cbn [sent sends_as_expected].
    rewrite (sent_since_one l (emitted_token l ty extra)) by reflexivity. auto.
  - rewrite Errorf_eq. intros E'. injection E' as <- <-.
    cbn [sent sends_as_expected].
    rewrite (sent_since_one l (error_token l ty (Sprintf s args))) by reflexivity.
    auto.
Qed.

(** X13.  Tokens sent stay sent: after any run of calls that returns,
    the token stream is the stream before the run followed by the tokens
    the calls sent, in call order.  Each [Emit], [EmitExtra] and
    [Errorf] sends exactly one token; a [Next] or [Peek] sends at most
    one, and none unless the source has failed; [Backup] and [Ignore]
    send none. *)
Theorem tokens_only_appended (ops : list op) :
  forall (l l' : lexer.t) (evs : list event),
    trace ops l = Ok (evs, l') ->
    tokens l' = tokens l ++ flat_map sent evs
    /\ Forall sends_as_expected evs.
Proof.
  induction ops as [|o ops IH]; intros l l' evs E.
  - injection E as <- <-. simpl. rewrite app_nil_r. auto.
  - destruct (trace_cons_inv _ _ _ _ _ E) as (e & es & l1 & E1 & E2 & ->).
    destruct (exec_sends _ _ _ _ E1) as [Ht1 Hs1].
    destruct (IH _ _ _ E2) as [Ht2 Hs2].
    split; [|now constructor].
    simpl. rewrite Ht2, Ht1, <- app_assoc. reflexivity.
Qed.

Lemma in_step_mono (n m : Z) (l : lexer.t) :
  in_step n l -> n <= m -> in_step m l.
Proof.
  intros [He [Hf|(H1 & H2 & H3)]] Hnm; split; auto.
  right. repeat split; auto. lia.
Qed.

Lemma index_in_range {A : Type} (s : list A) (i : int) :
  0 <= i < len s -> exists x, index s i = Ok x.
Proof.
  intros Hi. unfold index.
  destruct (i <? 0) eqn:E; [apply Z.ltb_lt in E; lia|].
  destruct (nth_error s (Z.to_nat i)) as [x|] eqn:En; [now exists x|].
  apply nth_error_None in En. unfold len in Hi. lia.
Qed.

Lemma in_step_Next_returns (n : Z) (l : lexer.t) :
  in_step n l ->
  exists c l', Next l = Ok (c, l') /\ (eof l = true -> c = EOF).
Proof.
  intros [He Hs].
  destruct (bufreader.ReadRune (r l)) as [[[c [e|]] br]|p|] eqn:ER.
  - do 2 eexists. split; [exact (Next_failed l c e br ER)|]. auto.
  - do 2 eexists. split; [exact (Next_read l c br ER)|].
    intros Heof. rewrite Heof in He. unfold failed in He.
    destruct (ReadRune_read_inv _ _ _ ER) as [Herr _].
    rewrite Herr in He. discriminate.
  - exfalso. unfold bufreader.ReadRune in ER.
    destruct (bufreader.err (r l)) as [e|] eqn:Herr; [discriminate|].
    destruct Hs as [Hf|(H1 & H2 & H3)];
      [unfold failed in Hf; rewrite Herr in Hf; discriminate|].
    destruct (bufreader.pos (r l) <? len (bufreader.buf (r l))) eqn:El.
    + apply Z.ltb_lt in El. pose proof (len_nonneg (value l)) as Hv.
      destruct (index_in_range (bufreader.buf (r l)) (bufreader.pos (r l)))
        as (x & Ex); [lia|].
      rewrite Ex in ER. discriminate.
    + unfold source.ReadRune in ER.
      destruct (source.pending (bufreader.r (r l))); discriminate.
  - exfalso. unfold bufreader.ReadRune in ER.
    destruct (bufreader.err (r l)) as [e|] eqn:Herr; [discriminate|].
    destruct Hs as [Hf|(H1 & H2 & H3)];
      [unfold failed in Hf; rewrite Herr in Hf; discriminate|].
    destruct (bufreader.pos (r l) <? len (bufreader.buf (r l))) eqn:El.
    + apply Z.ltb_lt in El. pose proof (len_nonneg (value l)) as Hv.
      destruct (index_in_range (bufreader.buf (r l)) (bufreader.pos (r l)))
        as (x & Ex); [lia|].
      rewrite Ex in ER. discriminate.
    + unfold source.ReadRune in ER.
      destruct (source.pending (bufreader.r (r l))); discriminate.
Qed.

Lemma Next_in_step (n : Z) (l l' : lexer.t) (c : rune) :
  in_step n l -> n < 2 ^ 63 - 1 -> Next l = Ok (c, l') -> in_step (n + 1) l'.
Proof.
  intros [He Hs] Hn E.
  destruct (Next_inv _ _ _ E) as [(br & ER & ->)|(c0 & e0 & br & ER & _ & ->)].
  - destruct (ReadRune_read_inv _ _ _ ER)
      as (Herr & [(Hlt & _ & ->)|(Hge & rest & _ & ->)]);
      (destruct Hs as [Hf|(H1 & H2 & H3)];
       [unfold failed in Hf; rewrite Herr in Hf; discriminate|]);
      (split; [unfold failed in *; simpl; now rewrite Herr in He|]);
      right; simpl; rewrite !len_app; change (len [c]) with 1.
    + pose proof (len_nonneg (value l)) as Hv.
      rewrite incr_small by lia. lia.
    + lia.
  - destruct (ReadRune_failure_zero _ _ _ _ ER) as [_ Herr].
    split; unfold failed; simpl; rewrite Herr; auto.
Qed.

Lemma Backup_in_step (n : Z) (l l' : lexer.t) :
  in_step n l -> n <= 2 ^ 63 - 1 -> Backup l = Ok (tt, l') -> in_step n l'.
Proof.
  intros [He Hs] Hn E.
  destruct (Backup_inv _ _ E) as (v & x & st & p & Ev & _ & ->).
  split; [unfold failed in *; simpl; now rewrite UnreadRune_err|].
  destruct Hs as [Hf|(H1 & H2 & H3)].
  - left. unfold failed in *. simpl. now rewrite UnreadRune_err.
  - right. simpl. rewrite Ev, len_app in H1. change (len [x]) with 1 in H1.
    pose proof (len_nonneg v) as Hv.
    unfold bufreader.UnreadRune. simpl.
    rewrite decr_small by lia.
    destruct (bufreader.pos (r l) - 1 <? 0); simpl; lia.
Qed.

Lemma flush_in_step (n : Z) (l : lexer.t) (b : list rune)
    (tk : list Token.t) :
  in_step n l ->
  (bufreader.buf (r l) = [] -> b = []) ->
  (forall pre x, bufreader.buf (r l) = pre ++ [x] -> b = [x]) ->
  in_step n (lexer.mk (bufreader.mk (bufreader.r (r l)) b 0 (bufreader.err (r l)))
               tk (eof l) [] (pos l) (pos l) (prevPos l)).
Proof.
  intros [He Hs] H1 H2. split; [exact He|].
  destruct Hs as [Hf|(Ha & Hb & Hc)]; [now left|]. right. simpl.
  change (len (@nil rune)) with 0.
  destruct (snoc_cases (bufreader.buf (r l))) as [E|(pre & x & E)].
  - rewrite (H1 E). rewrite E in Hc. change (len (@nil rune)) with 0 in *. lia.
  - rewrite (H2 pre x E). rewrite E, len_app in Hc.
    change (len [x]) with 1 in *. pose proof (len_nonneg pre). lia.
Qed.

Lemma exec_in_step (n : Z) (o : op) (l l' : lexer.t) (e : event) :
  in_step n l -> n < 2 ^ 63 - 1 -> exec o l = Ok (e, l') -> in_step (n + 1) l'.
Proof.
  intros Hi Hn.
  destruct o as [| | | |ty|ty extra|ty s args]; cbn [exec].
  - destruct (Next l) as [[c l1]| |] eqn:E; try discriminate.
    intros E'. injection E' as _ <-. exact (Next_in_step n l l1 c Hi Hn E).
  - destruct (Peek l) as [[c l1]| |] eqn:E; try discriminate.
    intros E'. injection E' as _ <-.
    destruct (Peek_inv _ _ _ E) as (l2 & EN & EB).
    apply (Backup_in_step (n + 1) l2 l1); [|lia|exact EB].
    exact (Next_in_step n l l2 c Hi Hn EN).
  - destruct (Backup l) as [[[] l1]| |] eqn:E; try discriminate.
    intros E'. injection E' as _ <-.
    apply (in_step_mono n); [|lia].
    apply (Backup_in_step n l l1 Hi); [lia|exact E].
  - rewrite bind_unfold. unfold Value. rewrite bind_unfold.
    destruct (Ignore_eq l) as (b & -> & H1 & H2). unfold ret.
    intros E'. injection E' as _ <-.
    apply (in_step_mono n); [|lia]. now apply flush_in_step.
  - unfold Emit. destruct (EmitExtra_eq ty None l) as (b & -> & H1 & H2).
    intros E'. injection E' as _ <-.
    apply (in_step_mono n); [|lia]. now apply flush_in_step.
  - destruct (EmitExtra_eq ty extra l) as (b & -> & H1 & H2).
    intros E'. injection E' as _ <-.
    apply (in_step_mono n); [|lia]. now apply flush_in_step.
  - rewrite Errorf_eq. intros E'. injection E' as _ <-.
    apply (in_step_mono n); [|lia]. exact Hi.
Qed.

Lemma trace_in_step (ops : list op) :
  forall (n : Z) (l l' : lexer.t) (evs : list event),
    in_step n l -> n + len ops < 2 ^ 63 ->
    trace ops l = Ok (evs, l') -> in_step (n + len ops) l'.
Proof.
  induction ops as [|o ops IH]; intros n l l' evs Hi Hb E.
  - injection E as _ <-. apply (in_step_mono n); [exact Hi|].
    change (len (@nil op)) with 0. lia.
  - destruct (trace_cons_inv _ _ _ _ _ E) as (e & es & l1 & E1 & E2 & _).
    change (o :: ops) with ([o] ++ ops) in *. rewrite len_app in *.
    change (len [o]) with 1 in *. pose proof (len_nonneg ops) as Hl.
    replace (n + (1 + len ops)) with ((n + 1) + len ops) by lia.
    apply (IH (n + 1) l1 l' es); [|lia|exact E2].
    apply (exec_in_step n o l l1 e Hi); [lia|exact E1].
Qed.

(** X14.  [Next] never panics, whatever was called before: after any
    run of fewer than 2^63 calls from a fresh engine that has returned,
    [Next] returns; the end-of-source flag is set exactly when the
    reader has recorded a failure, and once it is set [Next] returns
    [EOF]. *)
Theorem Next_returns_in_every_run (src : source.t) (ops : list op)
    (evs : list event) (l : lexer.t) :
  len ops < 2 ^ 63 ->
  trace ops (NewLexer src) = Ok (evs, l) ->
  eof l = failed l
  /\ exists c l', Next l = Ok (c, l') /\ (eof l = true -> c = EOF).
Proof.
  intros Hb E.
  assert (H0 : in_step 0 (NewLexer src)).
  { split; [reflexivity|]. right. simpl. change (len (@nil rune)) with 0. lia. }
  pose proof (trace_in_step ops 0 _ _ _ H0 ltac:(lia) E) as Hi.
  split; [exact (proj1 Hi)|].
  exact (in_step_Next_returns _ l Hi).
Qed.

(** X15.  [Ignore], [Emit] and [EmitExtra] keep the character read
    last: when the reader holds nothing that was given back and the
    source has a character [c] to give, then after [Next] (which returns
    [c]) and [Ignore], or [Next] and [EmitExtra], the following [Next]
    returns the same [c] a second time, with the source one character
    further only. *)
Theorem flush_after_Next_reads_again (l : lexer.t) (c : rune)
    (rest : list rune) (t : TokenType) (extra : option any) :
  bufreader.err (r l) = None ->
  bufreader.pos (r l) = len (bufreader.buf (r l)) ->
  source.pending (bufreader.r (r l)) = c :: rest ->
  exists l1 l2 l3 l2' l3',
    Next l = Ok (c, l1)
    /\ Ignore l1 = Ok (tt, l2) /\ Next l2 = Ok (c, l3)
    /\ value l3 = [c] /\ source.pending (bufreader.r (r l3)) = rest
    /\ EmitExtra t extra l1 = Ok (tt, l2') /\ Next l2' = Ok (c, l3')
    /\ value l3' = [c] /\ source.pending (bufreader.r (r l3')) = rest
    /\ tokens l3' = tokens l ++ [emitted_token l1 t extra].
Proof.
  intros Herr Hpos Hpend.
  assert (ER : bufreader.ReadRune (r l)
               = Ok (c, None,
                     bufreader.mk (source.mk rest (source.failure (bufreader.r (r l))))
                       (bufreader.buf (r l) ++ [c])
                       (len (bufreader.buf (r l) ++ [c])) None)).
  { unfold bufreader.ReadRune. rewrite Herr, Hpos, Z.ltb_irrefl.
    unfold source.ReadRune. rewrite Hpend. reflexivity. }
  pose proof (Next_read l c _ ER) as EN.
  match type of EN with _ = Ok (_, ?x) => set (l1 := x) in * end.
  destruct (Ignore_eq l1) as (b & EI & _ & Hb).
  destruct (EmitExtra_eq t extra l1) as (b' & EE & _ & Hb').
  rewrite (Hb (bufreader.buf (r l)) c eq_refl) in EI.
  rewrite (Hb' (bufreader.buf (r l)) c eq_refl) in EE.
  match type of EI with _ = Ok (_, ?x) => set (l2 := x) in * end.
  match type of EE with _ = Ok (_, ?x) => set (l2' := x) in * end.
  assert (ER2 : bufreader.ReadRune (r l2)
                = Ok (c, None,
                      bufreader.mk (source.mk rest (source.failure (bufreader.r (r l))))
                        [c] 1 None)) by reflexivity.
  assert (ER2' : bufreader.ReadRune (r l2')
                 = Ok (c, None,
                       bufreader.mk (source.mk rest (source.failure (bufreader.r (r l))))
                         [c] 1 None)) by reflexivity.
  exists l1, l2. eexists. exists l2'. eexists.
  split; [exact EN|]. split; [exact EI|].
  split; [exact (Next_read l2 c _ ER2)|].
  split; [reflexivity|]. split; [reflexivity|].
  split; [exact EE|].
  split; [exact (Next_read l2' c _ ER2')|].
  repeat split.
Qed.

(** X16.  [Ignore] twice is [Ignore] once, and an [Ignore] after
    [EmitExtra] changes nothing: both leave the scan buffer empty, the
    token start at the current position and the reader at the start of a
    buffer of at most one character, which a further [Ignore] keeps. *)
Theorem Ignore_idempotent (l : lexer.t) (t : TokenType) (extra : option any) :
  (Ignore ;; Ignore) l = Ignore l
  /\ (EmitExtra t extra ;; Ignore) l = EmitExtra t extra l.
Proof.
  assert (Hflush : forall (rd : source.t) (b : list rune) (err : option error)
                          (tk : list Token.t) (e : bool) (p : pos.t)
                          (pp : list pos.t),
             (b = [] \/ exists x, b = [x]) ->
             Ignore (lexer.mk (bufreader.mk rd b 0 err) tk e [] p p pp)
             = Ok (tt, lexer.mk (bufreader.mk rd b 0 err) tk e [] p p pp)).
  { intros rd b err tk e p pp Hb.
    destruct (Ignore_eq (lexer.mk (bufreader.mk rd b 0 err) tk e [] p p pp))
      as (b2 & -> & H1 & H2). simpl in *.
    destruct Hb as [->|(x & ->)].
    - now rewrite (H1 eq_refl).
    - now rewrite (H2 [] x eq_refl). }
  assert (Hb : forall (b : list rune),
             (bufreader.buf (r l) = [] -> b = []) ->
             (forall pre x, bufreader.buf (r l) = pre ++ [x] -> b = [x]) ->
             b = [] \/ exists x, b = [x]).
  { intros b H1 H2.
    destruct (snoc_cases (bufreader.buf (r l))) as [E|(pre & x & E)];
      [left; auto|right; exists x; eauto]. }
  split.
  - rewrite bind_unfold. destruct (Ignore_eq l) as (b & -> & H1 & H2).
    apply Hflush. now apply Hb.
  - rewrite bind_unfold. destruct (EmitExtra_eq t extra l) as (b & -> & H1 & H2).
    apply Hflush. now apply Hb.
Qed.

End further_runs.

(** ** The earlier engine: one level of undo *)

Section further_earlier.
Context `{Env}.
Import earlier.

(** X8.  The earlier engine undoes one character only: after two calls
    of [Next] that read [c1] and [c2], the first [Backup] gives [c2]
    back and restores the position after [c1]; a second [Backup] returns
    normally and takes [c1] out of the scan buffer, but the position
    stays after [c1] and the reader still has [c2] next, so [c1] is lost
    to the token. *)
Theorem second_Backup_earlier (lex : Lexer) (c1 c2 : rune) (rest : list rune) :
  pending (r lex) = c1 :: c2 :: rest ->
  exists lex3 lex4,
    Backup (snd (Next (snd (Next lex)))) = Ok lex3
    /\ value lex3 = value lex ++ [c1]
    /\ pos lex3 = pos.Advance (pos lex) c1
    /\ pending (r lex3) = c2 :: rest
    /\ Backup lex3 = Ok lex4
    /\ value lex4 = value lex
    /\ pos lex4 = pos.Advance (pos lex) c1
    /\ pending (r lex4) = c2 :: rest.
Proof.
  intros Ep. unfold Next at 2, ReadRune. rewrite Ep. simpl.
  unfold Next, ReadRune. simpl.
  unfold Backup at 1. simpl. rewrite slice_to_last. simpl.
  rewrite !pos_CopyTo_id.
  eexists. eexists. split; [reflexivity|]. simpl.
  do 3 (split; [reflexivity|]).
  unfold Backup. simpl. rewrite slice_to_last. simpl.
  rewrite !pos_CopyTo_id. split; [reflexivity|]. simpl.
  repeat split.
Qed.

End further_earlier.

(** ** The further statements at concrete inputs *)

Section witnesses_reader.

Lemma reader_rereads_what_was_unread_witness :
  let br := bufreader.newbufreader (source.of_string (runes "ab")) in
  let br1 := bufreader.mk (source.mk (runes "b") io_EOF) (runes "a") 1 None in
  reader_ok br
  /\ bufreader.ReadRune br = Ok (97, None, br1)
  /\ exists br2,
       bufreader.UnreadRune br1 = (None, br2)
       /\ bufreader.ReadRune br2 = Ok (97, None, br1)
       /\ bufreader.r br2 = bufreader.r br1.
Proof.
  intros br br1.
  assert (Hok : reader_ok br).
  { split; [reflexivity|]. split; [split; discriminate|reflexivity]. }
  split; [exact Hok|]. split; [reflexivity|].
  exact (reader_rereads_what_was_unread br br1 97 Hok eq_refl).
Defined.

Lemma reader_unread_at_start_witness :
  let br := bufreader.newbufreader (source.of_string (runes "a")) in
  bufreader.pos br = 0 /\ bufreader.err br = None
  /\ exists br',
       bufreader.UnreadRune br = (Some bufreader.out_of_bounds, br')
       /\ bufreader.pos br' = -1
       /\ bufreader.buf br' = bufreader.buf br
       /\ bufreader.ReadRune br' = Panic index_out_of_range.
Proof.
  intros br. split; [reflexivity|]. split; [reflexivity|].
  exact (reader_unread_at_start br eq_refl eq_refl).
Defined.

Lemma reader_Ignore_keeps_last_witness :
  let br := bufreader.mk (source.of_string []) (runes "ab") 2 None in
  let br1 := bufreader.mk (source.of_string []) (runes "b") 0 None in
  bufreader.buf br = runes "a" ++ [98] /\ bufreader.err br = None
  /\ bufreader.Ignore br = Ok br1
  /\ bufreader.Ignore br1 = Ok br1
  /\ bufreader.ReadRune br1
     = Ok (98, None, bufreader.mk (source.of_string []) (runes "b") 1 None).
Proof.
  intros br br1. split; [reflexivity|]. split; [reflexivity|].
  exact (reader_Ignore_keeps_last br (runes "a") 98 eq_refl eq_refl).
Defined.

Lemma Advance_over_text_witness :
  let s := runes "a" ++ [10] ++ runes "b" in
  len s < 2 ^ 63
  /\ fold_left pos.Advance s pos.zero = pos.mk 1 1 3.
Proof.
  intros s. split; [reflexivity|].
  exact (Advance_over_text s eq_refl).
Defined.

End witnesses_reader.

Section witnesses_engine.
#[local] Existing Instance plain_env.
Import lexer.

Lemma Next_Backup_failed_witness :
  let l := lexer.mk (bufreader.mk (source.of_string []) (runes "a") 1 None)
             [] false (runes "a") (pos.mk 0 1 1) pos.zero [pos.zero] in
  bufreader.ReadRune (r l)
  = Ok (0, Some io_EOF,
        bufreader.mk (source.of_string []) (runes "a") 1 (Some io_EOF))
  /\ exists l1 l2,
       Next l = Ok (EOF, l1) /\ Backup l1 = Ok (tt, l2)
       /\ value l2 = runes "a" /\ pos l2 = pos.zero /\ prevPos l2 = [].
Proof.
  intros l. split; [reflexivity|].
  destruct (Next_Backup_failed l 0 io_EOF _ eq_refl) as (l1 & EN & _ & Hb).
  destruct (Hb [] pos.zero eq_refl) as (l2 & EB & Hv & Hp & Hpp).
  exists l1, l2. repeat split; first [assumption|reflexivity].
Defined.

Lemma position_before_EOF_witness :
  exists evs l,
    len sample_ops < 2 ^ 63
    /\ trace sample_ops (NewLexer (source.of_string (runes "ab c"))) = Ok (evs, l)
    /\ Forall (fun e => returned_EOF e = false) evs
    /\ Line l = Ok (0, l) /\ Col l = Ok (2, l) /\ Pos l = Ok (2, l).
Proof.
  pose proof sample_run_eq as Ht. unfold sample_run in Ht.
  assert (Hb : len sample_ops < 2 ^ 63) by reflexivity.
  do 2 eexists. split; [exact Hb|]. split; [exact Ht|].
  split; [repeat constructor|].
  apply (position_before_EOF _ _ _ _ Hb Ht). repeat constructor.
Defined.

Lemma Backups_undo_Nexts_witness :
  let l := NewLexerString (runes "ab") in
  exists l1 l2,
    Nexts 2 l = Ok ([97; 98], l1) /\ failed l1 = false
    /\ Backups 2 l1 = Ok (tt, l2)
    /\ pos l2 = pos.zero /\ value l2 = [] /\ prevPos l2 = [].
Proof.
  intros l.
  pose (l1 := match Nexts 2 l with Ok (_, x) => x | _ => l end).
  assert (E : Nexts 2 l = Ok ([97; 98], l1)) by reflexivity.
  destruct (Backups_undo_Nexts 2 l l1 _ E eq_refl)
    as (l2 & EB & Hp & Hv & Hpp & _).
  exists l1, l2. repeat split; first [assumption|reflexivity].
Defined.

Lemma Peek_then_Next_witness :
  let l := NewLexerString (runes "ab") in
  exists l1 l2,
    reader_ok (r l) /\ Next l = Ok (97, l1) /\ failed l1 = false
    /\ Peek l = Ok (97, l2) /\ pos l2 = pos.zero /\ value l2 = []
    /\ Next l2 = Ok (97, l1).
Proof.
  intros l.
  pose (l1 := match Next l with Ok (_, x) => x | _ => l end).
  assert (Hok : reader_ok (r l)).
  { split; [reflexivity|]. split; [split; discriminate|reflexivity]. }
  assert (E : Next l = Ok (97, l1)) by reflexivity.
  destruct (Peek_then_Next l l1 97 Hok E eq_refl)
    as (l2 & EP & Hp & Hv & _ & _ & _ & _ & EN & _).
  exists l1, l2. repeat split; first [assumption|reflexivity].
Defined.

Lemma Peek_at_end_runs_out_witness :
  let l := lexer.mk (bufreader.mk (source.of_string []) (runes "a") 1 (Some io_EOF))
             [] true (runes "a" ++ [0]) (pos.mk 0 1 1) pos.zero [pos.zero] in
  bufreader.err (r l) = Some io_EOF /\ List.length (prevPos l) = 1%nat
  /\ exists l',
       Peeks 1 l = Ok ([EOF], l') /\ prevPos l' = []
       /\ Peek l' = Panic index_out_of_range.
Proof.
  intros l. split; [reflexivity|]. split; [reflexivity|].
  destruct (Peek_at_end_runs_out 1 l io_EOF eq_refl eq_refl)
    as (l' & EP & Hp & _ & Hpanic).
  exists l'. repeat split; first [assumption|reflexivity].
Defined.

Lemma Nexts_after_error_report_again_witness :
  let e := other_error (runes "broken") in
  let l := lexer.mk (bufreader.mk (brokenReader []) [] 0 (Some e))
             [] true [0] pos.zero pos.zero [] in
  bufreader.err (r l) = Some e /\ is_io_EOF e = false
  /\ exists l',
       Nexts 2 l = Ok ([EOF; EOF], l')
       /\ tokens l' = [Token.mk TokError (runes "broken") 0 0 0 None;
                       Token.mk TokError (runes "broken") 0 0 0 None].
Proof.
  intros e l. split; [reflexivity|]. split; [reflexivity|].
  destruct (Nexts_after_error_report_again 2 l e eq_refl eq_refl)
    as (l' & E & Ht & _).
  exists l'. repeat split; first [assumption|reflexivity].
Defined.

Lemma tokens_only_appended_witness :
  exists evs l,
    trace sample_ops (NewLexer (source.of_string (runes "ab c"))) = Ok (evs, l)
    /\ tokens l = flat_map sent evs
    /\ Forall sends_as_expected evs.
Proof.
  pose proof sample_run_eq as Ht. unfold sample_run in Ht.
  do 2 eexists. split; [exact Ht|].
  exact (tokens_only_appended _ _ _ _ Ht).
Defined.

Lemma Next_returns_in_every_run_witness :
  exists evs l,
    len sample_ops < 2 ^ 63
    /\ trace sample_ops (NewLexer (source.of_string (runes "ab c"))) = Ok (evs, l)
    /\ eof l = failed l
    /\ exists c l', Next l = Ok (c, l') /\ (eof l = true -> c = EOF).
Proof.
  pose proof sample_run_eq as Ht. unfold sample_run in Ht.
  assert (Hb : len sample_ops < 2 ^ 63) by reflexivity.
  do 2 eexists. split; [exact Hb|]. split; [exact Ht|].
  exact (Next_returns_in_every_run _ _ _ _ Hb Ht).
Defined.

Lemma flush_after_Next_reads_again_witness :
  let l := NewLexerString (runes "ab") in
  bufreader.err (r l) = None
  /\ bufreader.pos (r l) = len (bufreader.buf (r l))
  /\ source.pending (bufreader.r (r l)) = 97 :: runes "b"
  /\ exists l1 l2 l3,
       Next l = Ok (97, l1) /\ Ignore l1 = Ok (tt, l2) /\ Next l2 = Ok (97, l3)
       /\ value l3 = [97].
Proof.
  intros l. split; [reflexivity|]. split; [reflexivity|]. split; [reflexivity|].
  destruct (flush_after_Next_reads_again l 97 (runes "b") 0 None
              eq_refl eq_refl eq_refl)
    as (l1 & l2 & l3 & _ & _ & EN & EI & EN2 & Hv & _).
  exists l1, l2, l3. repeat split; first [assumption|reflexivity].
Defined.

End witnesses_engine.

Section witnesses_earlier.
#[local] Existing Instance plain_env.
Import earlier.

Lemma Next_Backup_read_earlier_witness :
  let lex := NewLexer (runes "ab") io_EOF in
  pending (r lex) = 97 :: runes "b"
  /\ exists lex1 lex2,
       Next lex = (97, lex1) /\ Backup lex1 = Ok lex2
       /\ pos lex2 = pos.zero /\ value lex2 = []
       /\ pending (r lex2) = runes "ab".
Proof.
  intros lex. split; [reflexivity|].
  exact (Next_Backup_read_earlier lex 97 (runes "b") eq_refl).
Defined.

Lemma Next_Backup_failed_earlier_witness :
  let lex := snd (Next (NewLexer (runes "a") io_EOF)) in
  pending (r lex) = []
  /\ exists lex1 lex2,
       Next lex = (EOF, lex1)
       /\ value lex1 = runes "a" ++ [0] /\ pos lex1 = pos.mk 0 1 1
       /\ eof lex1 = true
       /\ Backup lex1 = Ok lex2
       /\ value lex2 = runes "a" /\ pos lex2 = pos.zero.
Proof.
  intros lex. split; [reflexivity|].
  exact (Next_Backup_failed_earlier lex eq_refl).
Defined.

Lemma second_Backup_earlier_witness :
  let lex := NewLexer (runes "abc") io_EOF in
  pending (r lex) = 97 :: 98 :: runes "c"
  /\ exists lex3 lex4,
       Backup (snd (Next (snd (Next lex)))) = Ok lex3
       /\ value lex3 = runes "a"
       /\ pos lex3 = pos.mk 0 1 1
       /\ pending (r lex3) = runes "bc"
       /\ Backup lex3 = Ok lex4
       /\ value lex4 = []
       /\ pos lex4 = pos.mk 0 1 1
       /\ pending (r lex4) = runes "bc".
Proof.
  intros lex. split; [reflexivity|].
  exact (second_Backup_earlier lex 97 98 (runes "c") eq_refl).
Defined.

End witnesses_earlier.

(** ** The word/space machine on any input *)

Section word_machine.
Context `{Env}.
Import lexer.

Lemma skipn_nil_length {A : Type} (n : nat) (l : list A) :
  skipn n l = [] -> (List.length l <= n)%nat.
Proof.
  intros E. pose proof (length_skipn n l) as Hl. rewrite E in Hl.
  simpl in Hl. lia.
Qed.

Lemma scanning_all (s : list rune) (e : error) (done : list rune)
    (l : lexer.t) :
  scanning s e done l -> done ++ value l ++ unread l = s.
Proof. intros (_ & _ & _ & Ha & _). now apply accounted_all. Qed.

Lemma scanning_in_step (s : list rune) (e : error) (done : list rune)
    (l : lexer.t) :
  scanning s e done l -> in_step (len (bufreader.buf (r l))) l.
Proof.
  intros (Hf & He & _ & [_ Ha] & _). split; [now rewrite Hf, He|].
  right. rewrite Hf in Ha. destruct Ha as (Hp & Hv & _).
  rewrite Hv. unfold len at 1. rewrite length_firstn.
  unfold len in *. lia.
Qed.

Lemma scanning_Next (s : list rune) (e : error) (done : list rune)
    (l : lexer.t) (c : rune) (todo : list rune) :
  len s < 2 ^ 63 -> scanning s e done l -> unread l = c :: todo ->
  exists l',
    Next l = Ok (c, l') /\ scanning s e done l'
    /\ value l' = value l ++ [c] /\ unread l' = todo
    /\ tokens l' = tokens l
    /\ bufreader.pos (r l') = len (bufreader.buf (r l')).
Proof.
  intros Hb Hs Hu.
  pose proof (scanning_all _ _ _ _ Hs) as Hall.
  pose proof (scanning_in_step _ _ _ _ Hs) as Hin.
  destruct Hs as (Hf & He & Hio & Ha & Ht & Htp & Hla).
  destruct (in_step_Next_returns _ l Hin) as (c0 & l0 & EN & _).
  destruct (Next_inv _ _ _ EN) as [(br & ER & ->)|(c1 & e1 & br & ER & _ & _)].
  - destruct (accounted_read s done l c0 br Hb Ha ER) as [Ha' Hf'].
    pose proof (accounted_all _ _ _ Ha') as Hall'.
    assert (Hc : c0 :: unread (after_read l c0 br) = c :: todo).
    { rewrite <- Hall in Hall'. rewrite Hu in Hall'.
      apply app_inv_head in Hall'. simpl in Hall'.
      rewrite <- app_assoc in Hall'. apply app_inv_head in Hall'.
      exact Hall'. }
    injection Hc as -> Hu'.
    assert (Hlen : len (done ++ value l) < 2 ^ 63 - 1).
    { rewrite <- Hall, Hu in Hb. rewrite !len_app in *.
      change (c :: todo) with ([c] ++ todo) in Hb. rewrite len_app in Hb.
      change (len [c]) with 1 in Hb. pose proof (len_nonneg todo). lia. }
    pose proof (accounted_buf_len _ _ _ Ha Hf) as Hbl.
    assert (Hpos : 0 <= bufreader.pos (r l) <= len (bufreader.buf (r l))).
    { destruct Ha as [_ Ha]. rewrite Hf in Ha. tauto. }
    exists (after_read l c br). split; [exact EN|].
    destruct (ReadRune_read_inv _ _ _ ER)
      as (_ & [(Hlt & _ & Ebr)|(Hge & rest & _ & Ebr)]).
    + assert (Ei : incr (bufreader.pos (r l)) = len (bufreader.buf (r l))).
      { rewrite incr_small by lia. lia. }
      split; [|split; [reflexivity|split; [exact Hu'|split; [reflexivity|]]]].
      * split; [exact Hf'|]. split; [exact He|].
        split; [rewrite Ebr; exact Hio|]. split; [exact Ha'|].
        split; [simpl; rewrite app_assoc; now apply tracks_read|].
        split; [exact Htp|]. rewrite Ebr. simpl. lia.
      * rewrite Ebr. simpl. exact Ei.
    + split; [|split; [reflexivity|split; [exact Hu'|split; [reflexivity|]]]].
      * split; [exact Hf'|]. split; [exact He|].
        split; [rewrite Ebr; exact Hio|]. split; [exact Ha'|].
        split; [simpl; rewrite app_assoc; now apply tracks_read|].
        split; [exact Htp|]. rewrite Ebr. simpl. lia.
      * rewrite Ebr. reflexivity.
  - exfalso.
    destruct (ReadRune_failure_inv _ _ _ _ ER) as [(Herr & _)|(_ & Hge & Hp & _)].
    + unfold failed in Hf. rewrite Herr in Hf. discriminate.
    + unfold unread in Hu. rewrite Hf, Hp, app_nil_r in Hu.
      rewrite skipn_all2 in Hu; [discriminate|].
      destruct Ha as [_ Ha]. rewrite Hf in Ha. unfold len in *. lia.
Qed.

Lemma scanning_Next_Backup (s : list rune) (e : error) (done : list rune)
    (l : lexer.t) (c : rune) (todo : list rune) :
  len s < 2 ^ 63 -> scanning s e done l -> unread l = c :: todo ->
  exists l1 l2,
    Next l = Ok (c, l1) /\ Backup l1 = Ok (tt, l2)
    /\ scanning s e done l2 /\ value l2 = value l /\ unread l2 = c :: todo
    /\ tokens l2 = tokens l /\ one_unread l2 = true.
Proof.
  intros Hb Hs Hu.
  pose proof (scanning_all _ _ _ _ Hs) as Hall.
  destruct (scanning_Next s e done l c todo Hb Hs Hu)
    as (l1 & EN & Hs1 & Hv1 & Hu1 & Htk1 & Hp1).
  destruct Hs1 as (Hf1 & He1 & Hio1 & Ha1 & Ht1 & Htp1 & Hla1).
  destruct (snoc_cases (prevPos l1)) as [Ep|(st & p & Ep)].
  { exfalso. destruct Ht1 as (_ & Hn & _). rewrite Ep, Hv1, !length_app in Hn.
    simpl in Hn. lia. }
  pose proof (Backup_undo l1 (value l) c st p Hv1 Ep) as EB.
  match type of EB with _ = Ok (_, ?x) => set (l2 := x) in * end.
  pose proof (accounted_undo s done l1 l2 Hb Ha1 Hf1 EB) as Ha2.
  destruct (Backup_failed _ _ EB) as [Hf2 Htk2].
  pose proof (tracks_undo _ _ _ Ht1 EB) as Ht2.
  rewrite Hv1, app_assoc, removelast_last in Ht2.
  pose proof (accounted_buf_len _ _ _ Ha1 Hf1) as Hbl.
  assert (Hne : 0 < len (bufreader.buf (r l1))).
  { destruct Ha1 as [_ Ha1]. rewrite Hf1 in Ha1. destruct Ha1 as (_ & Hv & _).
    rewrite Hp1, firstn_len, Hv1 in Hv.
    rewrite <- Hv, len_app. change (len [c]) with 1.
    pose proof (len_nonneg (value l)). lia. }
  assert (Hpos2 : bufreader.pos (r l2) = len (bufreader.buf (r l2)) - 1).
  { simpl. unfold bufreader.UnreadRune. simpl.
    rewrite Hp1, decr_small by lia.
    destruct (len (bufreader.buf (r l1)) - 1 <? 0); reflexivity. }
  assert (Hs2 : scanning s e done l2).
  { split; [now rewrite Hf2|]. split; [exact He1|].
    split; [simpl; unfold bufreader.UnreadRune; simpl;
            destruct (decr (bufreader.pos (r l1)) <? 0); exact Hio1|].
    split; [exact Ha2|]. split; [exact Ht2|]. split; [exact Htp1|].
    rewrite Hpos2. lia. }
  exists l1, l2. split; [exact EN|]. split; [exact EB|].
  split; [exact Hs2|]. split; [reflexivity|].
  split.
  { pose proof (scanning_all _ _ _ _ Hs2) as Hall2.
    rewrite <- Hall, Hu in Hall2. simpl in Hall2.
    apply app_inv_head in Hall2. apply app_inv_head in Hall2. exact Hall2. }
  split; [now rewrite Htk2|].
  unfold one_unread. rewrite Hpos2, Z.eqb_refl. now rewrite orb_true_r.
Qed.

Lemma scanning_Next_Backup_end (s : list rune) (e : error)
    (done : list rune) (l : lexer.t) :
  scanning s e done l -> unread l = [] -> s <> [] ->
  exists l1 l2,
    Next l = Ok (EOF, l1) /\ Backup l1 = Ok (tt, l2)
    /\ value l2 = value l /\ tokens l2 = tokens l ++ failure_tokens e s
    /\ eof l2 = true /\ tokenPos l2 = tokenPos l.
Proof.
  intros Hs Hu Hne.
  pose proof (scanning_all _ _ _ _ Hs) as Hall.
  destruct Hs as (Hf & He & Hio & Ha & Ht & Htp & Hla).
  assert (Herr : bufreader.err (r l) = None).
  { unfold failed in Hf. now destruct (bufreader.err (r l)). }
  unfold unread in Hu. rewrite Hf in Hu.
  apply app_eq_nil in Hu. destruct Hu as [Hsk Hp].
  apply skipn_nil_length in Hsk.
  destruct Ha as [_ Ha]. rewrite Hf in Ha. destruct Ha as (Hpos & _ & _).
  assert (ER : bufreader.ReadRune (r l)
               = Ok (0, Some e,
                     bufreader.mk (bufreader.r (r l)) (bufreader.buf (r l))
                       (bufreader.pos (r l)) (Some e))).
  { unfold bufreader.ReadRune. rewrite Herr.
    destruct (bufreader.pos (r l) <? len (bufreader.buf (r l))) eqn:El;
      [apply Z.ltb_lt in El; unfold len in *; lia|].
    unfold source.ReadRune. rewrite Hp, Hio. reflexivity. }
  pose proof (Next_failed l 0 e _ ER) as EN.
  match type of EN with _ = Ok (_, ?x) => set (l1 := x) in * end.
  assert (Hdone : done ++ value l = s).
  { rewrite <- Hall. unfold unread. rewrite Hf, Hp, app_nil_r.
    rewrite skipn_all2 by lia. now rewrite app_nil_r. }
  destruct (snoc_cases (prevPos l)) as [Ep|(st & p & Ep)].
  { exfalso. destruct Ht as (_ & Hn & _). rewrite Ep in Hn. simpl in Hn.
    unfold unread in Hall. rewrite Hf in Hall.
    symmetry in Hn. apply length_zero_iff_nil in Hn.
    apply Hne. rewrite <- Hall.
    apply app_eq_nil in Hn. destruct Hn as [-> ->]. simpl.
    rewrite Hp, app_nil_r. apply length_zero_iff_nil.
    rewrite length_skipn. lia. }
  pose proof (Backup_undo l1 (value l) 0 st p eq_refl Ep) as EB.
  eexists. eexists. split; [exact EN|]. split; [exact EB|].
  split; [reflexivity|]. split; [|split; reflexivity].
  simpl. unfold failure_tokens, error_token.
  rewrite (proj1 Ht), Hdone.
  destruct (is_io_EOF e); [now rewrite app_nil_r|reflexivity].
Qed.

Lemma scanning_flush (s : list rune) (e : error) (done : list rune)
    (l : lexer.t) (b : list rune) (toks : list Token.t) :
  scanning s e done l -> one_unread l = true ->
  (bufreader.buf (r l) = [] -> b = []) ->
  (forall pre x, bufreader.buf (r l) = pre ++ [x] -> b = [x]) ->
  let l' := lexer.mk (bufreader.mk (bufreader.r (r l)) b 0 (bufreader.err (r l)))
              toks (eof l) [] (pos l) (pos l) (prevPos l) in
  scanning s e (done ++ value l) l' /\ unread l' = unread l.
Proof.
  intros Hs Ho H1 H2 l'.
  pose proof (scanning_all _ _ _ _ Hs) as Hall.
  destruct Hs as (Hf & He & Hio & Ha & Ht & Htp & Hla).
  pose proof (accounted_flush s done l b toks Ha Ho H1 H2) as Ha'.
  fold l' in Ha'.
  assert (Hs' : scanning s e (done ++ value l) l').
  { split; [exact Hf|]. split; [exact He|]. split; [exact Hio|].
    split; [exact Ha'|].
    split; [simpl; rewrite app_nil_r; now apply (tracks_frame _ l)|].
    split; [simpl; exact (proj1 Ht)|].
    simpl. destruct (snoc_cases (bufreader.buf (r l))) as [E|(pre & x & E)].
    - rewrite (H1 E). unfold len. simpl. lia.
    - rewrite (H2 pre x E). unfold len. simpl. lia. }
  split; [exact Hs'|].
  pose proof (scanning_all _ _ _ _ Hs') as Hall'.
  rewrite <- Hall in Hall'. simpl in Hall'. rewrite <- app_assoc in Hall'.
  apply app_inv_head in Hall'. apply app_inv_head in Hall'. exact Hall'.
Qed.

(** How the driver and the two state functions unfold. *)

Lemma Peek_of (l l1 l2 : lexer.t) (c : rune) :
  Next l = Ok (c, l1) -> Backup l1 = Ok (tt, l2) -> Peek l = Ok (c, l2).
Proof.
  intros EN EB. unfold Peek. now rewrite bind_unfold, EN, bind_unfold, EB.
Qed.

Lemma drive_call (fd : nat) (st : StateFn) (l : lexer.t) :
  eof l = false ->
  drive call (Datatypes.S fd) (Some st) l = drive_after fd (call st fd) l.
Proof.
  intros E. simpl. rewrite E. unfold drive_after. now rewrite bind_unfold.
Qed.

Lemma word_continue (fb fd : nat) (l l2 l3 : lexer.t) (c c' : rune) :
  Peek l = Ok (c, l2) -> isSpace c = false -> (c =? EOF) = false ->
  Next l2 = Ok (c', l3) ->
  drive_after fd (lexWord_body (Datatypes.S fb)) l
  = drive_after fd (lexWord_body fb) l3.
Proof.
  intros EP Es Ee EN. unfold drive_after. cbn [lexWord_body].
  rewrite !bind_unfold, EP, Es, Ee, !bind_unfold, EN. reflexivity.
Qed.

Lemma word_emit_space (fb fd : nat) (l l2 l3 : lexer.t) (c : rune) :
  Peek l = Ok (c, l2) -> isSpace c = true ->
  EmitExtra TokWord None l2 = Ok (tt, l3) ->
  drive_after fd (lexWord_body (Datatypes.S fb)) l
  = drive call fd (Some lexSkipSpaces) l3.
Proof.
  intros EP Es EE. unfold drive_after. cbn [lexWord_body].
  rewrite !bind_unfold, EP, Es, !bind_unfold. unfold Emit. rewrite EE.
  reflexivity.
Qed.

Lemma word_emit_end (fb fd : nat) (l l2 l3 : lexer.t) :
  Peek l = Ok (EOF, l2) ->
  EmitExtra TokWord None l2 = Ok (tt, l3) ->
  drive_after fd (lexWord_body (Datatypes.S fb)) l = Ok (tt, l3).
Proof.
  intros EP EE. unfold drive_after. cbn [lexWord_body].
  rewrite !bind_unfold, EP. change (isSpace EOF) with false.
  change (EOF =? EOF) with true. cbv iota.
  rewrite !bind_unfold. unfold Emit. rewrite EE. unfold ret.
  apply drive_nil.
Qed.

Lemma skip_continue (fb fd : nat) (l l1 : lexer.t) (c : rune) :
  Next l = Ok (c, l1) -> isSpace c = true ->
  drive_after fd (lexSkipSpaces_body (Datatypes.S fb)) l
  = drive_after fd (lexSkipSpaces_body fb) l1.
Proof.
  intros EN Es. unfold drive_after, lexSkipSpaces_body.
  cbn [lexSkipSpaces_loop].
  rewrite !bind_unfold, EN, Es. reflexivity.
Qed.

Lemma skip_done (fb fd : nat) (l l1 l2 l3 : lexer.t) (c : rune) :
  Next l = Ok (c, l1) -> isSpace c = false ->
  Backup l1 = Ok (tt, l2) -> Ignore l2 = Ok (tt, l3) ->
  drive_after fd (lexSkipSpaces_body (Datatypes.S fb)) l
  = drive call fd (Some lexWord) l3.
Proof.
  intros EN Es EB EI. unfold drive_after, lexSkipSpaces_body.
  cbn [lexSkipSpaces_loop].
  rewrite !bind_unfold, EN, Es. unfold ret at 1.
  rewrite !bind_unfold, EB, !bind_unfold, EI. reflexivity.
Qed.

Lemma valid_not_EOF (c : rune) : valid_rune c = true -> (c =? EOF) = false.
Proof.
  unfold valid_rune, EOF. intros Hc. apply Z.eqb_neq. intros ->.
  discriminate Hc.
Qed.

Lemma words_from_space (last : list Token.t) (done w : list rune) (c : rune)
    (todo : list rune) :
  isSpace c = true -> w <> [] ->
  words_from last done w (c :: todo)
  = word_token done w :: words_from last (done ++ w) [] (c :: todo).
Proof.
  intros Es Hw. simpl. rewrite Es. destruct w as [|x w]; [contradiction|].
  simpl. now rewrite <- !app_assoc.
Qed.

Lemma words_from_skip (last : list Token.t) (done sp : list rune) (c : rune)
    (todo : list rune) :
  isSpace c = true ->
  words_from last (done ++ sp) [] (c :: todo)
  = words_from last (done ++ sp ++ [c]) [] todo.
Proof. intros Es. simpl. rewrite Es. simpl. now rewrite <- app_assoc. Qed.

Section run.
Variable s : list rune.
Variable e : error.
Hypothesis Hb : len s < 2 ^ 63.
Hypothesis Hv : forallb valid_rune s = true.
Hypothesis Hne : s <> [].

Lemma scanning_valid (done : list rune) (l : lexer.t) :
  scanning s e done l ->
  forallb valid_rune (value l) = true /\ forallb valid_rune (unread l) = true.
Proof.
  intros Hs. pose proof (scanning_all _ _ _ _ Hs) as Hall.
  pose proof Hv as Hv'. rewrite <- Hall, !forallb_app in Hv'.
  apply andb_true_iff in Hv'. destruct Hv' as [_ Hv'].
  now apply andb_true_iff in Hv'.
Qed.

Lemma emitted_word (done : list rune) (l l2 : lexer.t) :
  scanning s e done l -> value l2 = value l -> tokenPos l2 = tokenPos l ->
  emitted_token l2 TokWord None = word_token done (value l).
Proof.
  intros Hs Ev Et. destruct (scanning_valid _ _ Hs) as [Hvv _].
  destruct Hs as (_ & _ & _ & _ & _ & Htp & _).
  unfold emitted_token, word_token.
  rewrite Ev, Et, Htp, (string_of_runes_valid _ Hvv). reflexivity.
Qed.

Lemma machine_runs (todo : list rune) :
  (forall done l,
      scanning s e done l -> unread l = todo ->
      (value l <> [] \/ exists c t, todo = c :: t /\ isSpace c = false) ->
      exists n l',
        tokens l' = tokens l ++ words_from (failure_tokens e s) done (value l) todo
        /\ forall fb fd, (n <= fb)%nat -> (n <= fd)%nat ->
             drive_after fd (lexWord_body fb) l = Ok (tt, l'))
  /\ (forall done l,
         scanning s e done l -> unread l = todo ->
         exists n l',
           tokens l' = tokens l ++ words_from (failure_tokens e s) (done ++ value l) [] todo
           /\ forall fb fd, (n <= fb)%nat -> (n <= fd)%nat ->
                drive_after fd (lexSkipSpaces_body fb) l = Ok (tt, l')).
Proof.
  induction todo as [|c todo [IHW IHK]].
  - split.
    + intros done l Hs Hu Hw.
      destruct Hw as [Hw|(c & t & E & _)]; [|discriminate].
      destruct (scanning_Next_Backup_end s e done l Hs Hu Hne)
        as (l1 & l2 & EN & EB & Ev & Etk & Ee & Etp).
      pose proof (Peek_of _ _ _ _ EN EB) as EP.
      destruct (EmitExtra_eq TokWord None l2) as (b & EE & _).
      match type of EE with _ = Ok (_, ?x) => set (l3 := x) in * end.
      exists 1%nat, l3. split.
      * simpl. rewrite Etk, (emitted_word done l l2 Hs Ev Etp), <- app_assoc.
        now destruct (value l).
      * intros fb fd Hfb _. destruct fb as [|fb]; [lia|].
        exact (word_emit_end fb fd l l2 l3 EP EE).
    + intros done l Hs Hu.
      destruct (scanning_Next_Backup_end s e done l Hs Hu Hne)
        as (l1 & l2 & EN & EB & Ev & Etk & Ee & Etp).
      destruct (Ignore_eq l2) as (b & EI & _).
      match type of EI with _ = Ok (_, ?x) => set (l3 := x) in * end.
      exists 1%nat, l3. split.
      * simpl. now rewrite Etk, app_nil_r.
      * intros fb fd Hfb _. destruct fb as [|fb]; [lia|].
        rewrite (skip_done fb fd l l1 l2 l3 EOF EN eq_refl EB EI).
        apply drive_eof. exact Ee.
  - destruct (isSpace c) eqn:Es.
    + assert (HK : forall done l,
                 scanning s e done l -> unread l = c :: todo ->
                 exists n l',
                   tokens l' = tokens l
                               ++ words_from (failure_tokens e s) (done ++ value l)
                                    [] (c :: todo)
                   /\ forall fb fd, (n <= fb)%nat -> (n <= fd)%nat ->
                        drive_after fd (lexSkipSpaces_body fb) l = Ok (tt, l')).
      { intros done l Hs Hu.
        destruct (scanning_Next s e done l c todo Hb Hs Hu)
          as (l1 & EN & Hs1 & Hv1 & Hu1 & Htk1 & _).
        destruct (IHK done l1 Hs1 Hu1) as (n & l' & Htk & Hrun).
        exists (Datatypes.S n), l'. split.
        - rewrite Htk, Htk1, Hv1, (words_from_skip _ _ _ _ _ Es). reflexivity.
        - intros fb fd Hfb Hfd. destruct fb as [|fb]; [lia|].
          rewrite (skip_continue fb fd l l1 c EN Es).
          apply Hrun; lia. }
      split; [|exact HK].
      intros done l Hs Hu Hw.
      destruct Hw as [Hw|(c' & t & E & Es')];
        [|injection E as <- _; rewrite Es in Es'; discriminate].
      destruct (scanning_Next_Backup s e done l c todo Hb Hs Hu)
        as (l1 & l2 & EN & EB & Hs2 & Hv2 & Hu2 & Htk2 & Ho2).
      pose proof (Peek_of _ _ _ _ EN EB) as EP.
      destruct (EmitExtra_eq TokWord None l2) as (b & EE & H1 & H2).
      match type of EE with _ = Ok (_, ?x) => set (l3 := x) in * end.
      destruct (scanning_flush s e done l2 b
                  (tokens l2 ++ [emitted_token l2 TokWord None]) Hs2 Ho2 H1 H2)
        as [Hs3 Hu3].
      fold l3 in Hs3, Hu3. rewrite Hu2 in Hu3.
      destruct (HK (done ++ value l2) l3 Hs3 Hu3) as (n & l' & Htk & Hrun).
      exists (Datatypes.S n), l'. split.
      * rewrite Htk. simpl tokens. simpl value. rewrite app_nil_r, Htk2, Hv2.
        rewrite (emitted_word done l l2 Hs Hv2
                   (eq_trans (proj1 (proj2 (proj2 (proj2 (proj2 (proj2 Hs2))))))
                      (eq_sym (proj1 (proj2 (proj2 (proj2 (proj2 (proj2 Hs))))))))).
        rewrite (words_from_space _ done (value l) c todo Es Hw).
        rewrite <- app_assoc. reflexivity.
      * intros fb fd Hfb Hfd.
        destruct fb as [|fb]; [lia|]. destruct fd as [|fd]; [lia|].
        rewrite (word_emit_space fb _ l l2 l3 c EP Es EE).
        rewrite drive_call by exact (proj1 (proj2 Hs3)).
        apply Hrun; lia.
    + assert (HW : forall done l,
                 scanning s e done l -> unread l = c :: todo ->
                 exists n l',
                   tokens l' = tokens l
                               ++ words_from (failure_tokens e s) done (value l)
                                    (c :: todo)
                   /\ forall fb fd, (n <= fb)%nat -> (n <= fd)%nat ->
                        drive_after fd (lexWord_body fb) l = Ok (tt, l')).
      { intros done l Hs Hu.
        destruct (scanning_Next_Backup s e done l c todo Hb Hs Hu)
          as (l1 & l2 & EN & EB & Hs2 & Hv2 & Hu2 & Htk2 & _).
        pose proof (Peek_of _ _ _ _ EN EB) as EP.
        destruct (scanning_Next s e done l2 c todo Hb Hs2 Hu2)
          as (l3 & EN3 & Hs3 & Hv3 & Hu3 & Htk3 & _).
        assert (Hw3 : value l3 <> []).
        { rewrite Hv3. intros E. now apply app_eq_nil in E. }
        destruct (IHW done l3 Hs3 Hu3 (or_introl Hw3)) as (n & l' & Htk & Hrun).
        assert (Hc : (c =? EOF) = false).
        { apply valid_not_EOF. destruct (scanning_valid _ _ Hs) as [_ Hvu].
          rewrite Hu in Hvu. simpl in Hvu. now apply andb_true_iff in Hvu. }
        exists (Datatypes.S n), l'. split.
        - rewrite Htk, Htk3, Htk2, Hv3, Hv2. simpl. now rewrite Es.
        - intros fb fd Hfb Hfd. destruct fb as [|fb]; [lia|].
          rewrite (word_continue fb fd l l2 l3 c c EP Es Hc EN3).
          apply Hrun; lia. }
      split; [intros done l Hs Hu _; now apply HW|].
      intros done l Hs Hu.
      destruct (scanning_Next_Backup s e done l c todo Hb Hs Hu)
        as (l1 & l2 & EN & EB & Hs2 & Hv2 & Hu2 & Htk2 & Ho2).
      destruct (Ignore_eq l2) as (b & EI & H1 & H2).
      match type of EI with _ = Ok (_, ?x) => set (l3 := x) in * end.
      destruct (scanning_flush s e done l2 b (tokens l2) Hs2 Ho2 H1 H2)
        as [Hs3 Hu3].
      fold l3 in Hs3, Hu3. rewrite Hu2 in Hu3.
      destruct (HW (done ++ value l2) l3 Hs3 Hu3) as (n & l' & Htk & Hrun).
      exists (Datatypes.S n), l'. split.
      * rewrite Htk. simpl tokens. simpl value. now rewrite Htk2, Hv2.
      * intros fb fd Hfb Hfd.
        destruct fb as [|fb]; [lia|]. destruct fd as [|fd]; [lia|].
        rewrite (skip_done fb _ l l1 l2 l3 c EN Es EB EI).
        rewrite drive_call by exact (proj1 (proj2 Hs3)).
        apply Hrun; lia.
Qed.

Lemma scanning_init : scanning s e [] (NewLexer (source.mk s e)).
Proof.
  split; [reflexivity|]. split; [reflexivity|]. split; [reflexivity|].
  split.
  { split; [discriminate|]. simpl. repeat split; reflexivity || discriminate. }
  split; [apply tracks_init|].
  split; [reflexivity|]. simpl. unfold len. simpl. lia.
Qed.

(** X19.  The word/space machine of the test-suite splits any text.
    On a source that gives a non-empty text of fewer than 2^63 valid
    characters and then fails, [Run] from [lexSkipSpaces] returns, with
    enough fuel, and the tokens delivered before the stream closes are
    the maximal runs of characters other than space, tab, carriage
    return and newline, in order, each with the line, column and offset
    of its first character.  When the failure is not the end of the
    stream, one error token with its message, at the position of the end
    of the text, is delivered as well: last if the text ends in a space,
    and before the last word if it ends in a word. *)
Theorem word_machine_splits :
  exists n, forall fuel, (n <= fuel)%nat ->
    Run call fuel (Some lexSkipSpaces) (NewLexer (source.mk s e))
    = Ok (words_then_failure e s).
Proof.
  destruct (proj2 (machine_runs s) [] (NewLexer (source.mk s e))
              scanning_init eq_refl)
    as (n & l' & Htk & Hrun).
  exists (Datatypes.S n). intros fuel Hf. destruct fuel as [|fuel]; [lia|].
  unfold Run. rewrite drive_call by reflexivity.
  change (call lexSkipSpaces fuel) with (lexSkipSpaces_body fuel).
  rewrite (Hrun fuel fuel) by lia. rewrite Htk. reflexivity.
Qed.

End run.

(** At the end of the stream nothing is added to the words. *)
Lemma words_then_failure_EOF (s : list rune) :
  words_then_failure io_EOF s = words_of s.
Proof. reflexivity. Qed.

(** The empty text is outside the theorem: there [lexSkipSpaces] calls
    [Backup] with no position saved, and the run panics. *)
Lemma word_machine_empty_input (e : error) (fuel : nat) :
  Run call (Datatypes.S (Datatypes.S fuel)) (Some lexSkipSpaces)
    (NewLexer (source.mk [] e))
  = Panic index_out_of_range.
Proof. destruct e; reflexivity. Qed.

End word_machine.

(** ** The machine at concrete inputs *)

Section witnesses_machine.
#[local] Existing Instance plain_env.
Import lexer.

Lemma word_machine_splits_witness :
  let s := runes "foo bar" in
  len s < 2 ^ 63 /\ forallb valid_rune s = true /\ s <> []
  /\ exists n, forall fuel, (n <= fuel)%nat ->
       Run call fuel (Some lexSkipSpaces) (NewLexer (brokenReader s))
       = Ok [word "foo" 0 0 0; broken_error_token; word "bar" 0 4 4].
Proof.
  intros s.
  assert (Hne : s <> []) by discriminate.
  split; [reflexivity|]. split; [reflexivity|]. split; [exact Hne|].
  exact (word_machine_splits s (other_error (runes "broken")) eq_refl eq_refl Hne).
Defined.

End witnesses_machine.

